(** * Omnipose core: a shallow embedding of [omnipose/core.py]

    The development follows the Python module section by section:
    N-dimensional arrays and the numpy operations the module uses, the
    field solver ([masks_to_flows_torch], [_extend_centers_torch],
    [eikonal_update_torch], [update_torch]), the flow advector
    ([step_factor], [map_coordinates], [steps_interp], [follow_flows]), the
    instance reconstructor ([get_masks]), the consistency filter
    ([flow_error], [remove_bad_flow_masks]) and the orchestrator
    ([compute_masks]).

    The arithmetic of the tensors is a parameter: the module is written
    over an abstract scalar interface ([Scalar], [Elementary]).  It is
    instantiated with binary64 floating-point numbers (the [torch.double] of
    the solver) where a property depends on rounding, with exact rationals
    where the code only adds, multiplies, divides and compares, and with
    extended reals (a real number, or a value that is not finite) for the
    worked examples of the solver, whose values are small integers and their
    square roots. *)

From Stdlib Require Floats.
Import Corelib.Floats.PrimFloat.
From Stdlib Require Import String.
From Stdlib Require Import List ZArith QArith Qround Bool Lia Arith Reals Lra Psatz.
From Stdlib Require Import Sorted.
Import ListNotations.

Set Implicit Arguments.

Close Scope R_scope.
Close Scope Q_scope.
Open Scope nat_scope.

(* ================================================================== *)
(** * N-dimensional arrays *)
(* ================================================================== *)

Module Nd.

(** A multi-index: one integer per axis. *)
Definition index := list Z.

Fixpoint index_eqb (i j : index) : bool :=
  match i, j with
  | [], [] => true
  | a :: i', b :: j' => Z.eqb a b && index_eqb i' j'
  | _, _ => false
  end.

(** A numpy array: its shape and the element stored at each multi-index.
    Only the elements at in-range indices are meaningful. *)
Record ndarray (A : Type) : Type := Array {
  shape : list nat;
  item : index -> A
}.

Definition ndim {A} (a : ndarray A) : nat := length (shape a).

(** [np.ndindex] over a shape: every in-range multi-index, in C (row-major) order,
    which is the order of [np.nonzero] and of flattened boolean indexing. *)
Fixpoint ndindex (shp : list nat) : list index :=
  match shp with
  | [] => [[]]
  | n :: rest =>
      flat_map (fun k => map (cons (Z.of_nat k)) (ndindex rest)) (seq 0 n)
  end.

Fixpoint in_bounds (shp : list nat) (i : index) : bool :=
  match shp, i with
  | [], [] => true
  | n :: shp', k :: i' => (0 <=? k)%Z && (k <? Z.of_nat n)%Z && in_bounds shp' i'
  | _, _ => false
  end.

(** [np.zeros(shape)] / [np.full]. *)
Definition full {A} (shp : list nat) (v : A) : ndarray A :=
  Array shp (fun _ => v).

(** [a.ravel()]: the elements in C order. *)
Definition ravel {A} (a : ndarray A) : list A :=
  map (item a) (ndindex (shape a)).

(** [np.nonzero(a)], as the list of multi-indices ([np.stack(...).T]). *)
Definition nonzero (a : ndarray Z) : list index :=
  filter (fun i => negb (item a i =? 0)%Z) (ndindex (shape a)).

(** [np.nonzero(a)] for a boolean array. *)
Definition nonzero_b (a : ndarray bool) : list index :=
  filter (item a) (ndindex (shape a)).

(** [np.any(a)]. *)
Definition any (a : ndarray Z) : bool :=
  existsb (fun i => negb (item a i =? 0)%Z) (ndindex (shape a)).

Definition any_b (a : ndarray bool) : bool :=
  existsb (item a) (ndindex (shape a)).

(** [a.max()] of an integer array of non-negative labels (0 when empty). *)
Definition amax (a : ndarray Z) : Z :=
  fold_right Z.max 0%Z (ravel a).

Definition shift (k : Z) (i : index) : index := map (fun c => (c + k)%Z) i.

Definition add_index (i j : index) : index :=
  map (fun p => (fst p + snd p)%Z) (combine i j).

(** [np.pad(a, pad)] with the default constant mode (zero fill). *)
Definition pad {A} (zero : A) (p : nat) (a : ndarray A) : ndarray A :=
  Array (map (fun n => n + 2 * p) (shape a))
        (fun i => let j := shift (- Z.of_nat p) i in
                  if in_bounds (shape a) j then item a j else zero).

(** [a[unpad]] with [unpad] the slice [pad:-pad] on every axis: strip [p >= 1] cells on every side.
    With [p = 0] the Python slice [slice(0,-0)] is empty. *)
Definition unpad {A} (p : nat) (a : ndarray A) : ndarray A :=
  Array (map (fun n => match p with O => O | _ => n - 2 * p end) (shape a))
        (fun i => item a (shift (Z.of_nat p) i)).

(** [a[idx] = v] for one multi-index. *)
Definition set_item {A} (a : ndarray A) (i : index) (v : A) : ndarray A :=
  Array (shape a) (fun j => if index_eqb j i then v else item a j).

(** [a[tuple(idx.T)] = vals]: advanced-index assignment, carried out
    in order (for a repeated index the last value wins). *)
Fixpoint scatter {A} (a : ndarray A) (idx : list index) (vals : list A)
  : ndarray A :=
  match idx, vals with
  | i :: idx', v :: vals' => scatter (set_item a i v) idx' vals'
  | _, _ => a
  end.

(** [a[tuple(idx.T)]]: advanced-index gather. *)
Definition gather {A} (a : ndarray A) (idx : list index) : list A :=
  map (item a) idx.

(** [sklearn.utils.extmath.cartesian] of [d] copies of [-1,0,1]: the [3^d] offsets,
    first axis slowest. *)
Fixpoint cartesian (d : nat) : list index :=
  match d with
  | O => [[]]
  | S d' => flat_map (fun s => map (cons s) (cartesian d')) [-1; 0; 1]%Z
  end.

End Nd.

Import Nd.

(* ================================================================== *)
(** * Scalars *)
(* ================================================================== *)

(** The operations the module performs on tensor elements (torch doubles,
    numpy floats).  Comparisons are boolean and, as in IEEE arithmetic, may
    be false both ways on a NaN. *)
Class Scalar (F : Type) : Type := {
  f_of_Z : Z -> F;
  fadd : F -> F -> F;
  fsub : F -> F -> F;
  fmul : F -> F -> F;
  fdiv : F -> F -> F;
  fmin : F -> F -> F;
  fmax : F -> F -> F;
  fle : F -> F -> bool;       (* [x <= y] *)
  flt : F -> F -> bool;       (* [x < y] *)
  fceil : F -> Z;             (* [np.ceil(x).astype(int)] *)
  ftrunc : F -> Z;            (* [x.astype(np.int32)], [int(x)] *)
  frint : F -> Z;             (* [np.rint(x).astype(int)]: half to even *)
  frecip : Z -> F             (* [1/d] for an integer tensor [d]: torch computes
                                 the quotient in its default type, float32 *)
}.

(** The elementary functions of the solver: [torch.sqrt], [torch.log] and the
    power [x ** (1/d)]. *)
Class Elementary (F : Type) : Type := {
  fsqrt : F -> F;
  flog : F -> F;
  froot : F -> nat -> F
}.

Section ScalarOps.
Context {F : Type} `{Scalar F}.

Definition fzero : F := f_of_Z 0.
Definition fone : F := f_of_Z 1.
Definition fsum (l : list F) : F := fold_left fadd l fzero.
Definition fsq (x : F) : F := fmul x x.
(** Multiplication of a float by a boolean ([x * mask]). *)
Definition fmask (x : F) (b : bool) : F := fmul x (f_of_Z (if b then 1 else 0)).
(** [x.mean()] over a list. *)
Definition fmean (l : list F) : F := fdiv (fsum l) (f_of_Z (Z.of_nat (length l))).

End ScalarOps.

(** Python indexing of a sequence with a possibly negative position. *)
Definition py_nth {A} (l : list A) (i : Z) (dflt : A) : A :=
  if (i <? 0)%Z then nth (Z.to_nat (Z.of_nat (length l) + i)) l dflt
  else nth (Z.to_nat i) l dflt.

(* ================================================================== *)
(** * Section I: core utilities *)
(* ================================================================== *)

Section CoreUtilities.
Context {F : Type} `{Scalar F}.

(** [np.max(a)] of a float array (its first element folded with the rest). *)
Definition fmax_list (l : list F) : F :=
  match l with
  | [] => fzero
  | x :: r => fold_left fmax r x
  end.

(** [get_niter]: [np.ceil(np.max(dists)*1.16).astype(int)+1]. *)
Definition get_niter (dists : ndarray F) : Z :=
  (fceil (fmul (fmax_list (ravel dists)) (fdiv (f_of_Z 116) (f_of_Z 100))) + 1)%Z.

(** [dist_to_diam]: [2*(n+1)*np.mean(dt_pos)]. *)
Definition dist_to_diam (dt_pos : list F) (n : nat) : F :=
  fmul (f_of_Z (2 * (Z.of_nat n + 1))) (fmean dt_pos).

End CoreUtilities.

(* ================================================================== *)
(** * Section II: the field solver *)
(* ================================================================== *)

Section Stencil.

(** [sign = np.sum(np.abs(steps),axis=1)]: the face order of an offset. *)
Definition sign (s : index) : Z := fold_right (fun c acc => (Z.abs c + acc)%Z) 0%Z s.

(** [np.where(sign==i)[0]]: the positions of the offsets of face order [i]. *)
Definition where_sign (d : nat) (i : Z) : list nat :=
  map fst (filter (fun p => (sign (snd p) =? i)%Z)
                  (combine (seq 0 (length (cartesian d))) (cartesian d))).

(** [inds = [np.where(sign==i)[0] for i in uniq]], with [uniq = 0..d]. *)
Definition stencil_inds (d : nat) : list (list nat) :=
  map (fun i => where_sign d (Z.of_nat i)) (seq 0 (S d)).

(** [neighbors[:, :, k]]: the [3^d] neighbours of the point [c]. *)
Definition neighbors_of (d : nat) (c : index) : list index :=
  map (add_index c) (cartesian d).

(** [isneighbor[:, k]]: which neighbours carry the label of the centre. *)
Definition isneighbor_of (masks : ndarray Z) (d : nat) (c : index) : list bool :=
  let lbls := map (item masks) (neighbors_of d c) in
  let centre := nth (3 ^ d / 2) lbls 0%Z in
  map (fun l => (l =? centre)%Z) lbls.

End Stencil.

Section Eikonal.
Context {F : Type} `{Scalar F} `{Elementary F}.

(** [torch.cumsum(a, dim=0)] of one column. *)
Fixpoint cumsum_from (acc : F) (a : list F) : list F :=
  match a with
  | [] => []
  | x :: r => let acc' := fadd acc x in acc' :: cumsum_from acc' r
  end.

Definition cumsum (a : list F) : list F :=
  match a with
  | [] => []
  | x :: r => x :: cumsum_from x r
  end.

(** [radicand = sum_a**2 - d*(sum_a2 - f**2)] of one column, where [d] is
    the running count [1, 2, ...]. *)
Definition radicands (a : list F) (f : F) : list F :=
  let sum_a := cumsum a in
  let sum_a2 := cumsum (map fsq a) in
  let d := cumsum (map (fun _ => fone) a) in
  map (fun t => match t with
                | (sa, (sa2, dk)) => fsub (fsq sa) (fmul dk (fsub sa2 (fsq f)))
                end)
      (combine sum_a (combine sum_a2 d)).

(** [update_torch] on one column of [a] (one point of the mask): the tensor
    operations of the source act along [dim=0] independently for each
    position [r] of the last axis. *)
Definition update_col (a : list F) (f : F) : F :=
  let sum_a := cumsum a in
  let radicand := radicands a f in
  let mask := map (fun x => fle fzero x) radicand in
  let d := Z.of_nat (length (filter (fun b => b) mask)) in
  let ad := py_nth sum_a (d - 1) fzero in
  let rd := py_nth radicand (d - 1) fzero in
  fmul (frecip d) (fadd ad (fsqrt rd)).

(** [update_torch(a, f)]: [a] is given as one column per point. *)
Definition update_torch (a : list (list F)) (f : F) : list F :=
  map (fun col => update_col col f) a.

(** [mins] of one point for one index group:
    [torch.minimum(Tneigh[:,inds[i],:], Tneigh[:,inds[-(i+1)],:])]
    for [i] in [range(len(inds)//2)]. *)
Definition mins_col (Tneigh : list F) (inds : list nat) : list F :=
  map (fun i => fmin (nth (nth i inds 0) Tneigh fzero)
                     (nth (nth (length inds - (i + 1)) inds 0) Tneigh fzero))
      (seq 0 (length inds / 2)).

(** The loop of [eikonal_update_torch] for one point: the product of the
    group updates over [zip(index_list[1:], factors[1:])]. *)
Definition phi_total_col (Tneigh : list F) (index_list : list (list nat))
  (factors : list F) : F :=
  fold_left (fun phi_total g => fmul phi_total (update_col (mins_col Tneigh (fst g)) (snd g)))
            (combine (tl index_list) (tl factors)) fone.

(** [eikonal_update_torch(T, pt, isneigh, d, index_list, factors)]:
    [pt] and [isneigh] hold one column per point. *)
Definition eikonal_update_torch (T : ndarray F) (pt : list (list index))
  (isneigh : list (list bool)) (d : nat) (index_list : list (list nat))
  (factors : list F) : list F :=
  map (fun pk =>
         let Tneigh := map (fun q => fmask (fst q) (snd q))
                           (combine (gather T (fst pk)) (snd pk)) in
         froot (phi_total_col Tneigh index_list factors) d)
      (combine pt isneigh).

End Eikonal.

Section Centers.

(** [np.nonzero(masks == l)]. *)
Definition label_coords (masks : ndarray Z) (l : Z) : list index :=
  filter (fun i => (item masks i =? l)%Z) (ndindex (shape masks)).

Definition Zsum (l : list Z) : Z := fold_right Z.add 0%Z l.

(** [scipy.ndimage.center_of_mass(masks, labels=masks, index=l).astype(int)]:
    the label image is also the weight image.  For a label that does not
    occur the centre of mass is NaN and has no integer value. *)
Definition center_of_mass_int (masks : ndarray Z) (l : Z) : option index :=
  match label_coords masks l with
  | [] => None
  | cs =>
      let w := Zsum (map (item masks) cs) in
      Some (map (fun c => Z.quot (Zsum (map (fun i => item masks i * nth c i 0) cs)) w)%Z
                (seq 0 (ndim masks)))
  end.

Fixpoint insert_sorted (x : Z) (l : list Z) : list Z :=
  match l with
  | [] => [x]
  | y :: r => if (x <=? y)%Z then x :: l else y :: insert_sorted x r
  end.

Definition sort_Z (l : list Z) : list Z := fold_right insert_sorted [] l.

(** [np.median] of a list of integers. *)
Definition median (l : list Z) : Q :=
  let s := sort_Z l in
  let n := length s in
  if Nat.even n
  then (inject_Z (nth (n / 2 - 1) s 0%Z) + inject_Z (nth (n / 2) s 0%Z)) / 2
  else inject_Z (nth (n / 2) s 0%Z).

(** [np.argmin]: the first position of the least element. *)
Fixpoint argmin_from (best : Q) (besti cur : nat) (l : list Q) : nat :=
  match l with
  | [] => besti
  | x :: r => if Qlt_le_dec x best then argmin_from x cur (S cur) r
              else argmin_from best besti (S cur) r
  end.

Definition argmin (l : list Q) : nat :=
  match l with
  | [] => 0
  | x :: r => argmin_from x 0 1 r
  end.

(** The correction applied to a centre that is not inside its mask:
    [coords = np.array(np.nonzero(masks==(i+1)))] has one row per axis and one
    column per pixel; [meds = np.median(coords,axis=0)] reduces over the rows
    (the axes), giving one number per pixel;  the pixel chosen minimises
    [np.sum((coords-meds)**2,axis=0)]. *)
Definition seek_center (masks : ndarray Z) (l : Z) : index :=
  let coords := label_coords masks l in
  let meds := map median coords in
  let cost := map (fun cm =>
                     fold_right Qplus 0%Q
                       (map (fun c => (inject_Z c - snd cm) * (inject_Z c - snd cm))%Q (fst cm)))
                  (combine coords meds) in
  nth (argmin cost) coords [].

(** The centre of the mask labelled [l], as the [not omni] branch of
    [masks_to_flows_torch] computes it. *)
Definition center_of (masks : ndarray Z) (l : Z) : option index :=
  match center_of_mass_int masks l with
  | None => None
  | Some c => if (item masks c =? l)%Z then Some c else Some (seek_center masks l)
  end.

Fixpoint sequence {A} (l : list (option A)) : option (list A) :=
  match l with
  | [] => Some []
  | None :: _ => None
  | Some x :: r => match sequence r with Some r' => Some (x :: r') | None => None end
  end.

(** [np.arange(1, masks.max()+1)]. *)
Definition label_range (masks : ndarray Z) : list Z :=
  map (fun k => Z.of_nat (S k)) (seq 0 (Z.to_nat (amax masks))).

(** [centers] (one centre per label [1..max]); [None] when a label in that
    range does not occur, where the source fails on a NaN centre of mass. *)
Definition centers_of (masks : ndarray Z) : option (list index) :=
  sequence (map (center_of masks) (label_range masks)).

(** [s.stop - s.start + 1] summed over the axes of the bounding box of label
    [l] ([scipy.ndimage.find_objects]); [None] for a label that does not occur. *)
Definition ext_sum (masks : ndarray Z) (l : Z) : option Z :=
  match label_coords masks l with
  | [] => None
  | cs =>
      Some (Zsum (map (fun c =>
                         let xs := map (fun i => nth c i 0%Z) cs in
                         (fold_right Z.max (hd 0 xs) xs + 1
                          - fold_right Z.min (hd 0 xs) xs + 1)%Z)
                      (seq 0 (ndim masks))))
  end.

(** [n_iter = 2 * (ext.sum(axis=1)).max()]. *)
Definition heat_niter (masks : ndarray Z) : option Z :=
  match sequence (map (ext_sum masks) (label_range masks)) with
  | None => None
  | Some exts => Some (2 * fold_right Z.max (hd 0 exts) exts)%Z
  end.

End Centers.

(** Whether the label image has exactly one foreground pixel and two
    dimensions or more: the case in which [.squeeze()] removes the point axis
    of the flow of [_extend_centers_torch] and the assignment
    [mu0[(Ellipsis,)+np.nonzero(masks)] = mu] of [masks_to_flows_torch]
    cannot broadcast the shape [(d,)] to [(d,1)]. *)
Definition single_point (masks : ndarray Z) : bool :=
  (length (nonzero masks) =? 1) && (2 <=? ndim masks).

Section FieldSolver.
Context {F : Type} `{Scalar F} `{Elementary F}.

(** [utils.normalize_field]: the module [utils] is outside this file; the
    solver takes the function as a parameter (it maps the [d x npoints] array
    of flow vectors to an array of the same layout). *)
Variable normalize_field : list (list F) -> list (list F).

(** The [3^d] neighbour indices and the neighbour validator of every point
    of the mask ([pt] and [isneigh], one column per point). *)
Definition stencil_pt (masks : ndarray Z) : list (list index) :=
  map (neighbors_of (ndim masks)) (nonzero masks).

Definition stencil_isneigh (masks : ndarray Z) : list (list bool) :=
  map (isneighbor_of masks (ndim masks)) (nonzero masks).

(** [mask_pix]: the central coordinates [pt[:,idx]]. *)
Definition mask_pix (masks : ndarray Z) : list index :=
  map (fun nb => nth (3 ^ ndim masks / 2) nb []) (stencil_pt masks).

(** [factors = np.sqrt(uniq)]. *)
Definition stencil_fact (d : nat) : list F :=
  map (fun i => fsqrt (f_of_Z (Z.of_nat i))) (seq 0 (S d)).

(** One pass of the [omni] branch of the relaxation loop. *)
Definition eikonal_step (masks : ndarray Z) (T : ndarray F) : ndarray F :=
  scatter T (mask_pix masks)
          (eikonal_update_torch T (stencil_pt masks) (stencil_isneigh masks)
             (ndim masks) (stencil_inds (ndim masks)) (stencil_fact (ndim masks))).

(** One pass of the point-source branch: [T[center_pix] += 1], then the
    masked box mean. *)
Definition heat_step (masks : ndarray Z) (centers : list index) (T : ndarray F)
  : ndarray F :=
  let T1 := scatter T centers (map (fun c => fadd (item T c) fone) centers) in
  let Tmean :=
    map (fun pk => fmean (map (fun q => fmask (fst q) (snd q))
                              (combine (gather T1 (fst pk)) (snd pk))))
        (combine (stencil_pt masks) (stencil_isneigh masks)) in
  scatter T1 (mask_pix masks) Tmean.

(** The flow of one point: [grads = T[cardinal_points]*mask] and the
    differences [(grads[:,-(i+1)] - grads[:,i])/2]. *)
Definition grads_col (T : ndarray F) (idx : list nat) (nb : list index)
  (isn : list bool) : list F :=
  map (fun j => fmask (item T (nth j nb [])) (nth j isn false)) idx.

Definition mu_component (T : ndarray F) (idx : list nat) (i : nat)
  (masks : ndarray Z) : list F :=
  map (fun pk =>
         let g := grads_col T idx (fst pk) (snd pk) in
         fdiv (fsub (nth (length g - (i + 1)) g fzero) (nth i g fzero)) (f_of_Z 2))
      (combine (stencil_pt masks) (stencil_isneigh masks)).

(** [_extend_centers_torch(masks, centers, n_iter, omni)], for the label
    images the module calls it with: zero-padded ([masks_to_flows_torch] pads
    by one pixel), so that every neighbour of a foreground pixel is an index
    of the array, and with two foreground pixels or more.  The unit batch
    axis of [T] ([nimg = 1]) is left out, which is what [.squeeze()] removes;
    the result [mu] has one row per axis and one column per point of the mask.
    Outside that domain the source behaves otherwise, and this definition
    says nothing of it: a foreground pixel in the last row of an axis makes
    [masks[tuple(neighbors)]] raise [IndexError], one in the first row reads
    the last row through the index [-1], and with a single foreground pixel
    [.squeeze()] removes the point axis as well, so that [mu] has the shape
    [(d,)]; the caller guards that last case ([single_point]). *)
Definition _extend_centers_torch (masks : ndarray Z) (centers : list index)
  (n_iter : nat) (omni : bool) : list (list F) * ndarray F :=
  let T0 := full (shape masks) fzero in
  let Tn := Nat.iter n_iter
              (if omni then eikonal_step masks else heat_step masks centers) T0 in
  let T := if omni then Tn
           else Array (shape Tn) (fun i => flog (fadd fone (item Tn i))) in
  let idx := nth 1 (stencil_inds (ndim masks)) [] in
  (map (fun i => mu_component T idx i masks) (seq 0 (length idx / 2)), T).

(** [mu0[(Ellipsis,)+np.nonzero(masks)] = mu]: row [c] of [mu] goes to the
    plane [c] of [mu0], at the foreground positions in scan order. *)
Definition scatter_rows (mu0 : ndarray F) (coords : list index)
  (mu : list (list F)) : ndarray F :=
  fold_left (fun acc cr => scatter acc (map (cons (Z.of_nat (fst cr))) coords) (snd cr))
            (combine (seq 0 (length mu)) mu) mu0.

(** [masks_to_flows_torch(masks, dists, omni)]; [None] where the source
    raises: a label of [1..max] without pixels, in the point-source branch,
    and a single foreground pixel in an image of two dimensions or more
    ([mu] then has the shape [(d,)] and [mu0[...] = mu] raises
    [ValueError]). *)
Definition masks_to_flows_torch (masks : ndarray Z) (dists : ndarray F)
  (omni : bool) : option (ndarray F * ndarray F) :=
  if any masks then
    if single_point masks then None else
    let pad_ := 1 in
    let masks_padded := pad 0%Z pad_ masks in
    let prep :=
      if omni then Some ([], get_niter dists)
      else match centers_of masks_padded, heat_niter masks with
           | Some cs, Some n => Some (cs, n)
           | _, _ => None
           end in
    match prep with
    | None => None
    | Some (centers, n_iter) =>
        let '(mu, T) := _extend_centers_torch masks_padded centers
                          (Z.to_nat n_iter) omni in
        let mu := normalize_field mu in
        let mu0 := full (length mu :: shape masks) fzero in
        let mu0 := scatter_rows mu0 (nonzero masks) mu in
        Some (mu0, unpad pad_ T)
    end
  else Some (full (ndim masks :: shape masks) fzero, full (shape masks) fzero).

End FieldSolver.

(* ================================================================== *)
(** * Two scalar domains *)
(* ================================================================== *)

Definition Qrint (x : Q) : Z :=
  let fl := Qfloor x in
  let r := (x - inject_Z fl)%Q in
  if Qlt_le_dec r (1 # 2) then fl
  else if Qlt_le_dec (1 # 2) r then (fl + 1)%Z
  else if Z.even fl then fl else (fl + 1)%Z.

(** Exact rationals: enough wherever the code adds, divides and compares. *)
#[export] Instance Scalar_Q : Scalar Q := {
  f_of_Z := inject_Z;
  fadd := Qplus;
  fsub := Qminus;
  fmul := Qmult;
  fdiv := Qdiv;
  fmin := fun x y => if Qlt_le_dec y x then y else x;
  fmax := fun x y => if Qlt_le_dec x y then y else x;
  fle := Qle_bool;
  flt := fun x y => negb (Qle_bool y x);
  fceil := Qceiling;
  ftrunc := fun x => if Qlt_le_dec x 0 then Qceiling x else Qfloor x;
  frint := Qrint;
  frecip := fun d => Qdiv 1 (inject_Z d)
}.

(** Extended reals: a finite real, or a value that is not finite (the NaN
    of a square root of a negative number, of [0/0], and the infinities of a
    division by zero, all of which a later operation can turn into NaN). *)
Inductive xreal : Type :=
| Fin (r : R)
| NotFinite.

Definition xlift2 (op : R -> R -> R) (x y : xreal) : xreal :=
  match x, y with
  | Fin a, Fin b => Fin (op a b)
  | _, _ => NotFinite
  end.

Definition xdiv (x y : xreal) : xreal :=
  match x, y with
  | Fin a, Fin b => if Req_dec_T b 0 then NotFinite else Fin (a / b)%R
  | _, _ => NotFinite
  end.

Definition xle (x y : xreal) : bool :=
  match x, y with
  | Fin a, Fin b => if Rle_dec a b then true else false
  | _, _ => false
  end.

Definition xlt (x y : xreal) : bool :=
  match x, y with
  | Fin a, Fin b => if Rlt_dec a b then true else false
  | _, _ => false
  end.

Definition xsqrt (x : xreal) : xreal :=
  match x with
  | Fin a => if Rle_dec 0 a then Fin (sqrt a) else NotFinite
  | NotFinite => NotFinite
  end.

Definition xlog (x : xreal) : xreal :=
  match x with
  | Fin a => if Rlt_dec 0 a then Fin (ln a) else NotFinite
  | NotFinite => NotFinite
  end.

(** [x ** (1/d)] for [d >= 1]. *)
Definition xroot (x : xreal) (d : nat) : xreal :=
  match x with
  | Fin a => if Rlt_dec 0 a then Fin (Rpower a (/ INR d))
             else if Req_dec_T a 0 then Fin 0%R else NotFinite
  | NotFinite => NotFinite
  end.

Definition xceil (x : xreal) : Z :=
  match x with
  | Fin a => (- (up (- a) - 1))%Z
  | NotFinite => 0%Z
  end.

Definition xtrunc (x : xreal) : Z :=
  match x with
  | Fin a => if Rle_dec 0 a then (up a - 1)%Z else (- (up (- a) - 1))%Z
  | NotFinite => 0%Z
  end.

Definition xrint (x : xreal) : Z :=
  match x with
  | Fin a =>
      let fl := (up a - 1)%Z in
      let r := (a - IZR fl)%R in
      if Rlt_dec r (1 / 2) then fl
      else if Rlt_dec (1 / 2) r then (fl + 1)%Z
      else if Z.even fl then fl else (fl + 1)%Z
  | NotFinite => 0%Z
  end.

#[export] Instance Scalar_xreal : Scalar xreal := {
  f_of_Z := fun z => Fin (IZR z);
  fadd := xlift2 Rplus;
  fsub := xlift2 Rminus;
  fmul := xlift2 Rmult;
  fdiv := xdiv;
  fmin := xlift2 Rmin;
  fmax := xlift2 Rmax;
  fle := xle;
  flt := xlt;
  fceil := xceil;
  ftrunc := xtrunc;
  frint := xrint;
  frecip := fun d => xdiv (Fin 1) (Fin (IZR d))
}.

#[export] Instance Elementary_xreal : Elementary xreal := {
  fsqrt := xsqrt;
  flog := xlog;
  froot := xroot
}.

(** ** Binary64

    The tensors of the solver are [torch.double]: IEEE binary64, rounded to
    nearest even, which is the arithmetic of the primitive floats.  The
    quotient [1/d] of [update_torch] is the one exception: [d] is an integer
    tensor, and torch computes [1/d] in its default type, float32, before
    the product with the doubles widens it again. *)

(** The conversion of an integer to binary64. *)
Definition b64_of_Z (z : Z) : float :=
  FloatOps.SF2Prim (SpecFloat.binary_normalize 53 1024 z 0 false).

(** [1/d] in float32 (24 bits of precision), as a binary64 number. *)
Definition b32_recip (d : Z) : float :=
  FloatOps.SF2Prim
    (SpecFloat.SFdiv 24 128 (SpecFloat.binary_normalize 24 128 1 0 false)
                            (SpecFloat.binary_normalize 24 128 d 0 false)).

(** [torch.minimum] and [torch.maximum]: a NaN operand gives NaN. *)
Definition b64_min (x y : float) : float :=
  if PrimFloat.is_nan x || PrimFloat.is_nan y then PrimFloat.nan
  else if PrimFloat.ltb y x then y else x.

Definition b64_max (x y : float) : float :=
  if PrimFloat.is_nan x || PrimFloat.is_nan y then PrimFloat.nan
  else if PrimFloat.ltb x y then y else x.

Section Binary64.

(** The conversions of a float to an integer type and the functions
    [torch.log] and [x ** (1/d)] are not primitives of the arithmetic; they
    stay parameters. *)
Variable b64_ceil b64_trunc b64_rint : float -> Z.
Variable b64_log : float -> float.
Variable b64_root : float -> nat -> float.

Definition Scalar_b64 : Scalar float := {|
  f_of_Z := b64_of_Z;
  fadd := PrimFloat.add;
  fsub := PrimFloat.sub;
  fmul := PrimFloat.mul;
  fdiv := PrimFloat.div;
  fmin := b64_min;
  fmax := b64_max;
  fle := PrimFloat.leb;
  flt := PrimFloat.ltb;
  fceil := b64_ceil;
  ftrunc := b64_trunc;
  frint := b64_rint;
  frecip := b32_recip
|}.

Definition Elementary_b64 : Elementary float := {|
  fsqrt := PrimFloat.sqrt;
  flog := b64_log;
  froot := b64_root
|}.

(** [update_torch] on one column of doubles. *)
Definition update_b64 (a : list float) (f : float) : float :=
  @update_col float Scalar_b64 Elementary_b64 a f.

(** The radicands of one column of doubles. *)
Definition radicands_b64 (a : list float) (f : float) : list float :=
  @radicands float Scalar_b64 a f.

End Binary64.

Definition finite (x : xreal) : Prop := exists r, x = Fin r.

(** A finite value that is not negative. *)
Definition finite_nonneg (x : xreal) : Prop := exists r, x = Fin r /\ (0 <= r)%R.

(* ================================================================== *)
(** * Effects: logging, calls to the stages, exceptions *)
(* ================================================================== *)

(** The stages a driver function can hand control to. *)
Inductive stage : Type :=
| St_hysteresis | St_div_rescale | St_follow_flows
| St_steps2D | St_steps3D | St_steps_interp
| St_get_masks | St_get_masks_cp | St_remove_bad_flow_masks
| St_masks_to_flows | St_unique | St_zoom | St_fill_holes | St_renumber.

Inductive event : Type :=
| Info (msg : string)        (* [omnipose_logger.info] *)
| Warning (msg : string)     (* [omnipose_logger.warning] *)
| Print (msg : string)
| Invoke (s : stage).

Inductive exn : Type :=
| TypeError | UnboundLocalError | ValueError | IndexError.

(** A computation that logs events and either raises or returns. *)
Definition Run (A : Type) : Type := (exn + A) * list event.

Definition ret {A} (x : A) : Run A := (inr x, []).
Definition raise {A} (e : exn) : Run A := (inl e, []).
Definition emit (e : event) : Run unit := (inr tt, [e]).
Definition bind {A B} (m : Run A) (f : A -> Run B) : Run B :=
  match m with
  | (inl e, l) => (inl e, l)
  | (inr x, l) => let '(r, l') := f x in (r, (l ++ l')%list)
  end.

Declare Scope run_scope.
Delimit Scope run_scope with run.
Notation "x <- m ;; k" := (bind m (fun x => k))
  (at level 61, m at next level, right associativity) : run_scope.
Notation "m ;;; k" := (bind m (fun _ => k))
  (at level 61, right associativity) : run_scope.

Definition when (b : bool) (m : Run unit) : Run unit := if b then m else ret tt.

(** An external stage: its call is recorded, its result is the function's. *)
Definition call {A} (s : stage) (x : A) : Run A := bind (emit (Invoke s)) (fun _ => ret x).

Definition events {A} (m : Run A) : list event := snd m.
Definition outcome {A} (m : Run A) : exn + A := fst m.

Definition invokes (l : list event) : list stage :=
  flat_map (fun e => match e with Invoke s => [s] | _ => [] end) l.

(* ================================================================== *)
(** * Section II (continued): the flow advector *)
(* ================================================================== *)

(** [step_factor]: the Euler integration suppression factor. *)
Definition step_factor (t : nat) : Z := (1 + Z.of_nat t)%Z.

(** A point set as the steppers see it: one coordinate vector per point. *)
Definition points (F : Type) : Type := list (list F).
Arguments points F : clear implicits.

Section Advector.
Context {F : Type} `{Scalar F}.


(** [torch.nn.functional.grid_sample(im, pt, align_corners=False)], an
    external function: the image [im] (one channel per axis) sampled at each
    point of [pt] (coordinates in [-1,1]), one vector of channels per point. *)
Variable grid_sample : ndarray F -> points F -> list (list F).

(** Whether the import of torch succeeded. *)
Variable TORCH_ENABLED : bool.

Definition OMNI_INSTALLED : bool := true.

Definition vmap2 (op : F -> F -> F) (x y : list F) : list F :=
  map (fun q => op (fst q) (snd q)) (combine x y).

(** [map_coordinates] for one point [(yc, xc)]: the bilinear interpolation
    of the [C x Ly x Lx] image [I].  The kernel is compiled for arrays of
    three dimensions only.  [astype(np.int32)] is [ftrunc], without the
    wrap-around of 32-bit integers: the coordinates are those of points kept
    inside the image, far below [2^31]. *)
Definition map_coordinates (I : ndarray F) (yc xc : F) : list F :=
  let C := nth 0 (shape I) 0 in
  let Ly := Z.of_nat (nth 1 (shape I) 0) in
  let Lx := Z.of_nat (nth 2 (shape I) 0) in
  let yc_floor := ftrunc yc in
  let xc_floor := ftrunc xc in
  let y := fsub yc (f_of_Z yc_floor) in
  let x := fsub xc (f_of_Z xc_floor) in
  let yf := Z.min (Ly - 1) (Z.max 0 yc_floor) in
  let xf := Z.min (Lx - 1) (Z.max 0 xc_floor) in
  let yf1 := Z.min (Ly - 1) (yf + 1) in
  let xf1 := Z.min (Lx - 1) (xf + 1) in
  map (fun c =>
         let c := Z.of_nat c in
         fadd (fadd (fadd
           (fmul (fmul (item I [c; yf; xf]) (fsub fone y)) (fsub fone x))
           (fmul (fmul (item I [c; yf; xf1]) (fsub fone y)) x))
           (fmul (fmul (item I [c; yf1; xf]) y) (fsub fone x)))
           (fmul (fmul (item I [c; yf1; xf1]) y) x))
      (seq 0 C).

(** [torch.clamp(x, lo, hi)] and [np.minimum(hi, np.maximum(lo, x))]. *)
Definition clamp (lo hi x : F) : F := fmin hi (fmax lo x).

(** The state of the torch loop of [steps_interp]: the points [pt] and the
    momentum term [dPt0]. *)
Record interp_state : Type := IState {
  st_pt : points F;
  st_dPt0 : list (list F)
}.

(** The blend of the current sample with the momentum term,
    [(dPt+dPt0) / 2.]. *)
Definition blend (dPt dPt0 : list (list F)) : list (list F) :=
  map (fun q => vmap2 (fun a b => fdiv (fadd a b) (f_of_Z 2)) (fst q) (snd q))
      (combine dPt dPt0).

(** The displacement [dPt] the torch loop applies at step [t] from state
    [s], and the momentum it stores. *)
Definition interp_dPt (im : ndarray F) (omni : bool) (t : nat) (s : interp_state)
  : list (list F) * list (list F) :=
  let dPt := grid_sample im (st_pt s) in
  if omni && OMNI_INSTALLED then
    let dPt := blend dPt (st_dPt0 s) in
    let dPt0 := dPt in
    (map (map (fun v => fdiv v (f_of_Z (step_factor t)))) dPt, dPt0)
  else (dPt, st_dPt0 s).

(** One pass of the torch loop. *)
Definition interp_step (im : ndarray F) (omni : bool) (t : nat) (s : interp_state)
  : interp_state :=
  let '(dPt, dPt0) := interp_dPt im omni t s in
  IState (map (fun q => vmap2 (fun x v => clamp (f_of_Z (-1)) (f_of_Z 1) (fadd x v))
                              (fst q) (snd q))
              (combine (st_pt s) dPt))
         dPt0.

(** The state before step [t] (after [t] passes). *)
Fixpoint interp_run (im : ndarray F) (omni : bool) (s0 : interp_state) (t : nat)
  : interp_state :=
  match t with
  | O => s0
  | S t' => interp_step im omni t' (interp_run im omni s0 t')
  end.

(** [shape = np.array(shape)[inds]-1.]: the extents, axes reversed, minus one. *)
Definition torch_extents (dP : ndarray F) : list F :=
  map (fun n => fsub (f_of_Z (Z.of_nat n)) fone) (rev (tl (shape dP))).

(** The points as [grid_sample] wants them: axes reversed, scaled to [-1,1]
    ([pt[...,k] /= shape[k]; pt = pt*2-1]). *)
Definition torch_points (dP : ndarray F) (p : points F) : points F :=
  map (fun q => map (fun xs => fsub (fmul (fdiv (fst xs) (snd xs)) (f_of_Z 2)) fone)
                    (combine (rev q) (torch_extents dP))) p.

(** The flow as [grid_sample] wants it: components reversed and scaled
    ([im[:,k] *= 2./shape[k]]). *)
Definition torch_flow (dP : ndarray F) : ndarray F :=
  let d := nth 0 (shape dP) 0 in
  Array (shape dP)
        (fun ci => match ci with
                   | c :: i =>
                       fmul (item dP ((Z.of_nat d - 1 - c)%Z :: i))
                            (fdiv (f_of_Z 2) (nth (Z.to_nat c) (torch_extents dP) fzero))
                   | [] => fzero
                   end).

(** The inverse normalisation of the points ([pt = (pt+1)*0.5;
    pt[...,k] *= shape[k]]), axes back in order. *)
Definition torch_unnormalise (dP : ndarray F) (pts : points F) : points F :=
  map (fun q => rev (map (fun xs => fmul (fmul (fadd (fst xs) fone)
                                               (fdiv fone (f_of_Z 2))) (snd xs))
                         (combine q (torch_extents dP)))) pts.

(** The state the torch loop starts from: the normalised points, and as
    momentum the flow sampled there ([dPt0], set for omni). *)
Definition torch_init (dP : ndarray F) (p : points F) (omni : bool) : interp_state :=
  let pt := torch_points dP p in
  IState pt (if omni && OMNI_INSTALLED then grid_sample (torch_flow dP) pt else []).

(** The torch branch of [steps_interp]: normalisation of the flow and of the
    points, the loop, and the inverse normalisation. *)
Definition steps_interp_torch (p : points F) (dP : ndarray F) (niter : nat)
  (omni calc_trace : bool) : points F * option (list (points F)) :=
  let im := torch_flow dP in
  let s0 := torch_init dP p omni in
  let tr := if calc_trace
            then Some (map (torch_unnormalise dP)
                           (st_pt s0 :: map (fun t => st_pt (interp_run im omni s0 t))
                                            (seq 0 niter)))
            else None in
  (torch_unnormalise dP (st_pt (interp_run im omni s0 niter)), tr).

(** One pass of the numpy branch of [steps_interp]. *)
Definition cpu_step (dP : ndarray F) (omni : bool) (t : nat) (p : points F) : points F :=
  map (fun q =>
         let dPt := map_coordinates dP (nth 0 q fzero) (nth 1 q fzero) in
         let dPt := if omni && OMNI_INSTALLED
                    then map (fun v => fdiv v (f_of_Z (step_factor t))) dPt else dPt in
         map (fun xs => match xs with
                        | (x, (v, n)) => fmin (fsub (f_of_Z (Z.of_nat n)) fone)
                                              (fmax fzero (fadd x v))
                        end)
             (combine q (combine dPt (tl (shape dP)))))
      p.

Fixpoint cpu_run (dP : ndarray F) (omni : bool) (p0 : points F) (t : nat) : points F :=
  match t with
  | O => p0
  | S t' => cpu_step dP omni t' (cpu_run dP omni p0 t')
  end.

(** [steps_interp(p, dP, niter, use_gpu, device, omni, calc_trace)], for
    the flows each branch supports: the numpy branch for a flow over a 2D
    image ([map_coordinates] takes a [2 x Ly x Lx] array and two coordinates
    per point), the torch branch for a flow of two or three components
    ([grid_sample] takes tensors of four and five dimensions).  On other
    flows the source raises; this definition says nothing of them. *)
Definition steps_interp (p : points F) (dP : ndarray F) (niter : nat)
  (use_gpu omni calc_trace : bool) : points F * option (list (points F)) :=
  if use_gpu && TORCH_ENABLED then steps_interp_torch p dP niter omni calc_trace
  else
    (cpu_run dP omni p niter,
     if calc_trace then Some (map (cpu_run dP omni p) (seq 0 niter)) else None).

End Advector.

Section FollowFlows.
Context {F : Type} `{Scalar F}.

Variable grid_sample : ndarray F -> points F -> list (list F).
Variable TORCH_ENABLED : bool.

(** The numba kernels of the non-interpolated path, [steps2D] and
    [steps3D]; [follow_flows] only hands them its arguments. *)
Variable steps2D : ndarray F -> ndarray F -> list index -> nat -> bool -> bool
                   -> ndarray F * option (list (points F)).
Variable steps3D : ndarray F -> ndarray F -> list index -> nat
                   -> ndarray F * option (list (points F)).

(** [np.array(np.meshgrid( *grid, indexing='ij'))]: the array of shape
    [(d,) + shape] holding at [(c, i)] the coordinate [i[c]]. *)
Definition meshgrid (d : nat) (shp : list nat) : ndarray F :=
  Array (d :: shp)
        (fun ci => match ci with
                   | c :: i => f_of_Z (nth (Z.to_nat c) i 0%Z)
                   | [] => fzero
                   end).

(** [p[cell_px]], one coordinate vector per row of [inds]. *)
Definition gather_points (d : nat) (p : ndarray F) (inds : list index) : points F :=
  map (fun i => map (fun c => item p (Z.of_nat c :: i)) (seq 0 d)) inds.

(** [p[cell_px] = p_interp]. *)
Definition scatter_points (d : nat) (p : ndarray F) (inds : list index)
  (vals : points F) : ndarray F :=
  fold_left (fun acc c => scatter acc (map (cons (Z.of_nat c)) inds)
                                  (map (fun q => nth c q fzero) vals))
            (seq 0 d) p.

(** The seed pixels: the caller's [inds] (an [n x d] array) if given, else
    the pixels of [mask] (omni, mask given), else the pixels where the first
    flow component exceeds [1e-3] in magnitude. *)
Definition seed_inds (dP : ndarray F) (mask : option (ndarray bool))
  (inds : option (list index)) (omni : bool) : list index :=
  match inds with
  | Some i => i
  | None =>
      match omni, mask with
      | true, Some m => nonzero_b m
      | _, _ =>
          let eps := fdiv (f_of_Z 1) (f_of_Z 1000) in
          nonzero_b (Array (tl (shape dP))
                           (fun i => let x := item dP (0%Z :: i) in
                                     flt eps x || flt x (fsub fzero eps)))
      end
  end.

Open Scope run_scope.

(** [follow_flows(dP, mask, inds, niter, interp, use_gpu, device, omni,
    calc_trace)].  The seed array is an [n x d] array, one row per seed
    pixel, so that the test [inds.ndim < 2 or inds.shape[0] < 5] is a test
    on the number of rows. *)
Definition follow_flows (dP : ndarray F) (mask : option (ndarray bool))
  (inds : option (list index)) (niter : Z) (interp use_gpu omni calc_trace : bool)
  : Run (ndarray F * list index * option (list (points F))) :=
  let d := nth 0 (shape dP) 0 in
  let shp := tl (shape dP) in
  let niter := Z.to_nat (niter mod 2 ^ 32) in
  let p := meshgrid d shp in
  let inds := seed_inds dP mask inds omni in
  if length inds <? 5 then
    emit (Warning "WARNING: no mask pixels found") ;;;
    ret (p, inds, None)
  else if negb interp then
    emit (Warning "WARNING: not interp") ;;;
    if d =? 2 then
      r <- call St_steps2D (steps2D p dP inds niter omni calc_trace) ;;
      ret (fst r, inds, snd r)
    else if d =? 3 then
      r <- call St_steps3D (steps3D p dP inds niter) ;;
      ret (fst r, inds, snd r)
    else
      emit (Warning "No non-interp code available for non-2D or -3D inputs.") ;;;
      raise UnboundLocalError
  else
    r <- call St_steps_interp
           (steps_interp grid_sample TORCH_ENABLED (gather_points d p inds) dP niter
                         use_gpu omni calc_trace) ;;
    ret (scatter_points d p inds (fst r), inds, snd r).

Close Scope run_scope.

End FollowFlows.

(* ================================================================== *)
(** * Section II (continued): mask reconstruction *)
(* ================================================================== *)

Section Reconstructor.
Context {F : Type} `{Scalar F} `{Elementary F}.

Variable SKLEARN_ENABLED : bool.
Variable SKIMAGE_ENABLED : bool.

(** [edt.edt]: the Euclidean distance transform of a label image. *)
Variable edt : ndarray Z -> ndarray F.

(** [DBSCAN(eps, min_samples, n_jobs=-1).fit(X).labels_]: one cluster label
    per sample, [-1] for noise. *)
Variable DBSCAN_fit : F -> nat -> points F -> list Z.

(** [NearestNeighbors(n_neighbors).fit(X).kneighbors(Q)[1]]: for each query
    the positions in [X] of its nearest samples, nearest first; sklearn
    raises [ValueError] when [n_neighbors] exceeds the number of samples. *)
Variable kneighbors : nat -> points F -> points F -> exn + list (list nat).

(** [binary_dilation(zeros(shape), border_value=1, iterations=5)],
    [binary_opening(a, border_value=0, iterations=3)], [measure.label(a,
    connectivity)] and [scipy.ndimage.label(a)[0]]. *)
Variable border_dilation : list nat -> nat -> ndarray bool.
Variable binary_opening : ndarray bool -> nat -> ndarray bool.
Variable measure_label : ndarray bool -> nat -> ndarray Z.
Variable scipy_label : ndarray bool -> ndarray Z.

(** [np.abs(x)]. *)
Definition fabs (x : F) : F := fmax x (fsub fzero x).

(** [diameters(masks, dist_threshold=0)]. *)
Definition diameters (masks : ndarray Z) : F :=
  let dt := edt masks in
  let dt_pos := map fabs (filter (fun x => flt fzero x) (ravel dt)) in
  dist_to_diam (map fabs dt_pos) (ndim masks).

Definition bool_to_int (m : ndarray bool) : ndarray Z :=
  Array (shape m) (fun i => if item m i then 1%Z else 0%Z).

(** [np.where(labels==-1)[0]]. *)
Definition where_noise (labels : list Z) : list nat :=
  map fst (filter (fun q => (snd q =? -1)%Z) (combine (seq 0 (length labels)) labels)).

(** [n[(np.where(n!=-1)+(0,))[0][0]]]: the first entry of [n] that is not
    [-1]; an [IndexError] when there is none. *)
Definition first_labelled (n : list Z) : exn + Z :=
  match filter (fun l => negb (l =? -1)%Z) n with
  | l :: _ => inr l
  | [] => inl IndexError
  end.

Fixpoint sequence_exn {A} (l : list (exn + A)) : exn + list A :=
  match l with
  | [] => inr []
  | inl e :: _ => inl e
  | inr x :: r => match sequence_exn r with inr r' => inr (x :: r') | inl e => inl e end
  end.

(** [labels[o_inds] = l]. *)
Fixpoint assign_at (labels : list Z) (o_inds : list nat) (l : list Z) : list Z :=
  match o_inds, l with
  | i :: o', v :: l' =>
      assign_at (firstn i labels ++ v :: skipn (S i) labels)%list o' l'
  | _, _ => labels
  end.

(** The outlier snapping of the clustering branch. *)
Definition snap_outliers (newinds : points F) (labels : list Z) : exn + list Z :=
  let o_inds := where_noise labels in
  if 1 <? length o_inds then
    let outliers := map (fun i => nth i newinds []) o_inds in
    match kneighbors 50 newinds outliers with
    | inl e => inl e
    | inr indices =>
        let ns := map (map (fun j => nth j labels 0%Z)) indices in
        match sequence_exn (map first_labelled ns) with
        | inl e => inl e
        | inr l => inr (assign_at labels o_inds l)
        end
    end
  else inr labels.

Definition lift_exn {A} (r : exn + A) : Run A :=
  match r with inl e => raise e | inr x => ret x end.

Open Scope run_scope.

(** [get_masks(p, bd, dist, mask, inds, nclasses, cluster, diam_threshold,
    verbose)]. *)
Definition get_masks (p : ndarray F) (bd : option (ndarray F)) (dist : ndarray F)
  (mask : ndarray bool) (inds : list index) (nclasses : Z) (cluster : bool)
  (diam_threshold : F) (verbose : bool) : Run (ndarray Z) :=
  let '(d, eps) :=
    if (4 <=? nclasses)%Z then
      let dt := map fabs (gather dist (nonzero_b mask)) in
      (dist_to_diam dt (ndim mask), fadd fone (fdiv fone (f_of_Z 3)))
    else (diameters (bool_to_int mask), fsqrt (f_of_Z 2)) in
  when verbose (emit (Info "Mean diameter is %f")) ;;;
  let small := fle d diam_threshold in
  when (small && verbose)
       (emit (Info "Turning on subpixel clustering for label continuity.")) ;;;
  let cluster := small || cluster in
  let newinds := gather_points (nth 0 (shape p) 0) p inds in
  let mask0 := full (tl (shape p)) 0%Z in
  if cluster && SKLEARN_ENABLED then
    when verbose (emit (Info "Doing DBSCAN clustering with eps=%f")) ;;;
    let db_labels := DBSCAN_fit eps 3 newinds in
    labels <- lift_exn (snap_outliers newinds db_labels) ;;
    ret (scatter mask0 inds (map (fun l => (l + 1)%Z) labels))
  else
    let new_px := map (map frint) newinds in
    let skelmask := scatter (full (shape dist) false) new_px (map (fun _ => true) new_px) in
    let border_mask := border_dilation (shape skelmask) 5 in
    let border_px := Array (shape skelmask)
                           (fun i => item border_mask i && item skelmask i) in
    border_px <-
      (if (nclasses =? 4)%Z then
         match bd with
         | None => raise TypeError
         | Some bd =>
             when verbose (emit (Info "Using boundary output to split edge defects")) ;;;
             ret (Array (shape border_px)
                        (fun i => if flt (f_of_Z (-1)) (item bd i) then false
                                  else item border_px i))
         end
       else ret (binary_opening border_px 3)) ;;
    let skelmask := Array (shape skelmask)
                          (fun i => if item border_mask i then item border_px i
                                    else item skelmask i) in
    let LL := if SKIMAGE_ENABLED then measure_label skelmask (ndim skelmask)
              else scipy_label skelmask in
    ret (scatter mask0 inds (gather LL new_px)).

Close Scope run_scope.

End Reconstructor.

(* ================================================================== *)
(** * Section II (continued): ground-truth flows and the consistency filter *)
(* ================================================================== *)

(** [np.pad(a, p, mode='reflect')]: the coordinate of the source cell, per
    axis of length [n] (the pattern has period [2(n-1)]). *)
Definition reflect_coord (n : nat) (j : Z) : Z :=
  if n <=? 1 then 0%Z
  else let m := (2 * (Z.of_nat n - 1))%Z in
       let k := (j mod m)%Z in
       if (k <? Z.of_nat n)%Z then k else (m - k)%Z.

Definition pad_reflect {A} (p : nat) (a : ndarray A) : ndarray A :=
  Array (map (fun n => n + 2 * p) (shape a))
        (fun i => item a (map (fun q => reflect_coord (fst q) (snd q))
                              (combine (shape a) (shift (- Z.of_nat p) i)))).

(** [mu[(Ellipsis,)+unpad]]: the leading (component) axis is kept. *)
Definition unpad_lead {A} (p : nat) (a : ndarray A) : ndarray A :=
  Array (match shape a with
         | c :: shp => c :: map (fun n => match p with O => O | _ => n - 2 * p end) shp
         | [] => []
         end)
        (fun ci => match ci with
                   | c :: i => item a (c :: shift (Z.of_nat p) i)
                   | [] => item a []
                   end).

(** [a[..., k, ...]]: the slice at position [k] of axis [ax]. *)
Definition slice_axis {A} (ax : nat) (k : Z) (a : ndarray A) : ndarray A :=
  Array (firstn ax (shape a) ++ skipn (S ax) (shape a))%list
        (fun i => item a (firstn ax i ++ k :: skipn ax i)%list).

Section GroundTruth.
Context {F : Type} `{Scalar F} `{Elementary F}.

Variable normalize_field : list (list F) -> list (list F).
Variable edt : ndarray Z -> ndarray F.
(** [ncolor.format_labels]. *)
Variable format_labels : ndarray Z -> ndarray Z.

(** [int(diameters(masks))]: the mean of an empty selection is NaN, whose
    conversion to [int] raises [ValueError]. *)
Definition int_diameters (masks : ndarray Z) : exn + nat :=
  match filter (fun x => flt fzero x) (ravel (edt masks)) with
  | [] => inl ValueError
  | _ => inr (Z.to_nat (ftrunc (diameters edt masks)))
  end.

(** The exception of a call of [masks_to_flows_torch] that fails: in the
    point-source branch a label without pixels gives a centre that is no
    index of the array ([IndexError]); otherwise the failure is the
    [ValueError] of the single foreground pixel. *)
Definition solver_exn (masks : ndarray Z) (omni : bool)
  (r : option (ndarray F * ndarray F)) : exn + (ndarray F * ndarray F) :=
  match r with
  | Some x => inr x
  | None =>
      inl (match centers_of (pad 0%Z 1 masks), heat_niter masks with
           | Some _, Some _ => ValueError
           | _, _ => if omni then ValueError else IndexError
           end)
  end.

(** The branch of [masks_to_flows] for a 3D stack treated plane by plane
    ([masks.ndim==3 and dim==2]): the flows of the planes along each axis are
    added into the two components that lie in the plane. *)
Definition flows_by_planes (masks : ndarray Z) (dists : ndarray F) (omni : bool)
  : exn + ndarray F :=
  let plane ax k :=
    solver_exn (slice_axis ax k masks) omni
               (masks_to_flows_torch normalize_field
                  (slice_axis ax k masks) (slice_axis ax k dists) omni) in
  let planes ax :=
    sequence_exn (map (fun k => plane ax (Z.of_nat k)) (seq 0 (nth ax (shape masks) 0))) in
  match planes 0, planes 1, planes 2 with
  | inr pz, inr py, inr px =>
      let get (ps : list (ndarray F * ndarray F)) (k : Z) (ci : index) : F :=
        item (fst (nth (Z.to_nat k) ps (full [] fzero, full [] fzero))) ci in
      inr (Array (3 :: shape masks)
             (fun ci =>
                match ci with
                | [c; z; y; x] =>
                    let fz := if (c =? 1)%Z then get pz z [0; y; x]
                              else if (c =? 2)%Z then get pz z [1; y; x] else fzero in
                    let fy := if (c =? 0)%Z then get py y [0; z; x]
                              else if (c =? 2)%Z then get py y [1; z; x] else fzero in
                    let fx := if (c =? 0)%Z then get px x [0; z; y]
                              else if (c =? 1)%Z then get px x [1; z; y] else fzero in
                    fadd (fadd (fadd fzero fz) fy) fx
                | _ => fzero
                end)%Z)
  | inl e, _, _ => inl e
  | _, inl e, _ => inl e
  | _, _, inl e => inl e
  end.

(** [masks_to_flows(masks, dists, use_gpu, device, omni, dim)]: returns
    [(masks, dists, T, mu)]. *)
Definition masks_to_flows (masks : ndarray Z) (dists : option (ndarray F))
  (omni : bool) (dim : nat)
  : exn + (ndarray Z * ndarray F * option (ndarray F) * ndarray F) :=
  let '(masks, dists) :=
    match dists with
    | None => let m := format_labels masks in (m, edt m)
    | Some d => (masks, d)
    end in
  if (ndim masks =? 3) && (dim =? 2) then
    match flows_by_planes masks dists omni with
    | inl e => inl e
    | inr mu => inr (masks, dists, None, mu)
    end
  else if omni && OMNI_INSTALLED then
    match int_diameters masks with
    | inl e => inl e
    | inr pad_ =>
        let masks_pad := pad_reflect pad_ masks in
        let dists_pad := pad_reflect pad_ dists in
        match solver_exn masks_pad omni
                (masks_to_flows_torch normalize_field masks_pad dists_pad omni) with
        | inl e => inl e
        | inr (mu, T) => inr (masks, dists, Some (unpad pad_ T), unpad_lead pad_ mu)
        end
    end
  else
    match solver_exn masks omni
            (masks_to_flows_torch normalize_field masks dists omni) with
    | inl e => inl e
    | inr (mu, T) => inr (masks, dists, Some T, mu)
    end.

End GroundTruth.

(** The store of label arrays: Python passes [masks] by reference, and
    [remove_bad_flow_masks] assigns into the caller's array. *)
Definition addr := nat.
Definition heap := addr -> ndarray Z.

Definition heap_set (h : heap) (a : addr) (v : ndarray Z) : heap :=
  fun b => if Nat.eqb b a then v else h b.

Fixpoint dedup_sorted (l : list Z) : list Z :=
  match l with
  | x :: ((y :: _) as r) => if (x =? y)%Z then dedup_sorted r else x :: dedup_sorted r
  | _ => l
  end.

(** [np.unique(a)]: the sorted distinct values. *)
Definition unique (l : list Z) : list Z := dedup_sorted (sort_Z l).

Fixpoint index_of (v : Z) (l : list Z) : Z :=
  match l with
  | [] => 0%Z
  | x :: r => if (x =? v)%Z then 0%Z else (1 + index_of v r)%Z
  end.

(** [np.reshape(np.unique(a, return_inverse=True)[1], a.shape)]: every label
    replaced by its rank among the distinct values of the array. *)
Definition unique_inverse (a : ndarray Z) : ndarray Z :=
  let u := unique (ravel a) in
  Array (shape a) (fun i => index_of (item a i) u).

Section ConsistencyFilter.
Context {F : Type} `{Scalar F} `{Elementary F}.

Variable normalize_field : list (list F) -> list (list F).
Variable edt : ndarray Z -> ndarray F.
Variable format_labels : ndarray Z -> ndarray Z.

(** [scipy.ndimage.mean(input, labels, index=l)]. *)
Definition nd_mean (input : ndarray F) (labels : ndarray Z) (l : Z) : F :=
  fmean (gather input (label_coords labels l)).

(** The squared difference [(dP_masks[i] - dP_net[i]/5.)**2] as an image. *)
Definition sq_diff (dP_masks dP_net : ndarray F) (i : nat) : ndarray F :=
  Array (tl (shape dP_net))
        (fun j => fsq (fsub (item dP_masks (Z.of_nat i :: j))
                            (fdiv (item dP_net (Z.of_nat i :: j)) (f_of_Z 5)))).

Open Scope run_scope.

(** [flow_error(maski, dP_net, use_gpu, device, omni)]: [None] is the bare
    [return] of the size check. *)
Definition flow_error (maski : ndarray Z) (dP_net : ndarray F) (omni : bool)
  : Run (option (list F * ndarray F)) :=
  if list_eq_dec Nat.eq_dec (tl (shape dP_net)) (shape maski) then
    let maski := unique_inverse maski in
    r <- bind (emit (Invoke St_masks_to_flows))
              (fun _ => lift_exn (masks_to_flows normalize_field edt format_labels
                                                 maski None omni 2)) ;;
    let dP_masks := snd r in
    let flow_errors :=
      fold_left (fun errs i =>
                   map (fun q => fadd (fst q) (nd_mean (sq_diff dP_masks dP_net i) maski (snd q)))
                       (combine errs (label_range maski)))
                (seq 0 (nth 0 (shape dP_masks) 0))
                (map (fun _ => fzero) (label_range maski)) in
    ret (Some (flow_errors, dP_masks))
  else
    emit (Info "ERROR: net flow is not same size as predicted masks") ;;;
    ret None.

(** [badi = 1+(merrors>threshold).nonzero()[0]]. *)
Definition bad_labels (merrors : list F) (threshold : F) : list Z :=
  map (fun q => (1 + Z.of_nat (fst q))%Z)
      (filter (fun q => flt threshold (snd q))
              (combine (seq 0 (length merrors)) merrors)).

(** [np.isin(x, badi)]. *)
Definition isin (x : Z) (badi : list Z) : bool := existsb (Z.eqb x) badi.

(** [masks[np.isin(masks, badi)] = 0]. *)
Definition zero_bad (masks : ndarray Z) (badi : list Z) : ndarray Z :=
  Array (shape masks) (fun i => if isin (item masks i) badi then 0%Z else item masks i).

(** [remove_bad_flow_masks(masks, flows, threshold, use_gpu, device, omni)]:
    [masks] is a reference into the store; unpacking the [None] of a failed
    size check raises [TypeError]. *)
Definition remove_bad_flow_masks (h : heap) (masks : addr) (flows : ndarray F)
  (threshold : F) (omni : bool) : Run (addr * heap) :=
  r <- flow_error (h masks) flows omni ;;
  match r with
  | None => raise TypeError
  | Some (merrors, _) =>
      let badi := bad_labels merrors threshold in
      ret (masks, heap_set h masks (zero_bad (h masks) badi))
  end.

Close Scope run_scope.

End ConsistencyFilter.

(* ================================================================== *)
(** * Section II (continued): the orchestrator *)
(* ================================================================== *)

Section Orchestrator.
Context {F : Type} `{Scalar F} `{Elementary F}.

Variable SKIMAGE_ENABLED : bool.
Variable SKLEARN_ENABLED : bool.
Variable TORCH_ENABLED : bool.

(** External collaborators of [compute_masks]. *)
Variable apply_hysteresis_threshold : ndarray F -> F -> F -> ndarray bool.
Variable grid_sample : ndarray F -> points F -> list (list F).
Variable normalize_field : list (list F) -> list (list F).
Variable edt : ndarray Z -> ndarray F.
Variable format_labels : ndarray Z -> ndarray Z.
Variable DBSCAN_fit : F -> nat -> points F -> list Z.
Variable kneighbors : nat -> points F -> points F -> exn + list (list nat).
Variable border_dilation : list nat -> nat -> ndarray bool.
Variable binary_opening : ndarray bool -> nat -> ndarray bool.
Variable measure_label : ndarray bool -> nat -> ndarray Z.
Variable scipy_label : ndarray bool -> ndarray Z.
(** [scipy.ndimage.zoom(mask, resize/np.array(mask.shape), order=0)] and
    [fastremap.renumber(mask, in_place=True)]. *)
Variable zoom : ndarray Z -> list nat -> ndarray Z.
Variable renumber : ndarray Z -> ndarray Z.

(** Stages of this module that the orchestrator only sequences:
    [div_rescale] (built on [utils.normalize_field], [utils.normalize99] and
    [np.gradient]), [get_masks_cp], [fill_holes_and_remove_small_masks], and
    the numba kernels. *)
Variable div_rescale : ndarray F -> ndarray bool -> ndarray F.
Variable get_masks_cp : ndarray F -> ndarray bool -> ndarray F -> bool -> ndarray Z.
Variable fill_holes_and_remove_small_masks : ndarray Z -> Z -> nat -> ndarray Z.
Variable steps2D : ndarray F -> ndarray F -> list index -> nat -> bool -> bool
                   -> ndarray F * option (list (points F)).
Variable steps3D : ndarray F -> ndarray F -> list index -> nat
                   -> ndarray F * option (list (points F)).

Open Scope run_scope.

(** The foreground map of [compute_masks]. *)
Definition threshold_mask (dist : ndarray F) (inds : option (list index))
  (mask_threshold : F) (omni verbose : bool) : Run (ndarray bool) :=
  if (omni || match inds with Some _ => true | None => false end) && SKIMAGE_ENABLED then
    when verbose (emit (Info "Using hysteresis threshold.")) ;;;
    call St_hysteresis
         (apply_hysteresis_threshold dist (fsub mask_threshold fone) mask_threshold)
  else ret (Array (shape dist) (fun i => flt mask_threshold (item dist i))).

(** [compute_masks(dP, dist, bd, p, inds, niter, mask_threshold,
    diam_threshold, flow_threshold, interp, cluster, do_3D, min_size, resize,
    omni, calc_trace, verbose, use_gpu, device, nclasses, dim)]. *)
Definition compute_masks (dP dist : ndarray F) (bd : option (ndarray F))
  (p : option (ndarray F)) (inds : option (list index)) (niter : Z)
  (mask_threshold diam_threshold : F) (flow_threshold : option F)
  (interp cluster do_3D : bool) (min_size : Z) (resize : option (list nat))
  (omni calc_trace verbose use_gpu : bool) (nclasses : Z) (dim : nat)
  : Run (ndarray Z * ndarray F * option (list (points F))) :=
  when verbose (emit (Info "mask_threshold is %f")) ;;;
  mask <- threshold_mask dist inds mask_threshold omni verbose ;;
  if any_b mask then
    dP_ <- (if omni && OMNI_INSTALLED then
              dP_ <- call St_div_rescale (div_rescale dP mask) ;;
              when (2 <? dim) (emit (Print "warning, div not times 3 for 3d")) ;;;
              ret dP_
            else ret (Array (shape dP)
                            (fun ci => fdiv (fmask (item dP ci) (item mask (tl ci)))
                                            (f_of_Z 5)))) ;;
    pit <- (match p with
            | None =>
                emit (Invoke St_follow_flows) ;;;
                follow_flows grid_sample TORCH_ENABLED steps2D steps3D dP_ (Some mask)
                             inds niter interp use_gpu omni calc_trace
            | Some p =>
                when verbose (emit (Info "p given")) ;;;
                ret (p, nonzero_b mask, Some [])
            end) ;;
    let '(p, inds, tr) := pit in
    mask <- (if omni && OMNI_INSTALLED then
               emit (Invoke St_get_masks) ;;;
               get_masks SKLEARN_ENABLED SKIMAGE_ENABLED edt DBSCAN_fit kneighbors
                         border_dilation binary_opening measure_label scipy_label
                         p bd dist mask inds nclasses cluster diam_threshold verbose
             else call St_get_masks_cp (get_masks_cp p mask dP use_gpu)) ;;
    mask <- (if negb do_3D then
               match flow_threshold with
               | Some thr =>
                   if (0 <? amax mask)%Z && flt fzero thr then
                     emit (Invoke St_remove_bad_flow_masks) ;;;
                     r <- remove_bad_flow_masks normalize_field edt format_labels
                                                (fun _ => mask) 0 dP thr omni ;;
                     u <- call St_unique (unique_inverse (snd r (fst r))) ;;
                     ret (Array (tl (shape p)) (item u))
                   else ret mask
               | None => ret mask
               end
             else ret mask) ;;
    mask <- (match resize with
             | Some rs =>
                 when verbose (emit (Info "resizing output with resize = {resize}")) ;;;
                 call St_zoom (zoom mask rs)
             | None => ret mask
             end) ;;
    mask <- call St_fill_holes (fill_holes_and_remove_small_masks mask min_size dim) ;;
    mask <- call St_renumber (renumber mask) ;;
    ret (mask, p, tr)
  else
    emit (Info "No cell pixels found.") ;;;
    ret (match resize with
         | Some rs => full rs 0%Z
         | None => full (shape dist) 0%Z
         end,
         full [2; 1; 1] fzero,
         Some []).

Close Scope run_scope.

End Orchestrator.

(** The instances of a label image: its distinct non-zero labels. *)
Definition instance_labels (m : ndarray Z) : list Z :=
  nodup Z.eq_dec (filter (fun l => negb (l =? 0)%Z) (ravel m)).

Definition n_instances (m : ndarray Z) : nat := length (instance_labels m).

(* ================================================================== *)
(** * Collaborators of the consistency filter, for the examples *)
(* ================================================================== *)

Section Collaborators.
Context {F : Type} `{Scalar F} `{Elementary F}.

(** Modelled from the spec: [utils.normalize_field] is not among the sources.
    The spec has the flow field "normalized so global finite-vector magnitude
    is in [0,1]; zero outside foreground" and the solver "normalize the vector
    field": every vector of positive magnitude is divided by its magnitude, and
    a vector of zero magnitude stays zero.  [mu] has one row per axis. *)
Definition normalize_unit (mu : list (list F)) : list (list F) :=
  let mag k := fsqrt (fsum (map (fun r => fsq (nth k r fzero)) mu)) in
  map (fun r => map (fun kv => if flt fzero (mag (fst kv))
                               then fdiv (snd kv) (mag (fst kv)) else fzero)
                    (combine (seq 0 (length r)) r))
      mu.

(** The distance transform of a label image whose instances are single
    pixels with no neighbour of the same label: 1 on the instances, 0 on the
    background (what [edt.edt] returns on such an image). *)
Definition unit_edt (m : ndarray Z) : ndarray F :=
  Array (shape m) (fun i => if (item m i =? 0)%Z then fzero else fone).

End Collaborators.

(** A potential field all of whose values are finite and not negative. *)
Definition field_finite_nonneg (T : ndarray xreal) : Prop :=
  forall i, finite_nonneg (item T i).

Definition is_zero (x : xreal) : Prop := x = Fin 0.

(** Whether no pixel of the label image has one of its face-order-1
    neighbours in the same instance. *)
Definition isolated_b (masks : ndarray Z) : bool :=
  forallb (fun c =>
             forallb (fun j => negb (nth j (isneighbor_of masks (ndim masks) c) false))
                     (nth 1 (stencil_inds (ndim masks)) []))
          (nonzero masks).

(** [flow_error]'s errors against a solver flow that is zero everywhere. *)
Definition errors_against_zero {F : Type} `{Scalar F} `{Elementary F}
  (maski : ndarray Z) (dP_net : ndarray F) (ncomp : nat) : list F :=
  fold_left (fun errs i =>
               map (fun q => fadd (fst q)
                               (nd_mean (sq_diff (full (ncomp :: shape maski) fzero) dP_net i)
                                        maski (snd q)))
                   (combine errs (label_range maski)))
            (seq 0 ncomp)
            (map (fun _ => fzero) (label_range maski)).

(* ================================================================== *)
(** * The update rule on real numbers *)
(* ================================================================== *)

(** The running sums of [update_torch] for a column of finite values, written
    on the reals: [sums_from s xs] continues a running sum [s];
    [rads_from phi s q k xs] continues the radicands from a running sum [s], a
    running sum of squares [q] and a running count [k]. *)
Fixpoint sums_from (s : R) (xs : list R) : list R :=
  match xs with
  | [] => []
  | x :: r => (s + x)%R :: sums_from (s + x)%R r
  end.

Fixpoint rads_from (phi s q k : R) (xs : list R) : list R :=
  match xs with
  | [] => []
  | x :: r =>
      let s' := (s + x)%R in
      let q' := (q + x * x)%R in
      let k' := (k + 1)%R in
      (s' * s' - k' * (q' - phi * phi))%R :: rads_from phi s' q' k' r
  end.

Definition nonneg_b (r : R) : bool := if Rle_dec 0 r then true else false.

(** [torch.count_nonzero(radicand >= 0)]. *)
Definition count_nonneg (rs : list R) : nat := length (filter nonneg_b rs).

(* ================================================================== *)
(** * Concrete inputs used in the examples *)
(* ================================================================== *)

Definition demo_labels : ndarray Z :=
  Array [2; 2] (fun i => if index_eqb i [0; 1]%Z then 1%Z else 0%Z).

(** One instance of two adjacent pixels, [(0,1)] and [(0,2)], in a 2 x 3
    image. *)
Definition pair_labels : ndarray Z :=
  Array [2; 3] (fun i => if index_eqb i [0; 1]%Z || index_eqb i [0; 2]%Z
                         then 1%Z else 0%Z).

Definition plain_threshold (img : ndarray xreal) (lo hi : xreal) : ndarray bool :=
  Array (shape img) (fun i => flt hi (item img i)).

Definition demo_mask : ndarray bool :=
  Array [3; 3] (fun i => index_eqb i [1; 1]%Z || index_eqb i [1; 2]%Z).

Definition demo_flow : ndarray Q :=
  Array [2; 3; 3] (fun ci => match ci with
                             | [0; _; _]%Z => 1 # 2
                             | _ => 0
                             end)%Q.

(** A mask of two pixels on a 3 x 4 image, and five seed pixels of that
    image given as rows of an [inds] array. *)
Definition pair_mask : ndarray bool :=
  Array [3; 4] (fun i => index_eqb i [1; 1]%Z || index_eqb i [1; 2]%Z).

Definition five_seeds : list index := [[0; 0]; [0; 1]; [0; 2]; [0; 3]; [1; 0]]%Z.


(** Three single-pixel instances labelled 1, 2 and 4 on a 3 x 7 image, and a
    network flow that is 5 along the first axis on the instances labelled 1
    and 4 and zero elsewhere. *)
Definition labels_124 : ndarray Z :=
  Array [3; 7] (fun i => if index_eqb i [1; 1]%Z then 1%Z
                         else if index_eqb i [1; 3]%Z then 2%Z
                         else if index_eqb i [1; 5]%Z then 4%Z else 0%Z).

Definition flows_124 : ndarray xreal :=
  Array [2; 3; 7] (fun ci => if index_eqb ci [0; 1; 1]%Z || index_eqb ci [0; 1; 5]%Z
                             then Fin 5 else Fin 0).

(** Two single-pixel instances labelled 2 and 4 (no instance labelled 1). *)
Definition labels_24 : ndarray Z :=
  Array [3; 7] (fun i => if index_eqb i [1; 3]%Z then 2%Z
                         else if index_eqb i [1; 5]%Z then 4%Z else 0%Z).

(** A flow on a 3 x 4 image for the examples: nothing along the first axis;
    along the second, 1 in the first column and 1/2 in the others. *)
Definition ramp_flow : ndarray Q :=
  Array [2; 3; 4]
        (fun i => if (nth 0%nat i 0 =? 1)%Z
                  then (if (nth 2%nat i 0 =? 0)%Z then 1%Q else (1 # 2)%Q)
                  else 0%Q).



(** ** DBSCAN, for the examples

    [sklearn.cluster.DBSCAN] as its documentation and [_dbscan_inner] describe
    it: a sample is a core sample when at least [min_samples] samples
    (itself included) lie within [eps]; clusters are grown from the core
    samples in scan order with a stack; samples reached from no core sample
    keep the label [-1]. *)
Definition sqdist (a b : list Q) : Q :=
  fold_right Qplus 0%Q (map (fun q => ((fst q - snd q) * (fst q - snd q))%Q) (combine a b)).

Definition eps_neighbors (eps : Q) (X : points Q) : list (list nat) :=
  map (fun x => filter (fun j => Qle_bool (sqdist x (nth j X [])) (eps * eps))
                       (seq 0 (length X)))
      X.

Definition set_nth {A} (l : list A) (i : nat) (v : A) : list A :=
  (firstn i l ++ v :: skipn (S i) l)%list.

Fixpoint dbscan_expand (fuel : nat) (neighb : list (list nat)) (core : list bool)
  (label_num : Z) (i : nat) (stack : list nat) (labels : list Z) : list Z :=
  match fuel with
  | O => labels
  | S fuel' =>
      let '(labels, stack) :=
        if (nth i labels 0 =? -1)%Z then
          let labels := set_nth labels i label_num in
          if nth i core false then
            (labels,
             fold_left (fun st v => if (nth v labels 0 =? -1)%Z then v :: st else st)
                       (nth i neighb []) stack)
          else (labels, stack)
        else (labels, stack) in
      match stack with
      | [] => labels
      | j :: stack' => dbscan_expand fuel' neighb core label_num j stack' labels
      end
  end.

Definition dbscan (eps : Q) (min_samples : nat) (X : points Q) : list Z :=
  let n := length X in
  let neighb := eps_neighbors eps X in
  let core := map (fun N => min_samples <=? length N) neighb in
  fst (fold_left
         (fun st i =>
            let '(labels, label_num) := st in
            if negb (nth i labels 0 =? -1)%Z || negb (nth i core false) then st
            else (dbscan_expand (S (n * n)) neighb core label_num i [] labels,
                  (label_num + 1)%Z))
         (seq 0 n) (map (fun _ => (-1)%Z) X, 0%Z)).

(** Four foreground pixels on a 3 x 6 image, three in a row and one apart;
    the points are where the pixels are (no displacement). *)
Definition cluster_mask : ndarray bool :=
  Array [3; 6] (fun i => index_eqb i [1; 0]%Z || index_eqb i [1; 1]%Z
                         || index_eqb i [1; 2]%Z || index_eqb i [1; 5]%Z).

Definition cluster_points : ndarray Q := meshgrid 2 [3; 6].

Definition cluster_dist : ndarray Q := full [3; 6] 1%Q.

(** ** The seed of the point-source mode, as the claim words it *)

(** The pixel of the instance nearest (first in scan order among the nearest)
    to the point whose coordinate along each axis is the median of the
    instance's coordinates along that axis. *)
Definition sq_to_median (coords : list index) (d : nat) (c : index) : Q :=
  fold_right Qplus 0%Q
    (map (fun ax => let med := median (map (fun i => nth ax i 0%Z) coords) in
                    ((inject_Z (nth ax c 0%Z) - med) * (inject_Z (nth ax c 0%Z) - med))%Q)
         (seq 0 d)).

Definition nearest_to_median (masks : ndarray Z) (l : Z) : index :=
  let coords := label_coords masks l in
  nth (argmin (map (sq_to_median coords (ndim masks)) coords)) coords [].

(** A ring: the eight pixels around the centre of a 3 x 3 image. *)
Definition ring : ndarray Z :=
  Array [3; 3] (fun i => if index_eqb i [1; 1]%Z then 0%Z else 1%Z).

(* ================================================================== *)
(** * Further functions of the module *)
(* ================================================================== *)

Section SmoothDistance.
Context {F : Type} `{Scalar F} `{Elementary F}.
Variable edt : ndarray Z -> ndarray F.

(** [smooth_distance(masks, dists, device)]: the Eikonal relaxation alone,
    on the zero-padded label image, for [get_niter(dists)] passes. *)
Definition smooth_distance (masks : ndarray Z) (dists : option (ndarray F))
  : ndarray F :=
  let dists := match dists with Some d => d | None => edt masks end in
  let pad_ := 1 in
  let masks_padded := pad 0%Z pad_ masks in
  let n_iter := get_niter dists in
  let T := Nat.iter (Z.to_nat n_iter) (eikonal_step masks_padded)
                    (full (shape masks_padded) fzero) in
  unpad pad_ T.

End SmoothDistance.

Module Kernels.
Section Steps3D.
Context {F : Type} `{Scalar F}.

(** The body of the inner loop of [steps3D] for the pixel [i = (z,y,x)]:
    the flow is read at the truncated current position [(p0,p1,p2)], and each
    coordinate is moved and clamped to [0, shape[k]-1]. *)
Definition steps3D_pixel (dP : ndarray F) (p : ndarray F) (i : index) : ndarray F :=
  let shp := tl (shape p) in
  let pos := map (fun k => ftrunc (item p (Z.of_nat k :: i))) (seq 0 3) in
  fold_left
    (fun p k =>
       set_item p (Z.of_nat k :: i)
                (fmin (fsub (f_of_Z (Z.of_nat (nth k shp 0))) fone)
                      (fmax fzero (fadd (item p (Z.of_nat k :: i))
                                        (item dP (Z.of_nat k :: pos))))))
    (seq 0 3) p.

(** [steps3D(p, dP, inds, niter)]. *)
Definition steps3D (p dP : ndarray F) (inds : list index) (niter : nat)
  : ndarray F * option (list (points F)) :=
  (Nat.iter niter (fun p => fold_left (steps3D_pixel dP) inds p) p, None).

End Steps3D.
End Kernels.

(* ================================================================== *)
(** * Vocabulary of the further properties *)
(* ================================================================== *)

(** The positions, counted from [s], of the elements of a list that satisfy
    [P] (what [np.where(...)[0]] returns). *)
Definition positions_from {A} (s : nat) (P : A -> bool) (l : list A) : list nat :=
  map fst (filter (fun p => P (snd p)) (combine (seq s (length l)) l)).

(** The offset [v] along axis [i] of a [d]-dimensional grid. *)
Definition axis_offset (d i : nat) (v : Z) : index :=
  (repeat 0%Z i ++ v :: repeat 0%Z (d - S i))%list.

(** Every neighbour of every foreground pixel is an index of the array: the
    label images on which neither [masks[tuple(neighbors)]] raises
    [IndexError] nor a negative index reads the far side of an axis. *)
Definition stencil_in_range (masks : ndarray Z) : bool :=
  forallb (fun c => forallb (in_bounds (shape masks)) (neighbors_of (ndim masks) c))
          (nonzero masks).

Section CentralDifference.
Context {F : Type} `{Scalar F}.

(** The potential at [q] as the pixel [c] sees it: kept if [q] carries the
    label of [c], zero otherwise. *)
Definition masked_value (T : ndarray F) (masks : ndarray Z) (c q : index) : F :=
  fmask (item T q) (item masks q =? item masks c)%Z.

(** Half the difference of the masked potentials one step forward and one
    step back along axis [i]. *)
Definition central_difference (T : ndarray F) (masks : ndarray Z) (i : nat)
  (c : index) : F :=
  fdiv (fsub (masked_value T masks c (add_index c (axis_offset (ndim masks) i 1)))
             (masked_value T masks c (add_index c (axis_offset (ndim masks) i (-1)))))
       (f_of_Z 2).

End CentralDifference.

Definition Rsum (l : list R) : R := fold_right Rplus 0%R l.

(** The value of [update_torch] on a finite column, as a real number
    (0 for a column that is not finite). *)
Definition update_value (a : list R) (f : R) : R :=
  match update_col (map Fin a) (Fin f) with
  | Fin u => u
  | NotFinite => 0%R
  end.

(** A model over the rationals of
    [NearestNeighbors(n_neighbors=k).fit(X).kneighbors(Y)[1]], from sklearn's
    documented behaviour: [ValueError] when [k] exceeds the number of
    samples; otherwise, for each query, the positions of its [k] nearest
    samples by Euclidean distance, nearest first (of two samples at the same
    distance, the one of lower position first). *)
Fixpoint insert_by (key : nat -> Q) (i : nat) (l : list nat) : list nat :=
  match l with
  | [] => [i]
  | j :: r => if Qle_bool (key i) (key j) then i :: l else j :: insert_by key i r
  end.

Definition nearest_neighbors (k : nat) (X Y : points Q) : exn + list (list nat) :=
  if length X <? k then inl ValueError
  else inr (map (fun y => firstn k (fold_right (insert_by (fun j => sqdist y (nth j X [])))
                                               [] (seq 0 (length X))))
                Y).

(** Fifty-two points: two rows of twenty-five, ten apart, and two points
    between the rows, one nearer to each. *)
Definition two_rows : points Q :=
  (map (fun j => [0%Q; inject_Z (Z.of_nat j)]) (seq 0 25)
   ++ map (fun j => [10%Q; inject_Z (Z.of_nat j)]) (seq 0 25)
   ++ [[3%Q; 0%Q]; [8%Q; 24%Q]])%list.

(** An image of two channels on a 2 x 3 grid. *)
Definition grid_image : ndarray Q :=
  Array [2; 2; 3]
        (fun i => inject_Z (7 * nth 0 i 0 + 3 * nth 1 i 0 + nth 2 i 0)%Z).

(** Five seed pixels on a line of six. *)
Definition line_seeds : list index := [[0]; [1]; [2]; [3]; [4]]%Z.

(** A computation that never calls the stage [s]. *)
Definition quiet {A} (s : stage) (m : Run A) : Prop :=
  ~ In s (invokes (events m)).

(** A run that, when it returns, either reported that there is no
    foreground or called hole filling and then renumbering as its last two
    stages. *)
Definition ends_with_cleanup {A} (m : Run A) : Prop :=
  forall res, outcome m = inr res ->
    In (Info "No cell pixels found.") (events m)
    \/ exists l, invokes (events m) = (l ++ [St_fill_holes; St_renumber])%list.
(* ================================================================== *)
(** * Properties *)
(* ================================================================== *)

Unset Implicit Arguments.

(** ** The effect monad *)

Lemma bind_ret_l {A B} (x : A) (f : A -> Run B) : bind (ret x) f = f x.
Proof. unfold bind, ret. destruct (f x) as [r l]. reflexivity. Qed.

Lemma bind_emit {B} (e : event) (k : unit -> Run B) :
  bind (emit e) k = (fst (k tt), e :: snd (k tt)).
Proof. unfold bind, emit. destruct (k tt) as [r l]. reflexivity. Qed.

Lemma when_false (m : Run unit) : when false m = ret tt.
Proof. reflexivity. Qed.

Lemma invokes_app (l1 l2 : list event) :
  invokes (l1 ++ l2) = (invokes l1 ++ invokes l2)%list.
Proof. unfold invokes. apply flat_map_app. Qed.

(** ** Arrays *)

Lemma existsb_false_filter {A} (f : A -> bool) (l : list A) :
  existsb f l = false -> filter f l = [].
Proof.
  induction l as [|x l IH]; simpl; intros Hx; [reflexivity|].
  apply orb_false_iff in Hx. destruct Hx as [Hfx Hl].
  rewrite Hfx. auto.
Qed.

Lemma index_eqb_eq (i j : index) : index_eqb i j = true <-> i = j.
Proof.
  revert j. induction i as [|a i IH]; destruct j as [|b j]; simpl;
    try (split; [discriminate|congruence]); try tauto.
  rewrite andb_true_iff, Z.eqb_eq, IH. split.
  - intros [-> ->]. reflexivity.
  - intros E. inversion E. auto.
Qed.

Lemma index_eqb_refl (i : index) : index_eqb i i = true.
Proof. apply index_eqb_eq. reflexivity. Qed.

Lemma index_eqb_neq (i j : index) : i <> j -> index_eqb i j = false.
Proof.
  intros Hn. destruct (index_eqb i j) eqn:E; [|reflexivity].
  apply index_eqb_eq in E. contradiction.
Qed.

Lemma shape_scatter {A} (idx : list index) : forall (vals : list A) (a : ndarray A),
  shape (scatter a idx vals) = shape a.
Proof.
  induction idx as [|i idx IH]; intros [|v vals] a; simpl; try reflexivity.
  rewrite IH. reflexivity.
Qed.

(** An assignment through an index list leaves every other cell alone. *)
Lemma item_scatter_out {A} (idx : list index) : forall (vals : list A) (a : ndarray A) j,
  ~ In j idx -> item (scatter a idx vals) j = item a j.
Proof.
  induction idx as [|i idx IH]; intros [|v vals] a j Hj; simpl; try reflexivity.
  rewrite IH by (intros Hin; apply Hj; right; exact Hin).
  simpl. rewrite index_eqb_neq; [reflexivity|].
  intros ->. apply Hj. left. reflexivity.
Qed.

(** A cell the assignment reaches holds one of the assigned values. *)
Lemma item_scatter_in {A} (idx : list index) : forall (vals : list A) (a : ndarray A) j,
  item (scatter a idx vals) j = item a j \/ In (item (scatter a idx vals) j) vals.
Proof.
  induction idx as [|i idx IH]; intros [|v vals] a j; simpl; auto.
  destruct (IH vals (set_item a i v) j) as [E|Hin].
  - rewrite E. simpl. destruct (index_eqb j i); auto.
  - auto.
Qed.

(** ** The field solver writes only on the foreground *)

Section FlowSupport.
Context {F : Type} `{Scalar F} `{Elementary F}.
Variable normalize_field : list (list F) -> list (list F).

Lemma nonzero_spec (masks : ndarray Z) (i : index) :
  In i (nonzero masks) <-> In i (ndindex (shape masks)) /\ item masks i <> 0%Z.
Proof.
  unfold nonzero. rewrite filter_In, negb_true_iff, Z.eqb_neq. tauto.
Qed.

Lemma background_not_nonzero (masks : ndarray Z) (i : index) :
  item masks i = 0%Z -> ~ In i (nonzero masks).
Proof. intros Hz Hin. apply nonzero_spec in Hin. tauto. Qed.

Lemma item_scatter_rows_out (coords : list index) (i : index) (c : Z) :
  ~ In i coords ->
  forall (rows : list (nat * list F)) (mu0 : ndarray F),
    item (fold_left (fun acc cr => scatter acc (map (cons (Z.of_nat (fst cr))) coords) (snd cr))
                    rows mu0) (c :: i)
    = item mu0 (c :: i).
Proof.
  intros Hi rows. induction rows as [|[k row] rows IH]; intros mu0; simpl; [reflexivity|].
  rewrite IH. apply item_scatter_out.
  intros Hin. apply in_map_iff in Hin. destruct Hin as [j [E Hj]].
  inversion E; subst. contradiction.
Qed.

(** With [omni] the solver returns, unless the image has a single
    foreground pixel. *)
Lemma masks_to_flows_torch_omni_returns (masks : ndarray Z) (dists : ndarray F) :
  single_point masks = false ->
  exists r, masks_to_flows_torch normalize_field masks dists true = Some r.
Proof.
  intros Hsp.
  unfold masks_to_flows_torch. destruct (any masks); [|eexists; reflexivity].
  rewrite Hsp.
  cbv zeta. destruct (_extend_centers_torch _ _ _ _) as [mu T]. eexists. reflexivity.
Qed.

Lemma masks_to_flows_torch_background (masks : ndarray Z) (dists : ndarray F)
  (omni : bool) (r : ndarray F * ndarray F) :
  masks_to_flows_torch normalize_field masks dists omni = Some r ->
  forall c i, item masks i = 0%Z -> item (fst r) (c :: i) = fzero.
Proof.
  unfold masks_to_flows_torch. intros Hr c i Hz.
  destruct (any masks).
  - destruct (single_point masks); [discriminate|].
    cbv zeta in Hr.
    destruct (if omni then _ else _) as [[centers n_iter]|]; [|discriminate].
    destruct (_extend_centers_torch _ _ _ _) as [mu T].
    inversion Hr; subst r; clear Hr. simpl fst.
    unfold scatter_rows. rewrite item_scatter_rows_out.
    + reflexivity.
    + apply background_not_nonzero. exact Hz.
  - inversion Hr; subst r. reflexivity.
Qed.

End FlowSupport.

Lemma reflect_coord_inside (n : nat) (j : Z) :
  (0 <= j < Z.of_nat n)%Z -> reflect_coord n j = j.
Proof.
  intros Hj. unfold reflect_coord.
  destruct (n <=? 1) eqn:En.
  - apply Nat.leb_le in En. lia.
  - apply Nat.leb_gt in En.
    rewrite Z.mod_small by lia.
    destruct (j <? Z.of_nat n)%Z eqn:E; [reflexivity|].
    apply Z.ltb_ge in E. lia.
Qed.

(** The multi-indices of a shape are exactly the in-range ones. *)
Lemma ndindex_in_range (shp : list nat) : forall i,
  In i (ndindex shp) ->
  Forall2 (fun n k => (0 <= k < Z.of_nat n)%Z) shp i.
Proof.
  induction shp as [|n shp IH]; simpl; intros i Hi.
  - destruct Hi as [<-|[]]. constructor.
  - apply in_flat_map in Hi. destruct Hi as [k [Hk Hi]].
    apply in_map_iff in Hi. destruct Hi as [i' [<- Hi']].
    apply in_seq in Hk. constructor; [lia|auto].
Qed.

Lemma shift_shift (p q : Z) (i : index) :
  shift p (shift q i) = map (fun c => (c + (q + p))%Z) i.
Proof.
  unfold shift. rewrite map_map. apply map_ext. intros c. lia.
Qed.

Lemma shift_back (p : nat) (i : index) :
  shift (- Z.of_nat p) (shift (Z.of_nat p) i) = i.
Proof.
  rewrite shift_shift. rewrite <- (map_id i) at 2.
  apply map_ext. intros c. lia.
Qed.

Lemma reflect_in_range (shp : list nat) (i : index) :
  Forall2 (fun n k => (0 <= k < Z.of_nat n)%Z) shp i ->
  map (fun q => reflect_coord (fst q) (snd q)) (combine shp i) = i.
Proof.
  induction 1 as [|n k shp i Hk _ IH]; simpl; [reflexivity|].
  rewrite reflect_coord_inside by exact Hk. rewrite IH. reflexivity.
Qed.

(** Reflect padding keeps the original array in the middle. *)
Lemma pad_reflect_center {A} (p : nat) (a : ndarray A) (i : index) :
  In i (ndindex (shape a)) ->
  item (pad_reflect p a) (shift (Z.of_nat p) i) = item a i.
Proof.
  intros Hi. unfold pad_reflect. simpl.
  rewrite shift_back, reflect_in_range; [reflexivity|].
  apply ndindex_in_range. exact Hi.
Qed.

Lemma sequence_exn_length {A} (l : list (exn + A)) : forall ps,
  sequence_exn l = inr ps -> length ps = length l.
Proof.
  induction l as [|[e|x] l IH]; simpl; intros ps Hs; try discriminate.
  - inversion Hs. reflexivity.
  - destruct (sequence_exn l) as [e|r]; [discriminate|].
    inversion Hs; subst. simpl. f_equal. apply IH. reflexivity.
Qed.

Lemma sequence_exn_map_seq {B} (f : nat -> exn + B) (n : nat) :
  forall s ps k d,
    sequence_exn (map f (seq s n)) = inr ps -> k < n ->
    f (s + k) = inr (nth k ps d).
Proof.
  induction n as [|n IH]; intros s ps k d Hs Hk; [lia|].
  simpl in Hs. destruct (f s) as [e|x] eqn:Ef; [discriminate|].
  destruct (sequence_exn (map f (seq (S s) n))) as [e|r] eqn:Er; [discriminate|].
  inversion Hs; subst ps. destruct k as [|k]; simpl.
  - rewrite Nat.add_0_r. exact Ef.
  - rewrite <- Nat.add_succ_comm. apply IH; [exact Er|lia].
Qed.

Section FlowSupportPlanes.
Context {F : Type} `{Scalar F} `{Elementary F}.
Variable normalize_field : list (list F) -> list (list F).
Hypothesis fadd_zero : fadd fzero fzero = fzero.

(** The flow of one plane of a stack, looked up in the list of the planes'
    results, vanishes where the plane has no label. *)
Lemma plane_background (masks : ndarray Z) (dists : ndarray F) (omni : bool)
  (ax n : nat) (ps : list (ndarray F * ndarray F)) (k c : Z) (j : index) :
  sequence_exn
    (map (fun k => solver_exn (slice_axis ax (Z.of_nat k) masks) omni
                     (masks_to_flows_torch normalize_field
                        (slice_axis ax (Z.of_nat k) masks)
                        (slice_axis ax (Z.of_nat k) dists) omni)) (seq 0 n)) = inr ps ->
  (0 <= k)%Z ->
  item (slice_axis ax k masks) j = 0%Z ->
  item (fst (nth (Z.to_nat k) ps (full [] fzero, full [] fzero))) (c :: j) = fzero.
Proof.
  intros Hs Hk Hz.
  destruct (Nat.lt_ge_cases (Z.to_nat k) n) as [Hlt|Hge].
  - pose proof (sequence_exn_map_seq _ n 0 ps (Z.to_nat k)
                  (full [] fzero, full [] fzero) Hs Hlt) as Hn.
    cbv beta in Hn. rewrite Nat.add_0_l, Z2Nat.id in Hn by exact Hk.
    unfold solver_exn in Hn.
    destruct (masks_to_flows_torch _ _ _ _) as [r|] eqn:Er; [|discriminate].
    inversion Hn as [Hr]. rewrite <- Hr.
    eapply masks_to_flows_torch_background; eauto.
  - rewrite nth_overflow; [reflexivity|].
    rewrite (sequence_exn_length _ _ Hs), length_map, length_seq. exact Hge.
Qed.

Variable edt : ndarray Z -> ndarray F.
Variable format_labels : ndarray Z -> ndarray Z.

Lemma flows_by_planes_background (masks : ndarray Z) (dists : ndarray F)
  (omni : bool) (mu : ndarray F) :
  flows_by_planes normalize_field masks dists omni = inr mu ->
  forall c i, In i (ndindex (shape masks)) -> item masks i = 0%Z ->
              item mu (c :: i) = fzero.
Proof.
  unfold flows_by_planes. intros Hmu c i Hi Hz.
  destruct (sequence_exn (map _ (seq 0 (nth 0 (shape masks) 0)))) as [e|pz] eqn:Ez;
    [discriminate|].
  destruct (sequence_exn (map _ (seq 0 (nth 1 (shape masks) 0)))) as [e|py] eqn:Ey;
    [discriminate|].
  destruct (sequence_exn (map _ (seq 0 (nth 2 (shape masks) 0)))) as [e|px] eqn:Ex;
    [discriminate|].
  inversion Hmu; subst mu; clear Hmu. simpl.
  destruct i as [|z [|y [|x [|w i]]]]; try reflexivity.
  apply ndindex_in_range in Hi.
  inversion Hi as [|n0 z' s0 i0 Hz0 Hi0]; subst.
  inversion Hi0 as [|n1 y' s1 i1 Hy0 Hi1]; subst.
  inversion Hi1 as [|n2 x' s2 i2 Hx0 Hi2]; subst.
  assert (Ez' : forall c', item (fst (nth (Z.to_nat z) pz (full [] fzero, full [] fzero)))
                                [c'; y; x] = fzero).
  { intros c'. eapply plane_background; [exact Ez|lia|exact Hz]. }
  assert (Ey' : forall c', item (fst (nth (Z.to_nat y) py (full [] fzero, full [] fzero)))
                                [c'; z; x] = fzero).
  { intros c'. eapply plane_background; [exact Ey|lia|exact Hz]. }
  assert (Ex' : forall c', item (fst (nth (Z.to_nat x) px (full [] fzero, full [] fzero)))
                                [c'; z; y] = fzero).
  { intros c'. eapply plane_background; [exact Ex|lia|exact Hz]. }
  rewrite !Ez', !Ey', !Ex'.
  destruct (c =? 1)%Z, (c =? 2)%Z, (c =? 0)%Z; rewrite ?fadd_zero; reflexivity.
Qed.

(** C2. For every label image, the flow field the field solver returns is
    zero in every component at every pixel whose label is 0.  This holds for
    the solver proper, [masks_to_flows_torch], at every index, and for the
    entry point [masks_to_flows] (the stack-of-planes branch, the reflect-padded
    omni branch and the plain branch) at every pixel of the label image it
    returns with the flow. *)
Theorem flow_zero_outside_foreground :
  (forall masks dists omni r,
      masks_to_flows_torch normalize_field masks dists omni = Some r ->
      forall c i, item masks i = 0%Z -> item (fst r) (c :: i) = fzero)
  /\ (forall masks dists omni dim masks' dists' T mu,
      masks_to_flows normalize_field edt format_labels masks dists omni dim
        = inr (masks', dists', T, mu) ->
      forall c i, In i (ndindex (shape masks')) -> item masks' i = 0%Z ->
                  item mu (c :: i) = fzero).
Proof.
  split.
  - intros masks dists omni r Hr c i Hz.
    eapply masks_to_flows_torch_background; eauto.
  - intros masks dists omni dim masks' dists' T mu Hr c i Hi Hz.
    unfold masks_to_flows in Hr.
    destruct (match dists with
              | Some d => (masks, d)
              | None => (format_labels masks, edt (format_labels masks))
              end) as [m d] eqn:Emd.
    destruct ((ndim m =? 3) && (dim =? 2)).
    + destruct (flows_by_planes normalize_field m d omni) as [e|mu1] eqn:Ep; [discriminate|].
      inversion Hr; subst. eapply flows_by_planes_background; eauto.
    + destruct (omni && OMNI_INSTALLED).
      * destruct (int_diameters edt m) as [e|pad_]; [discriminate|].
        destruct (masks_to_flows_torch normalize_field (pad_reflect pad_ m)
                    (pad_reflect pad_ d) omni) as [[mu1 T1]|] eqn:Es; [|discriminate].
        simpl in Hr. inversion Hr; subst. simpl.
        change mu1 with (fst (mu1, T1)).
        eapply masks_to_flows_torch_background; [exact Es|].
        rewrite pad_reflect_center by exact Hi. exact Hz.
      * destruct (masks_to_flows_torch normalize_field m d omni) as [[mu1 T1]|] eqn:Es;
          [|discriminate].
        simpl in Hr. inversion Hr; subst.
        change mu with (fst (mu, T1)).
        eapply masks_to_flows_torch_background; eauto.
Qed.

End FlowSupportPlanes.

Lemma flow_zero_outside_foreground_witness :
  @fadd xreal _ fzero fzero = fzero
  /\ exists r,
      masks_to_flows_torch normalize_unit pair_labels (unit_edt pair_labels) true
      = Some r
      /\ item pair_labels [1; 2]%Z = 0%Z
      /\ item (fst r) [1; 1; 2]%Z = fzero.
Proof.
  assert (Hz : @fadd xreal _ fzero fzero = fzero).
  { simpl. f_equal. apply Rplus_0_l. }
  split; [exact Hz|].
  assert (Hsp : single_point pair_labels = false) by reflexivity.
  destruct (masks_to_flows_torch_omni_returns (normalize_unit (F := xreal))
              pair_labels (unit_edt pair_labels) Hsp) as [r Hr].
  exists r. split; [exact Hr|]. split; [reflexivity|].
  exact (proj1 (flow_zero_outside_foreground normalize_unit Hz unit_edt (fun m => m))
               pair_labels (unit_edt pair_labels) true r Hr 1%Z [1; 2]%Z eq_refl).
Defined.

(** ** The flow advector *)

Section AdvectorProps.
Context {F : Type} `{Scalar F}.
Variable grid_sample : ndarray F -> points F -> list (list F).
Variable TORCH_ENABLED : bool.
Variable steps2D : ndarray F -> ndarray F -> list index -> nat -> bool -> bool
                   -> ndarray F * option (list (points F)).
Variable steps3D : ndarray F -> ndarray F -> list index -> nat
                   -> ndarray F * option (list (points F)).

(** With a mask and no [inds], the omni seeds are the pixels of the mask. *)
Lemma seed_inds_mask (dP : ndarray F) (m : ndarray bool) :
  seed_inds dP (Some m) None true = nonzero_b m.
Proof. reflexivity. Qed.

(** The initial point set: every pixel at its own integer coordinates. *)
Lemma meshgrid_item (d : nat) (shp : list nat) (c : nat) (i : index) :
  item (meshgrid (F := F) d shp) (Z.of_nat c :: i) = f_of_Z (nth c i 0%Z).
Proof. simpl. rewrite Nat2Z.id. reflexivity. Qed.

(** C9, amended.  What decides is the seed array, not the mask: the caller's
    [inds] when given; else the pixels of the mask, for an omni call with a
    mask; else the pixels where the first flow component exceeds 1e-3 in
    magnitude.  When that array has fewer than 5 rows, [follow_flows] warns
    and returns at once: the point set has the shape [(d,) + shape] and holds
    at [(c, i)] the integer coordinate [i[c]] of the pixel [i], at the seed
    pixels as everywhere else; the seed array is returned with it, the
    trajectory is [None], and none of the three steppers is called. *)
Theorem follow_flows_few_pixels (dP : ndarray F) (mask : option (ndarray bool))
  (inds : option (list index)) (niter : Z) (interp use_gpu omni calc_trace : bool) :
  length (seed_inds dP mask inds omni) < 5 ->
  let r := follow_flows grid_sample TORCH_ENABLED steps2D steps3D
                        dP mask inds niter interp use_gpu omni calc_trace in
  (exists p,
      outcome r = inr (p, seed_inds dP mask inds omni, None)
      /\ p = meshgrid (nth 0 (shape dP) 0) (tl (shape dP))
      /\ shape p = nth 0 (shape dP) 0 :: tl (shape dP)
      /\ (forall (c : nat) (i : index), item p (Z.of_nat c :: i) = f_of_Z (nth c i 0%Z)))
  /\ events r = [Warning "WARNING: no mask pixels found"]
  /\ invokes (events r) = []
  /\ (forall m, mask = Some m -> inds = None -> omni = true ->
                seed_inds dP mask inds omni = nonzero_b m)
  /\ (forall i, inds = Some i -> seed_inds dP mask inds omni = i)
  /\ (inds = None -> omni = false \/ mask = None ->
      seed_inds dP mask inds omni
      = nonzero_b (Array (tl (shape dP))
                         (fun i => let x := item dP (0%Z :: i) in
                                   let eps := fdiv (f_of_Z 1) (f_of_Z 1000) in
                                   flt eps x || flt x (fsub fzero eps)))).
Proof.
  intros Hlt r. subst r. unfold follow_flows.
  apply Nat.ltb_lt in Hlt. rewrite Hlt.
  split.
  { eexists. split; [reflexivity|]. split; [reflexivity|]. split; [reflexivity|].
    intros c i. apply meshgrid_item. }
  split; [reflexivity|]. split; [reflexivity|].
  split; [intros m -> -> ->; reflexivity|].
  split; [intros i ->; reflexivity|].
  intros -> [-> | ->]; [destruct mask|destruct omni]; reflexivity.
Qed.

End AdvectorProps.

(** ** The orchestrator *)

Section OrchestratorProps.
Context {F : Type} `{Scalar F} `{Elementary F}.
Variable SKIMAGE_ENABLED SKLEARN_ENABLED TORCH_ENABLED : bool.
Variable apply_hysteresis_threshold : ndarray F -> F -> F -> ndarray bool.
Variable grid_sample : ndarray F -> points F -> list (list F).
Variable normalize_field : list (list F) -> list (list F).
Variable edt : ndarray Z -> ndarray F.
Variable format_labels : ndarray Z -> ndarray Z.
Variable DBSCAN_fit : F -> nat -> points F -> list Z.
Variable kneighbors : nat -> points F -> points F -> exn + list (list nat).
Variable border_dilation : list nat -> nat -> ndarray bool.
Variable binary_opening : ndarray bool -> nat -> ndarray bool.
Variable measure_label : ndarray bool -> nat -> ndarray Z.
Variable scipy_label : ndarray bool -> ndarray Z.
Variable zoom : ndarray Z -> list nat -> ndarray Z.
Variable renumber : ndarray Z -> ndarray Z.
Variable div_rescale : ndarray F -> ndarray bool -> ndarray F.
Variable get_masks_cp : ndarray F -> ndarray bool -> ndarray F -> bool -> ndarray Z.
Variable fill_holes_and_remove_small_masks : ndarray Z -> Z -> nat -> ndarray Z.
Variable steps2D : ndarray F -> ndarray F -> list index -> nat -> bool -> bool
                   -> ndarray F * option (list (points F)).
Variable steps3D : ndarray F -> ndarray F -> list index -> nat
                   -> ndarray F * option (list (points F)).

(** What the orchestrator needs of [skimage.filters.apply_hysteresis_threshold]:
    a pixel is kept only in a component that holds a pixel above the high
    threshold, so an image without such a pixel gives an empty map. *)
Hypothesis hysteresis_needs_high : forall img lo hi,
  any_b (apply_hysteresis_threshold img lo hi) = true ->
  exists j, In j (ndindex (shape img)) /\ flt hi (item img j) = true.

Lemma threshold_mask_empty (dist : ndarray F) (inds : option (list index))
  (mask_threshold : F) (omni verbose : bool) :
  (forall i, In i (ndindex (shape dist)) -> flt mask_threshold (item dist i) = false) ->
  exists mask l,
    threshold_mask SKIMAGE_ENABLED apply_hysteresis_threshold
                   dist inds mask_threshold omni verbose = (inr mask, l)
    /\ any_b mask = false
    /\ (forall s, In s (invokes l) -> s = St_hysteresis).
Proof.
  intros Hno. unfold threshold_mask.
  destruct ((omni || match inds with Some _ => true | None => false end) && SKIMAGE_ENABLED).
  - exists (apply_hysteresis_threshold dist (fsub mask_threshold fone) mask_threshold).
    assert (Hany : any_b (apply_hysteresis_threshold dist (fsub mask_threshold fone)
                                                     mask_threshold) = false).
    { destruct (any_b _) eqn:E; [|reflexivity].
      apply hysteresis_needs_high in E. destruct E as [j [Hj Hf]].
      rewrite (Hno j Hj) in Hf. discriminate. }
    destruct verbose; simpl; eexists; (split; [reflexivity|split; [exact Hany|]]);
      simpl; intros s [<-|[]]; reflexivity.
  - eexists. exists []. split; [reflexivity|]. split.
    + unfold any_b. simpl. apply not_true_is_false. intros E.
      apply existsb_exists in E. destruct E as [i [Hi Hf]].
      rewrite (Hno i Hi) in Hf. discriminate.
    + simpl. intros s [].
Qed.

(** C3. When no pixel passes the foreground threshold, [compute_masks]
    returns an all-zero label image of the requested shape ([resize] if
    given, else the shape of [dist]), the placeholder point array
    [np.zeros([2,1,1])] and an empty trajectory; it logs that no cell pixel
    was found, and calls none of the advection, reconstruction, filtering,
    resizing or cleanup stages (the only stage it may have called is the
    hysteresis thresholding that produced the empty foreground). *)
Theorem compute_masks_no_foreground (dP dist : ndarray F) (bd : option (ndarray F))
  (p : option (ndarray F)) (inds : option (list index)) (niter : Z)
  (mask_threshold diam_threshold : F) (flow_threshold : option F)
  (interp cluster do_3D : bool) (min_size : Z) (resize : option (list nat))
  (omni calc_trace verbose use_gpu : bool) (nclasses : Z) (dim : nat) :
  (forall i, In i (ndindex (shape dist)) -> flt mask_threshold (item dist i) = false) ->
  let r := compute_masks SKIMAGE_ENABLED SKLEARN_ENABLED TORCH_ENABLED
             apply_hysteresis_threshold grid_sample normalize_field edt format_labels
             DBSCAN_fit kneighbors border_dilation binary_opening measure_label
             scipy_label zoom renumber div_rescale get_masks_cp
             fill_holes_and_remove_small_masks steps2D steps3D
             dP dist bd p inds niter mask_threshold diam_threshold flow_threshold
             interp cluster do_3D min_size resize omni calc_trace verbose use_gpu
             nclasses dim in
  outcome r = inr (full (match resize with Some rs => rs | None => shape dist end) 0%Z,
                   full [2; 1; 1] fzero, Some [])
  /\ In (Info "No cell pixels found.") (events r)
  /\ (forall s, In s (invokes (events r)) -> s = St_hysteresis).
Proof.
  intros Hno r. subst r. unfold compute_masks.
  destruct (threshold_mask_empty dist inds mask_threshold omni verbose Hno)
    as [mask [l [Hm [Hany Hinv]]]].
  rewrite Hm. unfold outcome, events.
  destruct verbose; simpl; rewrite Hany; simpl.
  all: repeat split; try (destruct resize; reflexivity).
  all: try (right; apply in_or_app; right; left; reflexivity).
  all: try (apply in_or_app; right; left; reflexivity).
  all: intros s Hs; rewrite ?invokes_app in Hs; simpl in Hs;
    rewrite ?app_nil_r in Hs; auto.
Qed.

End OrchestratorProps.

Lemma plain_threshold_needs_high (img : ndarray xreal) (lo hi : xreal) :
  any_b (plain_threshold img lo hi) = true ->
  exists j, In j (ndindex (shape img)) /\ flt hi (item img j) = true.
Proof.
  unfold any_b, plain_threshold. simpl. intros E.
  apply existsb_exists in E. exact E.
Qed.

Lemma compute_masks_no_foreground_witness :
  let dist := full [50; 50] (Fin 0) in
  let r := compute_masks true true true plain_threshold
             (fun _ pt => pt) (fun mu => mu) (fun m => full (shape m) (Fin 1))
             (fun m => m) (fun _ _ X => map (fun _ => 0%Z) X)
             (fun _ _ Q => inr (map (fun _ => []) Q))
             (fun shp _ => full shp false) (fun a _ => a)
             (fun a _ => bool_to_int a) bool_to_int
             (fun m _ => m) (fun m => m) (fun dP _ => dP)
             (fun _ m _ _ => bool_to_int m) (fun m _ _ => m)
             (fun p _ _ _ _ _ => (p, None)) (fun p _ _ _ => (p, None))
             (full [2; 50; 50] (Fin 0)) dist None None None 200 (Fin 0) (Fin 12)
             (Some (Fin (4 / 10))) true false false 15 None true false false false 3 2 in
  outcome r = inr (full [50; 50] 0%Z, full [2; 1; 1] fzero, Some []).
Proof.
  intros dist r.
  refine (proj1 (compute_masks_no_foreground true true true plain_threshold
             (fun _ pt => pt) (fun mu => mu) (fun m => full (shape m) (Fin 1))
             (fun m => m) (fun _ _ X => map (fun _ => 0%Z) X)
             (fun _ _ Q => inr (map (fun _ => []) Q))
             (fun shp _ => full shp false) (fun a _ => a)
             (fun a _ => bool_to_int a) bool_to_int
             (fun m _ => m) (fun m => m) (fun dP _ => dP)
             (fun _ m _ _ => bool_to_int m) (fun m _ _ => m)
             (fun p _ _ _ _ _ => (p, None)) (fun p _ _ _ => (p, None))
             plain_threshold_needs_high
             (full [2; 50; 50] (Fin 0)) dist None None None 200 (Fin 0) (Fin 12)
             (Some (Fin (4 / 10))) true false false 15 None true false false false 3 2 _)).
  intros i _. simpl. destruct (Rlt_dec 0 0) as [Hlt|_]; [|reflexivity].
  exfalso. exact (Rlt_irrefl 0 Hlt).
Defined.

Lemma follow_flows_few_pixels_witness :
  let r := follow_flows (fun _ pt => pt) true
                        (fun p _ _ _ _ _ => (p, None)) (fun p _ _ _ => (p, None))
                        demo_flow (Some demo_mask) None 200 true true true false in
  seed_inds demo_flow (Some demo_mask) None true = [[1; 1]; [1; 2]]%Z
  /\ length (seed_inds demo_flow (Some demo_mask) None true) < 5
  /\ (exists p,
         outcome r = inr (p, seed_inds demo_flow (Some demo_mask) None true, None)
         /\ p = meshgrid (nth 0 (shape demo_flow) 0) (tl (shape demo_flow))
         /\ shape p = nth 0 (shape demo_flow) 0 :: tl (shape demo_flow)
         /\ (forall (c : nat) (i : index),
                item p (Z.of_nat c :: i) = inject_Z (nth c i 0%Z)))
  /\ events r = [Warning "WARNING: no mask pixels found"].
Proof.
  intros r.
  assert (Hl : length (seed_inds demo_flow (Some demo_mask) None true) < 5).
  { simpl. lia. }
  split; [reflexivity|]. split; [exact Hl|].
  pose proof (follow_flows_few_pixels (fun _ pt => pt) true
                (fun p _ _ _ _ _ => (p, None)) (fun p _ _ _ => (p, None))
                demo_flow (Some demo_mask) None 200 true true true false Hl) as K.
  split; [exact (proj1 K)|exact (proj1 (proj2 K))].
Defined.

(** C9, as stated, fails in two ways.  With a mask of two pixels and five
    seed pixels passed as [inds], [follow_flows] calls the interpolated
    stepper, and after one step the pixel (0,0) is no longer at its own
    coordinates (its second coordinate is 1).  Without omni the mask is not
    read: with the same kind of mask and a first flow component of 1/2 at
    all nine pixels, the stepper is called as well. *)
Lemma few_mask_pixels_still_integrated :
  let run := follow_flows (F := Q) (fun _ pt => pt) false
                          (fun p _ _ _ _ _ => (p, None)) (fun p _ _ _ => (p, None)) in
  let r1 := run ramp_flow (Some pair_mask) (Some five_seeds) 1%Z true false true false in
  let r2 := run demo_flow (Some demo_mask) None 1%Z true false false false in
  nonzero_b pair_mask = [[1; 1]; [1; 2]]%Z
  /\ invokes (events r1) = [St_steps_interp]
  /\ match outcome r1 with
     | inr (p, _, _) =>
         Qeq_bool (item p [1; 0; 0]%Z) 1 = true
         /\ Qeq_bool (item (meshgrid (F := Q) 2 [3; 4]) [1; 0; 0]%Z) 0 = true
     | inl _ => False
     end
  /\ nonzero_b demo_mask = [[1; 1]; [1; 2]]%Z
  /\ length (seed_inds demo_flow (Some demo_mask) None false) = 9
  /\ invokes (events r2) = [St_steps_interp].
Proof. vm_compute. repeat split. Qed.

(** ** The Eikonal update rule *)

Section UpdateRule.
Open Scope R_scope.

Lemma cumsum_from_Fin (xs : list R) : forall s,
  cumsum_from (Fin s) (map Fin xs) = map Fin (sums_from s xs).
Proof.
  induction xs as [|x xs IH]; intros s; simpl; [reflexivity|].
  rewrite IH. reflexivity.
Qed.

Lemma radicands_from_Fin (phi : R) (xs : list R) : forall s q k,
  map (fun t : xreal * (xreal * xreal) =>
         match t with
         | (sa, (sa2, dk)) => fsub (fsq sa) (fmul dk (fsub sa2 (fsq (Fin phi))))
         end)
      (combine (cumsum_from (Fin s) (map Fin xs))
               (combine (cumsum_from (Fin q) (map fsq (map Fin xs)))
                        (cumsum_from (Fin k) (map (fun _ => fone) (map Fin xs)))))
  = map Fin (rads_from phi s q k xs).
Proof.
  induction xs as [|x xs IH]; intros s q k; simpl; [reflexivity|].
  rewrite <- IH. reflexivity.
Qed.

Lemma radicands_Fin (phi x : R) (xs : list R) :
  radicands (map Fin (x :: xs)) (Fin phi)
  = map Fin ((x * x - 1 * (x * x - phi * phi)) :: rads_from phi x (x * x) 1 xs).
Proof.
  unfold radicands. simpl. f_equal. apply radicands_from_Fin.
Qed.

(** The step from one radicand to the next:
    [k * R' = (k + 1) * R - (s - k * x)^2]. *)
Lemma radicand_step (phi s q k x : R) :
  k * ((s + x) * (s + x) - (k + 1) * (q + x * x - phi * phi))
  = (k + 1) * (s * s - k * (q - phi * phi)) - (s - k * x) * (s - k * x).
Proof. ring. Qed.

Lemma radicand_step_neg (phi s q k x : R) :
  1 <= k -> s * s - k * (q - phi * phi) < 0 ->
  (s + x) * (s + x) - (k + 1) * (q + x * x - phi * phi) < 0.
Proof.
  intros Hk Hneg.
  pose proof (radicand_step phi s q k x) as E.
  pose proof (Rle_0_sqr (s - k * x)) as Hsq. unfold Rsqr in Hsq.
  set (R' := (s + x) * (s + x) - (k + 1) * (q + x * x - phi * phi)) in *.
  set (R0 := s * s - k * (q - phi * phi)) in *.
  set (D := (s - k * x) * (s - k * x)) in *.
  nra.
Qed.

(** Once a radicand is negative, all later ones are. *)
Lemma rads_from_all_neg (phi : R) (xs : list R) : forall s q k,
  1 <= k -> s * s - k * (q - phi * phi) < 0 ->
  Forall (fun r => r < 0) (rads_from phi s q k xs).
Proof.
  induction xs as [|x xs IH]; intros s q k Hk Hneg; simpl; constructor.
  - apply radicand_step_neg; assumption.
  - apply IH; [lra|]. apply radicand_step_neg; assumption.
Qed.

Lemma count_nonneg_all_neg (rs : list R) :
  Forall (fun r => r < 0) rs -> count_nonneg rs = 0%nat.
Proof.
  unfold count_nonneg. induction 1 as [|r rs Hr _ IH]; simpl; [reflexivity|].
  unfold nonneg_b at 1. destruct (Rle_dec 0 r); [lra|exact IH].
Qed.

(** The radicand selected by the count of non-negative radicands is itself
    non-negative: the non-negative radicands form a prefix. *)
Lemma selected_radicand_nonneg (phi : R) (xs : list R) : forall s q k,
  1 <= k ->
  let rs := (s * s - k * (q - phi * phi)) :: rads_from phi s q k xs in
  (count_nonneg rs = 0%nat /\ s * s - k * (q - phi * phi) < 0)
  \/ ((1 <= count_nonneg rs)%nat /\ 0 <= nth (count_nonneg rs - 1) rs 0).
Proof.
  induction xs as [|x xs IH]; intros s q k Hk rs; subst rs.
  - simpl. unfold count_nonneg. simpl. unfold nonneg_b.
    destruct (Rle_dec 0 (s * s - k * (q - phi * phi))); simpl.
    + right. split; [lia|assumption].
    + left. split; [reflexivity|lra].
  - destruct (Rlt_le_dec (s * s - k * (q - phi * phi)) 0) as [Hneg|Hpos].
    + left. split; [|exact Hneg].
      apply count_nonneg_all_neg. constructor; [exact Hneg|].
      apply rads_from_all_neg; assumption.
    + right.
      assert (Hk' : 1 <= k + 1) by lra.
      specialize (IH (s + x) (q + x * x) (k + 1) Hk'). cbv zeta in IH.
      simpl rads_from.
      set (r1 := (s + x) * (s + x) - (k + 1) * (q + x * x - phi * phi)) in *.
      set (tl1 := rads_from phi (s + x) (q + x * x) (k + 1) xs) in *.
      assert (Hc : count_nonneg ((s * s - k * (q - phi * phi)) :: r1 :: tl1)
                   = S (count_nonneg (r1 :: tl1))).
      { unfold count_nonneg. simpl. unfold nonneg_b at 1.
        destruct (Rle_dec 0 (s * s - k * (q - phi * phi))); [reflexivity|lra]. }
      rewrite Hc. split; [lia|].
      destruct IH as [[H0 _]|[H1 Hn]].
      * rewrite H0. simpl. exact Hpos.
      * destruct (count_nonneg (r1 :: tl1)) as [|c] eqn:Ec; [lia|].
        replace (S c - 1)%nat with c in Hn by lia.
        replace (S (S c) - 1)%nat with (S c) by lia. exact Hn.
Qed.

Lemma count_mask_Fin (rs : list R) :
  length (filter (fun b : bool => b) (map (fun x : xreal => fle fzero x) (map Fin rs)))
  = count_nonneg rs.
Proof.
  unfold count_nonneg. induction rs as [|r rs IH]; [reflexivity|].
  cbn [map]. change (fle fzero (Fin r)) with (nonneg_b r).
  cbn [filter]. destruct (nonneg_b r); cbn [length]; rewrite IH; reflexivity.
Qed.

Lemma py_nth_Fin (l : list R) (d : nat) :
  (1 <= d)%nat ->
  py_nth (map Fin l) (Z.of_nat d - 1) fzero = Fin (nth (d - 1) l 0).
Proof.
  intros Hd. unfold py_nth.
  destruct (Z.of_nat d - 1 <? 0)%Z eqn:E; [apply Z.ltb_lt in E; lia|].
  replace (Z.to_nat (Z.of_nat d - 1)) with (d - 1)%nat by lia.
  change (@fzero xreal _) with (Fin 0). apply map_nth.
Qed.

(** The value of [update_torch] on a column of finite entries: with [d] the
    number of non-negative radicands, it is [(1/d) * (sum_a[d-1] +
    sqrt(radicand[d-1]))]; [d] is at least one, and the radicand selected is
    not negative. *)
Lemma update_col_Fin (phi x : R) (xs : list R) :
  let rs := (x * x - 1 * (x * x - phi * phi)) :: rads_from phi x (x * x) 1 xs in
  let d := count_nonneg rs in
  (1 <= d)%nat
  /\ 0 <= nth (d - 1) rs 0
  /\ update_col (map Fin (x :: xs)) (Fin phi)
     = Fin (1 / IZR (Z.of_nat d)
            * (nth (d - 1) (x :: sums_from x xs) 0 + sqrt (nth (d - 1) rs 0))).
Proof.
  intros rs d.
  assert (Hone : 1 <= 1) by lra.
  pose proof (selected_radicand_nonneg phi xs x (x * x) 1 Hone) as Hsel.
  cbv zeta in Hsel. fold rs in Hsel. fold d in Hsel.
  assert (Hd : (1 <= d)%nat /\ 0 <= nth (d - 1) rs 0).
  { destruct Hsel as [[_ Hneg]|Hok]; [|exact Hok].
    exfalso. assert (0 <= phi * phi) by apply Rle_0_sqr. lra. }
  destruct Hd as [Hd1 Hrd]. split; [exact Hd1|]. split; [exact Hrd|].
  unfold update_col. rewrite radicands_Fin. fold rs.
  rewrite count_mask_Fin. fold d.
  change (cumsum (map Fin (x :: xs))) with (Fin x :: cumsum_from (Fin x) (map Fin xs)).
  rewrite cumsum_from_Fin.
  change (Fin x :: map Fin (sums_from x xs)) with (map Fin (x :: sums_from x xs)).
  rewrite !py_nth_Fin by exact Hd1.
  set (rd := nth (d - 1) rs 0) in *.
  set (ad := nth (d - 1) (x :: sums_from x xs) 0).
  simpl. destruct (Rle_dec 0 rd) as [_|Hn]; [|contradiction].
  destruct (Req_dec_T (IZR (Z.of_nat d)) 0) as [E|_].
  - exfalso. apply eq_IZR_R0 in E. lia.
  - reflexivity.
Qed.

(** For finite non-negative entries the update is finite and non-negative. *)
Lemma update_col_finite_nonneg (a : list xreal) (f : xreal) :
  a <> [] -> Forall finite_nonneg a -> finite f ->
  finite_nonneg (update_col a f).
Proof.
  intros Hne Ha [phi ->].
  assert (Hxs : exists xs, a = map Fin xs /\ Forall (fun r => 0 <= r) xs).
  { clear Hne. induction Ha as [|v a [r [-> Hr]] _ [xs [-> Hxs]]].
    - exists []. split; [reflexivity|constructor].
    - exists (r :: xs). split; [reflexivity|constructor; assumption]. }
  destruct Hxs as [[|x xs] [-> Hpos]]; [contradiction|].
  destruct (update_col_Fin phi x xs) as [Hd [Hrd E]]. cbv zeta in E.
  rewrite E. eexists. split; [reflexivity|].
  set (d := count_nonneg _) in *.
  assert (Hsum : forall l s n, 0 <= s -> Forall (fun r => 0 <= r) l ->
                               0 <= nth n (s :: sums_from s l) 0).
  { induction l as [|y l IH]; intros s n Hs Hl.
    - destruct n as [|[|n]]; simpl; lra.
    - inversion Hl; subst. destruct n as [|n]; [simpl; exact Hs|].
      change (nth (S n) (s :: sums_from s (y :: l)) 0)
        with (nth n ((s + y) :: sums_from (s + y) l) 0).
      apply IH; [lra|assumption]. }
  inversion Hpos; subst.
  apply Rmult_le_pos.
  - apply Rlt_le. unfold Rdiv. rewrite Rmult_1_l. apply Rinv_0_lt_compat.
    apply IZR_lt. lia.
  - apply Rplus_le_le_0_compat; [apply Hsum; assumption|apply sqrt_pos].
Qed.

End UpdateRule.

(** ** The potential field of the Eikonal relaxation stays finite *)

Section EikonalField.
Open Scope R_scope.

Lemma finite_nonneg_zero : finite_nonneg (@fzero xreal _).
Proof. exists 0. split; [reflexivity|lra]. Qed.

Lemma finite_nonneg_one : finite_nonneg (@fone xreal _).
Proof. exists 1. split; [reflexivity|lra]. Qed.

Lemma finite_nonneg_fmask (x : xreal) (b : bool) :
  finite_nonneg x -> finite_nonneg (fmask x b).
Proof.
  intros [r [-> Hr]]. unfold fmask. simpl. eexists. split; [reflexivity|].
  apply Rmult_le_pos; [exact Hr|]. destruct b; apply IZR_le; lia.
Qed.

Lemma finite_nonneg_fmin (x y : xreal) :
  finite_nonneg x -> finite_nonneg y -> finite_nonneg (fmin x y).
Proof.
  intros [r [-> Hr]] [s [-> Hs]]. simpl. eexists. split; [reflexivity|].
  apply Rmin_glb; assumption.
Qed.

Lemma finite_nonneg_fmul (x y : xreal) :
  finite_nonneg x -> finite_nonneg y -> finite_nonneg (fmul x y).
Proof.
  intros [r [-> Hr]] [s [-> Hs]]. simpl. eexists. split; [reflexivity|].
  apply Rmult_le_pos; assumption.
Qed.

Lemma finite_nonneg_froot (x : xreal) (d : nat) :
  finite_nonneg x -> finite_nonneg (froot x d).
Proof.
  intros [r [-> Hr]]. simpl.
  destruct (Rlt_dec 0 r) as [Hpos|Hnp].
  - eexists. split; [reflexivity|]. unfold Rpower. apply Rlt_le, exp_pos.
  - destruct (Req_dec_T r 0) as [_|Hne]; [|exfalso; lra].
    exists 0. split; [reflexivity|lra].
Qed.

Lemma finite_nonneg_nth (l : list xreal) (n : nat) :
  Forall finite_nonneg l -> finite_nonneg (nth n l fzero).
Proof.
  intros Hl. revert n. induction Hl as [|x l Hx _ IH]; intros [|n]; simpl;
    auto using finite_nonneg_zero.
Qed.

Lemma mins_col_finite_nonneg (Tneigh : list xreal) (inds : list nat) :
  Forall finite_nonneg Tneigh -> Forall finite_nonneg (mins_col Tneigh inds).
Proof.
  intros HT. unfold mins_col. apply Forall_forall. intros v Hv.
  apply in_map_iff in Hv. destruct Hv as [i [<- _]].
  apply finite_nonneg_fmin; apply finite_nonneg_nth; exact HT.
Qed.

Lemma mins_col_nonempty {F : Type} `{Scalar F} (Tneigh : list F) (inds : list nat) :
  (2 <= length inds)%nat -> mins_col Tneigh inds <> [].
Proof.
  intros Hl E. apply (f_equal (@length F)) in E.
  unfold mins_col in E. rewrite length_map, length_seq in E.
  change (length (@nil F)) with 0%nat in E.
  assert (1 <= length inds / 2)%nat by (apply Nat.div_le_lower_bound; lia).
  lia.
Qed.

(** The product over the groups: every factor is finite and non-negative as
    soon as every group has at least one antipodal pair. *)
Lemma phi_total_col_finite_nonneg (Tneigh : list xreal)
  (index_list : list (list nat)) (factors : list xreal) :
  Forall finite_nonneg Tneigh ->
  Forall (fun g => (2 <= length g)%nat) (tl index_list) ->
  Forall finite (tl factors) ->
  finite_nonneg (phi_total_col Tneigh index_list factors).
Proof.
  intros HT Hg Hf. unfold phi_total_col.
  generalize (@fone xreal _) finite_nonneg_one.
  generalize dependent (tl factors). generalize dependent (tl index_list).
  intros gs Hgs. induction Hgs as [|g gs Hg1 _ IH]; intros fs Hfs acc Hacc.
  - simpl. exact Hacc.
  - destruct Hfs as [|f fs Hf1 Hfs]; [simpl; exact Hacc|].
    simpl. apply IH; [exact Hfs|].
    apply finite_nonneg_fmul; [exact Hacc|].
    apply update_col_finite_nonneg.
    + apply mins_col_nonempty. exact Hg1.
    + apply mins_col_finite_nonneg. exact HT.
    + exact Hf1.
Qed.

Lemma eikonal_update_torch_finite_nonneg (T : ndarray xreal)
  (pt : list (list index)) (isneigh : list (list bool)) (d : nat)
  (index_list : list (list nat)) (factors : list xreal) :
  field_finite_nonneg T ->
  Forall (fun g => (2 <= length g)%nat) (tl index_list) ->
  Forall finite (tl factors) ->
  Forall finite_nonneg (eikonal_update_torch T pt isneigh d index_list factors).
Proof.
  intros HT Hg Hf. unfold eikonal_update_torch. apply Forall_forall.
  intros v Hv. apply in_map_iff in Hv. destruct Hv as [[nb isn] [<- _]].
  apply finite_nonneg_froot. apply phi_total_col_finite_nonneg; try assumption.
  apply Forall_forall. intros w Hw. apply in_map_iff in Hw.
  destruct Hw as [[t b] [<- Hin]]. apply finite_nonneg_fmask.
  apply in_combine_l in Hin. unfold gather in Hin. apply in_map_iff in Hin.
  destruct Hin as [j [<- _]]. apply HT.
Qed.

Lemma stencil_fact_finite (d : nat) : Forall finite (stencil_fact (F := xreal) d).
Proof.
  unfold stencil_fact. apply Forall_forall. intros v Hv.
  apply in_map_iff in Hv. destruct Hv as [i [<- _]]. simpl.
  destruct (Rle_dec 0 (IZR (Z.of_nat i))) as [_|Hn].
  - eexists. reflexivity.
  - exfalso. apply Hn. apply IZR_le. lia.
Qed.

Lemma scatter_preserves {A} (P : A -> Prop) (idx : list index) (vals : list A)
  (a : ndarray A) :
  (forall i, P (item a i)) -> Forall P vals -> forall i, P (item (scatter a idx vals) i).
Proof.
  intros Ha Hv i. destruct (item_scatter_in idx vals a i) as [E|Hin].
  - rewrite E. apply Ha.
  - rewrite Forall_forall in Hv. apply Hv. exact Hin.
Qed.

Lemma eikonal_step_finite_nonneg (masks : ndarray Z) (T : ndarray xreal) :
  Forall (fun g => (2 <= length g)%nat) (tl (stencil_inds (ndim masks))) ->
  field_finite_nonneg T -> field_finite_nonneg (eikonal_step masks T).
Proof.
  intros Hg HT. unfold eikonal_step, field_finite_nonneg.
  apply (scatter_preserves finite_nonneg); [exact HT|].
  apply eikonal_update_torch_finite_nonneg; try assumption.
  pose proof (stencil_fact_finite (ndim masks)) as Hf.
  destruct (stencil_fact (ndim masks)) as [|f fs]; [constructor|].
  inversion Hf; assumption.
Qed.

Lemma eikonal_iter_finite_nonneg (masks : ndarray Z) (n : nat) :
  Forall (fun g => (2 <= length g)%nat) (tl (stencil_inds (ndim masks))) ->
  field_finite_nonneg (Nat.iter n (eikonal_step masks) (full (shape masks) fzero)).
Proof.
  intros Hg. induction n as [|n IH]; simpl.
  - intros i. apply finite_nonneg_zero.
  - apply eikonal_step_finite_nonneg; assumption.
Qed.

(** The number of offsets of a given face order. *)
Lemma where_sign_length (d : nat) (i : Z) :
  length (where_sign d i)
  = length (filter (fun s => (sign s =? i)%Z) (cartesian d)).
Proof.
  unfold where_sign. rewrite length_map.
  generalize 0%nat as s. generalize (cartesian d) as l.
  induction l as [|x l IH]; intros s; [reflexivity|].
  cbn [length seq combine filter snd].
  destruct (sign x =? i)%Z; cbn [length]; rewrite IH; reflexivity.
Qed.

Lemma filter_cons_sign (c : Z) (i : Z) (l : list index) :
  length (filter (fun s => (sign s =? i)%Z) (map (cons c) l))
  = length (filter (fun s => (sign s =? i - Z.abs c)%Z) l).
Proof.
  induction l as [|x l IH]; [reflexivity|].
  cbn [map filter]. change (sign (c :: x)) with (Z.abs c + sign x)%Z.
  replace (Z.abs c + sign x =? i)%Z with (sign x =? i - Z.abs c)%Z
    by (destruct (Z.eqb_spec (sign x) (i - Z.abs c));
        destruct (Z.eqb_spec (Z.abs c + sign x) i); try reflexivity; lia).
  destruct (sign x =? i - Z.abs c)%Z; cbn [length]; rewrite IH; reflexivity.
Qed.

Lemma face_count_succ (d : nat) (i : Z) :
  length (filter (fun s => (sign s =? i)%Z) (cartesian (S d)))
  = (2 * length (filter (fun s => (sign s =? i - 1)%Z) (cartesian d))
     + length (filter (fun s => (sign s =? i)%Z) (cartesian d)))%nat.
Proof.
  cbn [cartesian flat_map]. rewrite app_nil_r, !filter_app, !length_app.
  rewrite !filter_cons_sign. cbn [Z.abs Pos.of_nat].
  change (Z.abs (-1)) with 1%Z. change (Z.abs 1) with 1%Z. rewrite Z.sub_0_r. lia.
Qed.

Lemma face_count_pos (d : nat) : forall i : nat,
  (i <= d)%nat ->
  (1 <= length (filter (fun s => (sign s =? Z.of_nat i)%Z) (cartesian d)))%nat.
Proof.
  induction d as [|d IH]; intros i Hi.
  - assert (i = 0%nat) by lia. subst. cbn. lia.
  - rewrite face_count_succ. destruct (Nat.eq_dec i (S d)) as [->|Hne].
    + specialize (IH d (Nat.le_refl d)).
      replace (Z.of_nat (S d) - 1)%Z with (Z.of_nat d) by lia. lia.
    + assert (Hle : (i <= d)%nat) by lia. specialize (IH i Hle). lia.
Qed.

Lemma face_count_two (d i : nat) :
  (1 <= i <= d)%nat ->
  (2 <= length (filter (fun s => (sign s =? Z.of_nat i)%Z) (cartesian d)))%nat.
Proof.
  intros [H1 Hd]. destruct d as [|d]; [lia|].
  rewrite face_count_succ.
  assert (Hp : (i - 1 <= d)%nat) by lia.
  pose proof (face_count_pos d (i - 1) Hp) as Hc.
  replace (Z.of_nat (i - 1)) with (Z.of_nat i - 1)%Z in Hc by lia. lia.
Qed.

(** In every dimension, every face-order group of the stencil (orders
    [1..d]) holds at least one antipodal pair. *)
Lemma stencil_groups (d : nat) :
  Forall (fun g => (2 <= length g)%nat) (tl (stencil_inds d)).
Proof.
  unfold stencil_inds. cbn [seq map tl].
  apply Forall_forall. intros g Hg. apply in_map_iff in Hg.
  destruct Hg as [i [<- Hi]]. apply in_seq in Hi.
  rewrite where_sign_length. apply face_count_two. lia.
Qed.

Lemma eikonal_field_finite_nonneg (masks : ndarray Z) (n : nat) :
  field_finite_nonneg (Nat.iter n (eikonal_step masks) (full (shape masks) fzero)).
Proof. apply eikonal_iter_finite_nonneg. apply stencil_groups. Qed.

End EikonalField.

Section EikonalClaims.
Open Scope R_scope.

(** A point whose face-order-1 neighbours hold the potentials 2, 5, 5, 2
    (the centre and the corners do not matter here). *)
Lemma mins_demo :
  mins_col (map Fin [0; 2; 0; 5; 9; 5; 0; 2; 0]) (nth 1 (stencil_inds 2) [])
  = map Fin [2; 5].
Proof.
  unfold mins_col. simpl.
  rewrite (Rmin_left 2 2) by lra. rewrite (Rmin_left 5 5) by lra. reflexivity.
Qed.

(** C1, as stated, fails: for the face-order-1 group of a point whose
    neighbour pairs have minima 2 and 5, the radicand of the two-pair solve is
    negative ([49 - 2*(29 - 1) = -7]), and yet the group's factor in the
    product is 3, not the identity factor 1: the update falls back on the
    one-pair solve [2 + sqrt 1]. *)
Lemma negative_radicand_not_identity :
  let Tneigh := map Fin [0; 2; 0; 5; 9; 5; 0; 2; 0] in
  let group := nth 1 (stencil_inds 2) [] in
  let f := @fone xreal _ in
  nth 1 (radicands (mins_col Tneigh group) f) fzero = Fin (-7)
  /\ update_col (mins_col Tneigh group) f = Fin 3
  /\ update_col (mins_col Tneigh group) f <> fone.
Proof.
  cbv zeta. rewrite mins_demo.
  assert (Hv : update_col (map Fin [2; 5]) (@fone xreal _) = Fin 3).
  { change (@fone xreal _) with (Fin 1).
    destruct (update_col_Fin 1 2 [5]) as [_ [_ E]]. cbv zeta in E. rewrite E. clear E.
    assert (Hc : count_nonneg ((2 * 2 - 1 * (2 * 2 - 1 * 1)) :: rads_from 1 2 (2 * 2) 1 [5])
                 = 1%nat).
    { unfold count_nonneg. simpl. unfold nonneg_b.
      destruct (Rle_dec 0 (2 * 2 - 1 * (2 * 2 - 1 * 1))) as [_|Hn]; [|exfalso; lra].
      destruct (Rle_dec 0 ((2 + 5) * (2 + 5) - (1 + 1) * (2 * 2 + 5 * 5 - 1 * 1)))
        as [Hp|_]; [exfalso; lra|reflexivity]. }
    rewrite Hc. simpl.
    replace (2 * 2 - 1 * (2 * 2 - 1 * 1)) with 1 by lra.
    rewrite sqrt_1. f_equal. lra. }
  split; [|split].
  - change (@fone xreal _) with (Fin 1). rewrite radicands_Fin. simpl. f_equal. lra.
  - exact Hv.
  - rewrite Hv. change (@fone xreal _) with (Fin 1). intros E. inversion E. lra.
Qed.

(** In exact arithmetic (the extended reals), on a column of finite values:
    the count [d] of non-negative radicands is at least one (the first
    radicand is [f*f]), the non-negative radicands form a prefix, the
    radicand selected, [radicand[d-1]], is not negative, and for finite
    non-negative minima the update is a finite non-negative number; so is
    the potential at every pixel after every number of passes.  This is a
    property of the update rule over the reals, which the worked examples of
    the consistency filter use; it does not hold in binary64 (see
    [update_torch_counts_radicands]). *)
Lemma exact_update_selects_valid_prefix :
  (forall phi x xs,
      let rs := (x * x - 1 * (x * x - phi * phi)) :: rads_from phi x (x * x) 1 xs in
      let d := count_nonneg rs in
      (1 <= d)%nat
      /\ 0 <= nth (d - 1) rs 0
      /\ update_col (map Fin (x :: xs)) (Fin phi)
         = Fin (1 / IZR (Z.of_nat d)
                * (nth (d - 1) (x :: sums_from x xs) 0 + sqrt (nth (d - 1) rs 0))))
  /\ (forall a f, a <> [] -> Forall finite_nonneg a -> finite f ->
                  finite_nonneg (update_col a f))
  /\ (forall masks n i,
         finite_nonneg
           (item (Nat.iter n (eikonal_step masks) (full (shape masks) fzero)) i)).
Proof.
  split; [|split].
  - intros phi x xs. apply update_col_Fin.
  - apply update_col_finite_nonneg.
  - intros masks n. apply eikonal_field_finite_nonneg.
Qed.

End EikonalClaims.

Section UpdateRule.
Context {F : Type} `{Scalar F} `{Elementary F}.

Lemma count_mask (rs : list F) :
  length (filter (fun b : bool => b) (map (fun x => fle fzero x) rs))
  = length (filter (fun r => fle fzero r) rs).
Proof.
  induction rs as [|r rs IH]; [reflexivity|].
  cbn [map filter]. destruct (fle fzero r); cbn [length]; rewrite IH; reflexivity.
Qed.

Lemma length_cumsum_from (a : list F) : forall acc, length (cumsum_from acc a) = length a.
Proof.
  induction a as [|x a IH]; intros acc; [reflexivity|].
  cbn [cumsum_from length]. rewrite IH. reflexivity.
Qed.

Lemma length_cumsum (a : list F) : length (cumsum a) = length a.
Proof.
  destruct a as [|x a]; [reflexivity|]. cbn [cumsum length].
  rewrite length_cumsum_from. reflexivity.
Qed.

Lemma length_radicands (a : list F) (f : F) : length (radicands a f) = length a.
Proof.
  unfold radicands. rewrite length_map, !length_combine, !length_cumsum, !length_map.
  rewrite !Nat.min_id. reflexivity.
Qed.

(** Python's [l[d-1]] for a count [d]: position [d-1] from the start, and
    for [d = 0] the last entry. *)
Lemma py_nth_count {A} (l : list A) (d : nat) (dflt : A) :
  py_nth l (Z.of_nat d - 1) dflt
  = nth ((if d =? 0 then length l else d) - 1) l dflt.
Proof.
  unfold py_nth. destruct d as [|d].
  - cbn [Nat.eqb]. replace (Z.of_nat 0 - 1 <? 0)%Z with true by reflexivity.
    f_equal. lia.
  - cbn [Nat.eqb].
    replace (Z.of_nat (S d) - 1 <? 0)%Z with false by (symmetry; apply Z.ltb_ge; lia).
    f_equal. lia.
Qed.

Lemma update_col_by_count (a : list F) (f : F) :
  let rs := radicands a f in
  let d := length (filter (fun r => fle fzero r) rs) in
  let k := (if d =? 0 then length a else d) - 1 in
  update_col a f
  = fmul (frecip (Z.of_nat d))
         (fadd (nth k (cumsum a) fzero) (fsqrt (nth k rs fzero))).
Proof.
  intros rs d k. unfold update_col. cbv zeta. rewrite count_mask. fold rs. fold d.
  rewrite !py_nth_count. rewrite length_cumsum.
  assert (Hl : length rs = length a) by apply length_radicands.
  rewrite Hl. reflexivity.
Qed.

Lemma update_col_two_pairs (a0 a1 f : F) :
  let r0 := fsub (fsq a0) (fmul fone (fsub (fsq a0) (fsq f))) in
  let s1 := fadd a0 a1 in
  let r1 := fsub (fsq s1)
                 (fmul (fadd fone fone) (fsub (fadd (fsq a0) (fsq a1)) (fsq f))) in
  radicands [a0; a1] f = [r0; r1]
  /\ update_col [a0; a1] f
     = match fle fzero r0, fle fzero r1 with
       | true, true => fmul (frecip 2) (fadd s1 (fsqrt r1))
       | true, false => fmul (frecip 1) (fadd a0 (fsqrt r0))
       | false, true => fmul (frecip 1) (fadd a0 (fsqrt r0))
       | false, false => fmul (frecip 0) (fadd s1 (fsqrt r1))
       end.
Proof.
  intros r0 s1 r1.
  assert (Hr : radicands [a0; a1] f = [r0; r1]) by reflexivity.
  split; [exact Hr|].
  unfold update_col. cbv zeta. rewrite Hr.
  cbn [map filter cumsum cumsum_from].
  destruct (fle fzero r0), (fle fzero r1); reflexivity.
Qed.

End UpdateRule.

(** C1, amended.  [update_torch] has no exclusion of a group and no identity
    factor.  Whatever the arithmetic, it counts the non-negative radicands
    of the column ([d]) and returns [(1/d) * (sum_a[d-1] + sqrt(radicand[d-1]))]
    (for [d = 0] Python's index [-1] is the last entry); for a column of two
    minima that is [(1/2) * (a0 + a1 + sqrt r1)] when both radicands are
    non-negative and [(1/1) * (a0 + sqrt r0)] when exactly one is, whichever
    it is.  In binary64, with [1/d] in float32:
    - minima [2, 5] and [f = 1] give the radicands [1, -7] and the factor 3;
    - minima [1, 1, 1] and [f = 1] give [float32(1/3) * (3 + sqrt 3)],
      which is 1.5773503161983269 (with [1/3] in binary64 it would be
      1.5773502691896255);
    - minima [1, 2.414213562373096, 1.7071067811865475] and [f = 1] give the
      radicands [1, -1.78e-15, 3.55e-15]: two of them are non-negative but
      they are not a prefix, the count 2 selects the negative one, and the
      factor is NaN.
    So no error is raised, but the update can produce NaN. *)
Theorem update_torch_counts_radicands :
  (forall (F : Type) (S : Scalar F) (E : Elementary F) (a : list F) (f : F),
      let rs := radicands a f in
      let d := length (filter (fun r => fle fzero r) rs) in
      let k := (if d =? 0 then length a else d) - 1 in
      update_col a f
      = fmul (frecip (Z.of_nat d))
             (fadd (nth k (cumsum a) fzero) (fsqrt (nth k rs fzero))))
  /\ (forall (F : Type) (S : Scalar F) (E : Elementary F) (a0 a1 f : F),
      let r0 := fsub (fsq a0) (fmul fone (fsub (fsq a0) (fsq f))) in
      let s1 := fadd a0 a1 in
      let r1 := fsub (fsq s1)
                     (fmul (fadd fone fone) (fsub (fadd (fsq a0) (fsq a1)) (fsq f))) in
      radicands [a0; a1] f = [r0; r1]
      /\ update_col [a0; a1] f
         = match fle fzero r0, fle fzero r1 with
           | true, true => fmul (frecip 2) (fadd s1 (fsqrt r1))
           | true, false => fmul (frecip 1) (fadd a0 (fsqrt r0))
           | false, true => fmul (frecip 1) (fadd a0 (fsqrt r0))
           | false, false => fmul (frecip 0) (fadd s1 (fsqrt r1))
           end)
  /\ (forall (b64_ceil b64_trunc b64_rint : float -> Z) (b64_log : float -> float)
             (b64_root : float -> nat -> float),
      let radicands64 := radicands_b64 b64_ceil b64_trunc b64_rint in
      let update64 := update_b64 b64_ceil b64_trunc b64_rint b64_log b64_root in
      let col := [1; 0x1.3504f333f9de8p+1; 0x1.b504f333f9de6p+0]%float in
      radicands64 [2; 5]%float 1%float = [1; -7]%float
      /\ update64 [2; 5]%float 1%float = 3%float
      /\ update64 [1; 1; 1]%float 1%float = 0x1.93cd3af66835fp+0%float
      /\ map (PrimFloat.leb 0) (radicands64 col 1%float) = [true; false; true]
      /\ PrimFloat.ltb (nth 1 (radicands64 col 1%float) 0%float) 0 = true
      /\ PrimFloat.is_nan (update64 col 1%float) = true).
Proof.
  split; [|split].
  - intros F S E a f. apply update_col_by_count.
  - intros F S E a0 a1 f. apply update_col_two_pairs.
  - intros b64_ceil b64_trunc b64_rint b64_log b64_root radicands64 update64 col.
    repeat split; vm_compute; reflexivity.
Qed.

(** ** The consistency filter *)

Section FilterProps.
Context {F : Type} `{Scalar F} `{Elementary F}.
Variable normalize_field : list (list F) -> list (list F).
Variable edt : ndarray Z -> ndarray F.
Variable format_labels : ndarray Z -> ndarray Z.

Local Abbreviation flow_error' := (flow_error normalize_field edt format_labels).
Local Abbreviation remove_bad_flow_masks' := (remove_bad_flow_masks normalize_field edt format_labels).

Lemma flow_error_mismatch (maski : ndarray Z) (dP_net : ndarray F) (omni : bool) :
  tl (shape dP_net) <> shape maski ->
  flow_error' maski dP_net omni
  = (inr None, [Info "ERROR: net flow is not same size as predicted masks"]).
Proof.
  intros Hne. unfold flow_error.
  destruct (list_eq_dec Nat.eq_dec (tl (shape dP_net)) (shape maski)) as [E|_];
    [contradiction|reflexivity].
Qed.

(** C8, amended.  When the spatial shape of the flow field differs from the
    shape of the label image, [flow_error] computes no error values at all,
    but it raises nothing either: it logs, at level INFO, the message
    [ERROR: net flow is not same size as predicted masks] and returns [None]
    in place of the pair of results.  The failure reaches the caller only
    through [remove_bad_flow_masks], where unpacking that [None] raises
    [TypeError], before any label is touched. *)
Theorem flow_error_shape_mismatch (maski : ndarray Z) (dP_net : ndarray F)
  (omni : bool) :
  tl (shape dP_net) <> shape maski ->
  outcome (flow_error' maski dP_net omni) = inr None
  /\ events (flow_error' maski dP_net omni)
     = [Info "ERROR: net flow is not same size as predicted masks"]
  /\ (forall (h : heap) (a : addr) (threshold : F),
         h a = maski ->
         remove_bad_flow_masks' h a dP_net threshold omni
         = (inl TypeError,
            [Info "ERROR: net flow is not same size as predicted masks"])).
Proof.
  intros Hne. rewrite (flow_error_mismatch _ _ _ Hne). repeat split.
  intros h a threshold Ha. unfold remove_bad_flow_masks. rewrite Ha.
  rewrite (flow_error_mismatch _ _ _ Hne). reflexivity.
Qed.

(** What the filter does once [flow_error] has returned its errors: the
    array at the caller's address is overwritten, and that address returned. *)
Lemma remove_bad_flow_masks_result (h : heap) (a : addr) (flows : ndarray F)
  (threshold : F) (omni : bool) (merrors : list F) (dPm : ndarray F) (l : list event) :
  flow_error' (h a) flows omni = (inr (Some (merrors, dPm)), l) ->
  remove_bad_flow_masks' h a flows threshold omni
  = (inr (a, heap_set h a (zero_bad (h a) (bad_labels merrors threshold))), l).
Proof.
  intros E. unfold remove_bad_flow_masks, bind. rewrite E. simpl.
  rewrite app_nil_r. reflexivity.
Qed.

Lemma remove_bad_flow_masks_inv (h : heap) (a : addr) (flows : ndarray F)
  (threshold : F) (omni : bool) (a' : addr) (h' : heap) (l : list event) :
  remove_bad_flow_masks' h a flows threshold omni = (inr (a', h'), l) ->
  exists merrors dPm,
    flow_error' (h a) flows omni = (inr (Some (merrors, dPm)), l)
    /\ a' = a
    /\ h' = heap_set h a (zero_bad (h a) (bad_labels merrors threshold)).
Proof.
  unfold remove_bad_flow_masks, bind. intros E.
  destruct (flow_error' (h a) flows omni) as [[e|[[merrors dPm]|]] l0]; simpl in E;
    try discriminate.
  inversion E; subst. rewrite app_nil_r. exists merrors, dPm. auto.
Qed.

Lemma zero_bad_keep_or_zero (m : ndarray Z) (badi : list Z) (i : index) :
  item (zero_bad m badi) i = item m i \/ item (zero_bad m badi) i = 0%Z.
Proof. simpl. destruct (isin (item m i) badi); auto. Qed.

Lemma instance_labels_spec (m : ndarray Z) (l : Z) :
  In l (instance_labels m)
  <-> l <> 0%Z /\ exists i, In i (ndindex (shape m)) /\ item m i = l.
Proof.
  unfold instance_labels, ravel.
  rewrite nodup_In, filter_In, in_map_iff, negb_true_iff, Z.eqb_neq.
  split.
  - intros [[i [E Hi]] Hl]. split; [exact Hl|]. exists i. auto.
  - intros [Hl [i [Hi E]]]. split; [|exact Hl]. exists i. auto.
Qed.

(** The filter only ever zeroes labels: it cannot create an instance. *)
Lemma zero_bad_instances (m : ndarray Z) (badi : list Z) :
  incl (instance_labels (zero_bad m badi)) (instance_labels m)
  /\ n_instances (zero_bad m badi) <= n_instances m.
Proof.
  assert (Hincl : incl (instance_labels (zero_bad m badi)) (instance_labels m)).
  { intros l Hl. apply instance_labels_spec in Hl. destruct Hl as [Hl [i [Hi E]]].
    apply instance_labels_spec. split; [exact Hl|]. exists i. split; [exact Hi|].
    destruct (zero_bad_keep_or_zero m badi i) as [E'|E']; congruence. }
  split; [exact Hincl|].
  unfold n_instances. apply NoDup_incl_length; [|exact Hincl].
  apply NoDup_nodup.
Qed.

End FilterProps.

(** ** The solver on isolated pixels: the flow vanishes *)

Section IsolatedPixels.
Open Scope R_scope.

Lemma fmask_false_zero (x : xreal) : finite x -> is_zero (fmask x false).
Proof.
  intros [r ->]. unfold is_zero, fmask. simpl. f_equal. apply Rmult_0_r.
Qed.

Lemma nth_is_zero (l : list xreal) (n : nat) :
  Forall is_zero l -> is_zero (nth n l fzero).
Proof.
  intros Hl. revert n. induction Hl as [|x l Hx _ IH]; intros [|n]; simpl; auto;
    reflexivity.
Qed.

Lemma finite_nonneg_finite (x : xreal) : finite_nonneg x -> finite x.
Proof. intros [r [-> _]]. exists r. reflexivity. Qed.

Lemma in_combine_maps {A B C} (f : A -> B) (g : A -> C) (l : list A) (p : B * C) :
  In p (combine (map f l) (map g l)) -> exists a, In a l /\ p = (f a, g a).
Proof.
  induction l as [|a l IH]; simpl; [tauto|].
  intros [<-|Hin].
  - exists a. auto.
  - destruct (IH Hin) as [b [Hb E]]. exists b. auto.
Qed.

(** At a pixel without same-label face neighbours the difference of the
    masked neighbour potentials is zero on every axis. *)
Lemma mu_component_isolated (masks : ndarray Z) (T : ndarray xreal) (i : nat) :
  isolated_b masks = true ->
  (forall j, finite (item T j)) ->
  Forall is_zero (mu_component T (nth 1 (stencil_inds (ndim masks)) []) i masks).
Proof.
  intros Hiso HT. unfold mu_component. apply Forall_forall. intros v Hv.
  apply in_map_iff in Hv. destruct Hv as [pk [<- Hpk]].
  unfold stencil_pt, stencil_isneigh in Hpk.
  apply in_combine_maps in Hpk. destruct Hpk as [c [Hc ->]]. cbn [fst snd].
  assert (Hg : Forall is_zero
                 (grads_col T (nth 1 (stencil_inds (ndim masks)) [])
                            (neighbors_of (ndim masks) c)
                            (isneighbor_of masks (ndim masks) c))).
  { unfold grads_col. apply Forall_forall. intros w Hw.
    apply in_map_iff in Hw. destruct Hw as [j [<- Hj]].
    unfold isolated_b in Hiso. rewrite forallb_forall in Hiso.
    specialize (Hiso c Hc). rewrite forallb_forall in Hiso.
    specialize (Hiso j Hj). apply negb_true_iff in Hiso. rewrite Hiso.
    apply fmask_false_zero. apply HT. }
  set (g := grads_col _ _ _ _) in *.
  rewrite (nth_is_zero g (length g - (i + 1)) Hg), (nth_is_zero g i Hg).
  unfold is_zero. simpl.
  destruct (Req_dec_T 2 0) as [E|_]; [exfalso; lra|]. f_equal. lra.
Qed.

Lemma fsum_zero (l : list xreal) : Forall is_zero l -> is_zero (fsum l).
Proof.
  unfold fsum. change (@fzero xreal _) with (Fin 0).
  assert (Hacc : is_zero (Fin 0)) by reflexivity.
  revert Hacc. generalize (Fin 0).
  intros acc Hacc Hl. revert acc Hacc.
  induction Hl as [|x l Hx _ IH]; intros acc Hacc; simpl; [exact Hacc|].
  apply IH. rewrite Hx, Hacc. unfold is_zero. simpl. f_equal. lra.
Qed.

(** A field of zero vectors is normalised to a field of zero vectors. *)
Lemma normalize_unit_zero (mu : list (list xreal)) :
  Forall (Forall is_zero) mu -> Forall (Forall is_zero) (normalize_unit mu)
  /\ length (normalize_unit mu) = length mu.
Proof.
  intros Hmu. split; [|unfold normalize_unit; apply length_map].
  unfold normalize_unit. apply Forall_forall. intros r' Hr'.
  apply in_map_iff in Hr'. destruct Hr' as [r [<- Hr]].
  apply Forall_forall. intros v Hv. apply in_map_iff in Hv.
  destruct Hv as [[k x] [<- Hkx]]. cbn [fst snd].
  assert (Hs : is_zero (fsum (map (fun r0 : list xreal => fsq (nth k r0 fzero)) mu))).
  { apply fsum_zero. apply Forall_forall. intros w Hw. apply in_map_iff in Hw.
    destruct Hw as [r0 [<- Hr0]]. rewrite Forall_forall in Hmu.
    rewrite (nth_is_zero r0 k (Hmu r0 Hr0)). unfold is_zero. simpl. f_equal. lra. }
  rewrite Hs. simpl.
  destruct (Rle_dec 0 0) as [_|Hn]; [|exfalso; lra].
  simpl. rewrite sqrt_0.
  destruct (Rlt_dec 0 0) as [Hlt|_]; [exfalso; lra|reflexivity].
Qed.

Lemma shape_scatter_rows {F : Type} (coords : list index) (mu : list (list F))
  (mu0 : ndarray F) :
  shape (scatter_rows mu0 coords mu) = shape mu0.
Proof.
  unfold scatter_rows. generalize (combine (seq 0 (length mu)) mu). intros rows.
  revert mu0. induction rows as [|[k row] rows IH]; intros mu0; simpl; [reflexivity|].
  rewrite IH. apply shape_scatter.
Qed.

Lemma scatter_rows_preserves {F : Type} (P : F -> Prop) (coords : list index)
  (mu : list (list F)) (mu0 : ndarray F) :
  (forall i, P (item mu0 i)) -> Forall (Forall P) mu ->
  forall i, P (item (scatter_rows mu0 coords mu) i).
Proof.
  unfold scatter_rows. intros H0 Hmu.
  assert (Hrows : Forall (fun cr : nat * list F => Forall P (snd cr))
                         (combine (seq 0 (length mu)) mu)).
  { apply Forall_forall. intros [k row] Hin. apply in_combine_r in Hin.
    rewrite Forall_forall in Hmu. apply Hmu. exact Hin. }
  revert Hrows H0. generalize (combine (seq 0 (length mu)) mu). intros rows Hrows.
  revert mu0. induction Hrows as [|[k row] rows Hrow _ IH]; intros mu0 H0 i; simpl.
  - apply H0.
  - apply IH. apply scatter_preserves; assumption.
Qed.

Lemma ndim_pad {A} (z : A) (p : nat) (a : ndarray A) : ndim (pad z p a) = ndim a.
Proof. unfold ndim, pad. simpl. apply length_map. Qed.

Lemma ndim_pad_reflect {A} (p : nat) (a : ndarray A) : ndim (pad_reflect p a) = ndim a.
Proof. unfold ndim, pad_reflect. simpl. apply length_map. Qed.

Lemma cardinal_pairs_123 (d : nat) :
  (1 <= d <= 3)%nat -> (length (nth 1 (stencil_inds d) []) / 2)%nat = d.
Proof.
  intros Hd. assert (E : d = 1%nat \/ d = 2%nat \/ d = 3%nat) by lia.
  destruct E as [->|[->| ->]]; vm_compute; reflexivity.
Qed.

(** On a label image all of whose pixels are isolated, the solver returns
    a flow that is zero everywhere, with one component per axis. *)
Lemma solver_zero_flow (masks : ndarray Z) (dists : ndarray xreal) :
  (1 <= ndim masks <= 3)%nat ->
  isolated_b (pad 0%Z 1 masks) = true ->
  single_point masks = false ->
  exists r,
    masks_to_flows_torch normalize_unit masks dists true = Some r
    /\ (forall j, is_zero (item (fst r) j))
    /\ shape (fst r) = ndim masks :: shape masks.
Proof.
  intros Hd Hiso Hsp. unfold masks_to_flows_torch.
  destruct (any masks).
  - rewrite Hsp. unfold _extend_centers_torch. cbv beta iota zeta.
    set (Tn := Nat.iter _ _ _).
    set (mu := map (fun i => mu_component Tn _ i _) _).
    eexists. split; [reflexivity|]. cbn [fst].
    assert (HTn : forall j, finite (item Tn j)).
    { intros j. apply finite_nonneg_finite. unfold Tn.
      apply eikonal_field_finite_nonneg. }
    assert (Hz : Forall (Forall is_zero) mu).
    { unfold mu. apply Forall_forall. intros row Hrow. apply in_map_iff in Hrow.
      destruct Hrow as [i [<- _]]. apply mu_component_isolated; assumption. }
    destruct (normalize_unit_zero mu Hz) as [Hnz Hlen].
    split.
    + apply scatter_rows_preserves; [intros i; reflexivity|exact Hnz].
    + rewrite shape_scatter_rows. cbn [shape full]. rewrite Hlen. unfold mu.
      rewrite length_map, length_seq, cardinal_pairs_123 by (rewrite ndim_pad; exact Hd).
      rewrite ndim_pad. reflexivity.
  - eexists. split; [reflexivity|]. split; [intros j; reflexivity|reflexivity].
Qed.

End IsolatedPixels.

Section IsolatedFilter.
Open Scope R_scope.

Lemma up_IZR (z : Z) : up (IZR z) = (z + 1)%Z.
Proof.
  symmetry. apply tech_up.
  - apply IZR_lt. lia.
  - rewrite plus_IZR. simpl. lra.
Qed.

Lemma unit_edt_positive (m : ndarray Z) (l : list index) :
  filter (fun x : xreal => flt fzero x) (map (item (unit_edt (F := xreal) m)) l)
  = map (fun _ => Fin 1) (filter (fun i => negb (item m i =? 0)%Z) l).
Proof.
  induction l as [|i l IH]; [reflexivity|].
  cbn [map filter]. rewrite IH.
  change (item (unit_edt (F := xreal) m) i)
    with (if (item m i =? 0)%Z then Fin 0 else Fin 1).
  destruct (item m i =? 0)%Z; cbn [negb].
  - change (flt fzero (Fin 0)) with (if Rlt_dec 0 0 then true else false).
    destruct (Rlt_dec 0 0) as [Hlt|_]; [exfalso; lra|reflexivity].
  - change (flt fzero (Fin 1)) with (if Rlt_dec 0 1 then true else false).
    destruct (Rlt_dec 0 1) as [_|Hn]; [reflexivity|exfalso; lra].
Qed.

Lemma fsum_ones (l : list index) : forall s,
  fold_left fadd (map (fun _ : index => Fin 1) l) (Fin s)
  = Fin (s + INR (length l)).
Proof.
  induction l as [|i l IH]; intros s.
  - simpl. f_equal. lra.
  - cbn [map fold_left]. change (fadd (Fin s) (Fin 1)) with (Fin (s + 1)).
    rewrite IH. f_equal. cbn [length]. rewrite S_INR. lra.
Qed.

(** On a 2D image of isolated single pixels with at least one instance, the
    diameter estimate is [2*(2+1)*1 = 6], the padding of [masks_to_flows]. *)
Lemma int_diameters_unit (m : ndarray Z) :
  ndim m = 2%nat -> nonzero m <> [] ->
  int_diameters (unit_edt (F := xreal)) m = inr 6%nat.
Proof.
  intros Hd Hne. unfold int_diameters, diameters, ravel.
  change (shape (unit_edt (F := xreal) m)) with (shape m).
  rewrite (unit_edt_positive m (ndindex (shape m))).
  fold (nonzero m).
  assert (Habs : forall l' : list index,
             map fabs (map fabs (map (fun _ : index => Fin 1) l'))
             = map (fun _ : index => Fin 1) l').
  { induction l' as [|i l' IH]; [reflexivity|].
    cbn [map]. rewrite IH. f_equal.
    unfold fabs. simpl. f_equal.
    rewrite (Rmax_left 1 (0 - 1)) by lra. rewrite Rmax_left by lra. reflexivity. }
  rewrite Habs. unfold dist_to_diam, fmean, fsum. rewrite Hd.
  change (@fzero xreal _) with (Fin 0). rewrite fsum_ones, length_map.
  destruct (nonzero m) as [|c cs]; [contradiction|].
  cbn [map]. f_equal.
  set (k := length (c :: cs)).
  assert (Hk : INR k <> 0) by (apply not_0_INR; unfold k; simpl; discriminate).
  change (f_of_Z (Z.of_nat k)) with (Fin (IZR (Z.of_nat k))).
  rewrite <- INR_IZR_INZ.
  change (fdiv (Fin (0 + INR k)) (Fin (INR k)))
    with (if Req_dec_T (INR k) 0 then NotFinite else Fin ((0 + INR k) / INR k)).
  destruct (Req_dec_T (INR k) 0) as [E|_]; [contradiction|].
  change (f_of_Z (2 * (Z.of_nat 2 + 1))) with (Fin 6).
  change (fmul (Fin 6) (Fin ((0 + INR k) / INR k)))
    with (Fin (6 * ((0 + INR k) / INR k))).
  replace (6 * ((0 + INR k) / INR k)) with (IZR 6) by (field; exact Hk).
  change (ftrunc (Fin (IZR 6)))
    with (if Rle_dec 0 (IZR 6) then (up (IZR 6) - 1)%Z else (- (up (- IZR 6) - 1))%Z).
  destruct (Rle_dec 0 (IZR 6)) as [_|Hn]; [|exfalso; apply Hn; lra].
  rewrite up_IZR. reflexivity.
Qed.

(** [masks_to_flows] on a 2D image of isolated pixels (also after the
    reflect padding): the flow is zero everywhere and has two components. *)
Lemma masks_to_flows_isolated (m : ndarray Z) :
  ndim m = 2%nat -> nonzero m <> [] ->
  isolated_b (pad 0%Z 1 (pad_reflect 6 m)) = true ->
  single_point (pad_reflect 6 m) = false ->
  exists dists T mu,
    masks_to_flows normalize_unit unit_edt (fun x => x) m None true 2
    = inr (m, dists, T, mu)
    /\ (forall j, is_zero (item mu j))
    /\ nth 0 (shape mu) 0%nat = 2%nat.
Proof.
  intros Hd Hne Hiso Hsp. unfold masks_to_flows.
  rewrite Hd. cbn [Nat.eqb andb OMNI_INSTALLED].
  rewrite (int_diameters_unit m Hd Hne).
  assert (Hd' : (1 <= ndim (pad_reflect 6 m) <= 3)%nat)
    by (rewrite ndim_pad_reflect, Hd; lia).
  destruct (solver_zero_flow (pad_reflect 6 m) (pad_reflect 6 (unit_edt m)) Hd' Hiso Hsp)
    as [[mu T] [Hr [Hz Hs]]].
  rewrite Hr. cbn [solver_exn fst] in *.
  eexists _, _, _. split; [reflexivity|]. split.
  - intros [|c j]; unfold unpad_lead; cbn [item]; apply Hz.
  - unfold unpad_lead. cbn [shape]. rewrite Hs. cbn [nth].
    rewrite ndim_pad_reflect. exact Hd.
Qed.

Lemma fold_left_ext_in {A B} (f g : A -> B -> A) (l : list B) :
  (forall a x, In x l -> f a x = g a x) ->
  forall a, fold_left f l a = fold_left g l a.
Proof.
  induction l as [|x l IH]; intros Hfg a; simpl; [reflexivity|].
  rewrite Hfg by (left; reflexivity). apply IH.
  intros a' y Hy. apply Hfg. right. exact Hy.
Qed.

Lemma shape_unique_inverse (m : ndarray Z) : shape (unique_inverse m) = shape m.
Proof. reflexivity. Qed.

(** [flow_error] on a 2D image of isolated pixels: the solver flow being
    zero, the errors are those of the network flow against zero. *)
Lemma flow_error_isolated (m : ndarray Z) (dP_net : ndarray xreal) :
  tl (shape dP_net) = shape m ->
  ndim m = 2%nat ->
  nonzero (unique_inverse m) <> [] ->
  isolated_b (pad 0%Z 1 (pad_reflect 6 (unique_inverse m))) = true ->
  single_point (pad_reflect 6 (unique_inverse m)) = false ->
  exists dPm,
    flow_error normalize_unit unit_edt (fun x => x) m dP_net true
    = (inr (Some (errors_against_zero (unique_inverse m) dP_net 2, dPm)),
       [Invoke St_masks_to_flows]).
Proof.
  intros Hs Hd Hne Hiso Hsp. unfold flow_error.
  destruct (list_eq_dec Nat.eq_dec (tl (shape dP_net)) (shape m)) as [_|Hn];
    [|contradiction].
  destruct (masks_to_flows_isolated (unique_inverse m) Hd Hne Hiso Hsp)
    as [dists [T [mu [Hr [Hz Hc]]]]].
  rewrite Hr. exists mu.
  unfold bind, emit, lift_exn, ret. cbn [fst snd app].
  f_equal. f_equal. f_equal. f_equal.
  rewrite Hc. unfold errors_against_zero.
  apply fold_left_ext_in. intros errs i _.
  apply map_ext. intros [e l]. cbn [fst snd]. f_equal.
  unfold nd_mean. f_equal. unfold gather. apply map_ext. intros j.
  unfold sq_diff. cbn [item full]. rewrite (Hz (Z.of_nat i :: j)). reflexivity.
Qed.

End IsolatedFilter.

Section FilterExamples.
Open Scope R_scope.

Lemma labels_124_ranks :
  label_range (unique_inverse labels_124) = [1; 2; 3]%Z
  /\ label_coords (unique_inverse labels_124) 1 = [[1; 1]]%Z
  /\ label_coords (unique_inverse labels_124) 2 = [[1; 3]]%Z
  /\ label_coords (unique_inverse labels_124) 3 = [[1; 5]]%Z.
Proof. vm_compute. repeat split. Qed.

(** The mean squared difference to a zero flow over a single pixel. *)
Lemma one_pixel_error (v : R) :
  fdiv (fadd fzero (fsq (fsub fzero (fdiv (Fin v) (f_of_Z 5))))) (f_of_Z (Z.of_nat 1))
  = Fin ((v / 5) * (v / 5)).
Proof.
  simpl. destruct (Req_dec_T 5 0) as [E|_]; [exfalso; lra|].
  simpl. destruct (Req_dec_T 1 0) as [E|_]; [exfalso; lra|].
  f_equal. field.
Qed.

Lemma two_component_error (a b : R) :
  fadd (fadd fzero (Fin a)) (Fin b) = Fin (a + b).
Proof. simpl. f_equal. lra. Qed.

Lemma errors_labels_124 :
  errors_against_zero (unique_inverse labels_124) flows_124 2 = [Fin 1; Fin 0; Fin 1].
Proof.
  destruct labels_124_ranks as [Hr [H1 [H2 H3]]].
  unfold errors_against_zero, nd_mean. rewrite Hr.
  cbn [seq fold_left map combine fst snd].
  rewrite H1, H2, H3.
  unfold gather, fmean, fsum, sq_diff. cbn [map fold_left length item full].
  change (item flows_124 [Z.of_nat 0; 1; 1]%Z) with (Fin 5).
  change (item flows_124 [Z.of_nat 1; 1; 1]%Z) with (Fin 0).
  change (item flows_124 [Z.of_nat 0; 1; 3]%Z) with (Fin 0).
  change (item flows_124 [Z.of_nat 1; 1; 3]%Z) with (Fin 0).
  change (item flows_124 [Z.of_nat 0; 1; 5]%Z) with (Fin 5).
  change (item flows_124 [Z.of_nat 1; 1; 5]%Z) with (Fin 0).
  rewrite !one_pixel_error, !two_component_error.
  repeat f_equal; field.
Qed.

Lemma bad_labels_101 :
  bad_labels [Fin 1; Fin 0; Fin 1] (Fin (2 / 5)) = [1; 3]%Z.
Proof.
  unfold bad_labels. cbn [length seq combine filter snd fst map].
  change (flt (Fin (2 / 5)) (Fin 1)) with (if Rlt_dec (2 / 5) 1 then true else false).
  change (flt (Fin (2 / 5)) (Fin 0)) with (if Rlt_dec (2 / 5) 0 then true else false).
  destruct (Rlt_dec (2 / 5) 1) as [_|Hn]; [|exfalso; lra].
  destruct (Rlt_dec (2 / 5) 0) as [Hp|_]; [exfalso; lra|].
  reflexivity.
Qed.

Lemma bad_labels_01 :
  bad_labels [Fin 0; Fin 1] (Fin (2 / 5)) = [2]%Z.
Proof.
  unfold bad_labels. cbn [length seq combine filter snd fst map].
  change (flt (Fin (2 / 5)) (Fin 1)) with (if Rlt_dec (2 / 5) 1 then true else false).
  change (flt (Fin (2 / 5)) (Fin 0)) with (if Rlt_dec (2 / 5) 0 then true else false).
  destruct (Rlt_dec (2 / 5) 1) as [_|Hn]; [|exfalso; lra].
  destruct (Rlt_dec (2 / 5) 0) as [Hp|_]; [exfalso; lra|].
  reflexivity.
Qed.

Lemma errors_two_instances (m : ndarray Z) :
  label_range (unique_inverse m) = [1; 2]%Z ->
  label_coords (unique_inverse m) 1 = [[1; 3]]%Z ->
  label_coords (unique_inverse m) 2 = [[1; 5]]%Z ->
  errors_against_zero (unique_inverse m) flows_124 2 = [Fin 0; Fin 1].
Proof.
  intros Hr H1 H2.
  unfold errors_against_zero, nd_mean. rewrite Hr.
  cbn [seq fold_left map combine fst snd].
  rewrite H1, H2.
  unfold gather, fmean, fsum, sq_diff. cbn [map fold_left length item full].
  change (item flows_124 [Z.of_nat 0; 1; 3]%Z) with (Fin 0).
  change (item flows_124 [Z.of_nat 1; 1; 3]%Z) with (Fin 0).
  change (item flows_124 [Z.of_nat 0; 1; 5]%Z) with (Fin 5).
  change (item flows_124 [Z.of_nat 1; 1; 5]%Z) with (Fin 0).
  rewrite !one_pixel_error, !two_component_error.
  repeat f_equal; field.
Qed.

(** The filter on a 2D image of isolated pixels, with the collaborators of
    the examples. *)
Lemma filter_isolated (h : heap) (a : addr) (flows : ndarray xreal) (thr : xreal) :
  tl (shape flows) = shape (h a) ->
  ndim (h a) = 2%nat ->
  nonzero (unique_inverse (h a)) <> [] ->
  isolated_b (pad 0%Z 1 (pad_reflect 6 (unique_inverse (h a)))) = true ->
  single_point (pad_reflect 6 (unique_inverse (h a))) = false ->
  remove_bad_flow_masks normalize_unit unit_edt (fun x => x) h a flows thr true
  = (inr (a, heap_set h a
               (zero_bad (h a)
                  (bad_labels (errors_against_zero (unique_inverse (h a)) flows 2) thr))),
     [Invoke St_masks_to_flows]).
Proof.
  intros Hs Hd Hne Hiso Hsp.
  destruct (flow_error_isolated (h a) flows Hs Hd Hne Hiso Hsp) as [dPm E].
  apply (remove_bad_flow_masks_result _ _ _ _ _ _ _ _ _ _ _ E).
Qed.

Lemma filter_labels_124 :
  remove_bad_flow_masks normalize_unit unit_edt (fun x => x)
    (fun _ => labels_124) 0%nat flows_124 (Fin (2 / 5)) true
  = (inr (0%nat, heap_set (fun _ => labels_124) 0%nat (zero_bad labels_124 [1; 3]%Z)),
     [Invoke St_masks_to_flows]).
Proof.
  rewrite filter_isolated.
  - cbv beta. rewrite errors_labels_124, bad_labels_101. reflexivity.
  - reflexivity.
  - reflexivity.
  - vm_compute. discriminate.
  - vm_compute. reflexivity.
  - vm_compute. reflexivity.
Qed.

Lemma filter_labels_124_again :
  remove_bad_flow_masks normalize_unit unit_edt (fun x => x)
    (heap_set (fun _ => labels_124) 0%nat (zero_bad labels_124 [1; 3]%Z))
    0%nat flows_124 (Fin (2 / 5)) true
  = (inr (0%nat,
          heap_set (heap_set (fun _ => labels_124) 0%nat (zero_bad labels_124 [1; 3]%Z))
                   0%nat (zero_bad (zero_bad labels_124 [1; 3]%Z) [2]%Z)),
     [Invoke St_masks_to_flows]).
Proof.
  rewrite filter_isolated.
  - change (heap_set (fun _ => labels_124) 0%nat (zero_bad labels_124 [1; 3]%Z) 0%nat)
      with (zero_bad labels_124 [1; 3]%Z).
    rewrite errors_two_instances, bad_labels_01; try reflexivity; vm_compute; reflexivity.
  - reflexivity.
  - reflexivity.
  - vm_compute. discriminate.
  - vm_compute. reflexivity.
  - vm_compute. reflexivity.
Qed.

Lemma filter_labels_24 :
  remove_bad_flow_masks normalize_unit unit_edt (fun x => x)
    (fun _ => labels_24) 0%nat flows_124 (Fin (2 / 5)) true
  = (inr (0%nat, heap_set (fun _ => labels_24) 0%nat (zero_bad labels_24 [2]%Z)),
     [Invoke St_masks_to_flows]).
Proof.
  rewrite filter_isolated.
  - cbv beta. rewrite errors_two_instances, bad_labels_01;
      try reflexivity; vm_compute; reflexivity.
  - reflexivity.
  - reflexivity.
  - vm_compute. discriminate.
  - vm_compute. reflexivity.
  - vm_compute. reflexivity.
Qed.

(** C6, evaluated where it fails.  Three single-pixel instances labelled 1,
    2 and 4; the network flow disagrees with the (zero) solver flow on the
    instances labelled 1 and 4 (error 1 > 0.4) and agrees on the instance
    labelled 2 (error 0).  The first application leaves two instances
    (labels 2 and 4: the errors are indexed by rank, so the third error
    zeroes a label 3 that does not occur).  Applied to its own output, the
    filter removes a further instance, the one labelled 2, whose error is 0:
    the second error, that of label 4, is applied to label 2. *)
Theorem refiltering_removes_an_instance :
  let filter h := remove_bad_flow_masks normalize_unit unit_edt (fun x => x)
                    h 0%nat flows_124 (Fin (2 / 5)) true in
  let h0 : heap := fun _ => labels_124 in
  exists h1 h2,
    outcome (filter h0) = inr (0%nat, h1)
    /\ outcome (filter h1) = inr (0%nat, h2)
    /\ n_instances (h0 0%nat) = 3%nat
    /\ n_instances (h1 0%nat) = 2%nat
    /\ n_instances (h2 0%nat) = 1%nat
    /\ errors_against_zero (unique_inverse (h1 0%nat)) flows_124 2 = [Fin 0; Fin 1]
    /\ item (h1 0%nat) [1; 3]%Z = 2%Z
    /\ item (h2 0%nat) [1; 3]%Z = 0%Z
    /\ item (h2 0%nat) [1; 5]%Z = 4%Z.
Proof.
  cbv zeta. eexists _, _.
  rewrite filter_labels_124. split; [reflexivity|].
  rewrite filter_labels_124_again. split; [reflexivity|].
  split; [vm_compute; reflexivity|].
  split; [vm_compute; reflexivity|].
  split; [vm_compute; reflexivity|].
  split; [|split; [reflexivity|split; reflexivity]].
  apply errors_two_instances; vm_compute; reflexivity.
Qed.

(** C10, evaluated where it fails.  Two single-pixel instances labelled 2
    and 4.  [flow_error] renumbers them 1 and 2 and returns the errors
    [0, 1]; with the threshold 0.4 the bad index is 2, and the filter
    zeroes, in the caller's array, the pixels whose label is 2: the instance
    whose error (0) does not exceed the threshold loses its label, while the
    instance labelled 4 (error 1) keeps it. *)
Theorem filter_zeroes_instance_within_threshold :
  let h0 : heap := fun _ => labels_24 in
  exists (dPm : ndarray xreal) (h' : heap),
    flow_error normalize_unit unit_edt (fun x => x) labels_24 flows_124 true
    = (inr (Some ([Fin 0; Fin 1], dPm)), [Invoke St_masks_to_flows])
    /\ outcome (remove_bad_flow_masks normalize_unit unit_edt (fun x => x)
                  h0 0%nat flows_124 (Fin (2 / 5)) true) = inr (0%nat, h')
    /\ item labels_24 [1; 3]%Z = 2%Z
    /\ item (unique_inverse labels_24) [1; 3]%Z = 1%Z
    /\ item (h' 0%nat) [1; 3]%Z = 0%Z
    /\ item (h' 0%nat) [1; 5]%Z = 4%Z.
Proof.
  cbv zeta.
  assert (Hne : nonzero (unique_inverse labels_24) <> []) by (vm_compute; discriminate).
  assert (Hiso : isolated_b (pad 0%Z 1 (pad_reflect 6 (unique_inverse labels_24))) = true)
    by (vm_compute; reflexivity).
  assert (Hsp : single_point (pad_reflect 6 (unique_inverse labels_24)) = false)
    by (vm_compute; reflexivity).
  destruct (flow_error_isolated labels_24 flows_124 eq_refl eq_refl Hne Hiso Hsp)
    as [dPm E].
  rewrite errors_two_instances in E by (vm_compute; reflexivity).
  exists dPm. eexists. split; [exact E|].
  rewrite filter_labels_24. repeat split.
Qed.

End FilterExamples.

(** ** The interpolated stepper *)

Section InterpSteps.
Context {F : Type} `{Scalar F}.
Variable grid_sample : ndarray F -> points F -> list (list F).


End InterpSteps.



(** ** The clustering branch of the reconstructor *)

Section ReconstructorProps.
Context {F : Type} `{Scalar F}.
Variable kneighbors : nat -> points F -> points F -> exn + list (list nat).

(** The snapping is guarded by [len(o_inds) > 1]: with a single noise point
    (or none) the labels of DBSCAN are kept as they are, whatever the
    neighbour search would return. *)
Lemma snap_outliers_single (newinds : points F) (labels : list Z) :
  length (where_noise labels) <= 1 ->
  snap_outliers kneighbors newinds labels = inr labels.
Proof.
  intros Hl. unfold snap_outliers.
  destruct (1 <? length (where_noise labels)) eqn:E; [|reflexivity].
  apply Nat.ltb_lt in E. lia.
Qed.

End ReconstructorProps.

(** C4, evaluated where it fails.  Four foreground pixels, three in a row
    and one three pixels away, with the points left where the pixels are.
    The mean diameter (6) is below the threshold (12), so the clustering
    branch runs, with [eps = 1+1/3] and [min_samples = 3]: DBSCAN labels the
    three neighbours 0 and the fourth point -1 (noise).  There being only one
    noise point, the snapping is skipped, and the label image holds 0
    (background) at the fourth pixel: a foreground point is left unlabelled. *)
Theorem single_noise_point_left_unlabelled :
  forall (E : Elementary Q) (SKIMAGE_ENABLED : bool)
         (edt : ndarray Z -> ndarray Q)
         (kneighbors : nat -> points Q -> points Q -> exn + list (list nat))
         (border_dilation : list nat -> nat -> ndarray bool)
         (binary_opening : ndarray bool -> nat -> ndarray bool)
         (measure_label : ndarray bool -> nat -> ndarray Z)
         (scipy_label : ndarray bool -> ndarray Z),
    let inds := nonzero_b cluster_mask in
    let r := get_masks true SKIMAGE_ENABLED edt dbscan kneighbors border_dilation
                       binary_opening measure_label scipy_label
                       cluster_points None cluster_dist cluster_mask inds 4 false
                       (12 # 1)%Q false in
    inds = [[1; 0]; [1; 1]; [1; 2]; [1; 5]]%Z
    /\ dbscan (1 + 1 / 3)%Q 3 (gather_points 2 cluster_points inds) = [0; 0; 0; -1]%Z
    /\ exists M,
        outcome r = inr M
        /\ events r = []
        /\ item M [1; 0]%Z = 1%Z /\ item M [1; 1]%Z = 1%Z /\ item M [1; 2]%Z = 1%Z
        /\ item cluster_mask [1; 5]%Z = true
        /\ item M [1; 5]%Z = 0%Z.
Proof.
  intros E SKIMAGE_ENABLED edt kneighbors border_dilation binary_opening
         measure_label scipy_label inds r.
  split; [vm_compute; reflexivity|].
  split; [vm_compute; reflexivity|].
  eexists. split; [vm_compute; reflexivity|].
  repeat split; vm_compute; reflexivity.
Qed.

(** ** The seed of the point-source mode *)

(** C7, evaluated where it fails.  For a ring (the eight pixels around the
    centre of a 3 x 3 image, in the coordinates of the zero-padded image the
    solver works on) the centre of mass (2,2) is not in the instance, so the
    correction runs.  The coordinate median of the instance is (2,2) and the
    pixel nearest to it is (1,2), at squared distance 1; the seed the code
    picks is the corner (1,1), at squared distance 2: [np.median(coords,
    axis=0)] takes the median across the axes of each pixel, so the pixel
    chosen is the first one with equal coordinates. *)
Theorem seed_is_not_nearest_to_median :
  let m := pad 0%Z 1 ring in
  let coords := label_coords m 1 in
  center_of_mass_int m 1 = Some [2; 2]%Z
  /\ item m [2; 2]%Z = 0%Z
  /\ centers_of m = Some [[1; 1]%Z]
  /\ nearest_to_median m 1 = [1; 2]%Z
  /\ Qeq_bool (sq_to_median coords 2 [1; 2]%Z) 1 = true
  /\ Qeq_bool (sq_to_median coords 2 [1; 1]%Z) 2 = true.
Proof. vm_compute. repeat split. Qed.

(** ** Supporting facts on the seed increment and on the filter's test *)

Lemma item_scatter_map {A} (f : index -> A) (idx : list index) :
  forall (a : ndarray A) j,
    item (scatter a idx (map f idx)) j
    = if existsb (index_eqb j) idx then f j else item a j.
Proof.
  induction idx as [|i idx IH]; intros a j; [reflexivity|].
  cbn [map scatter existsb]. rewrite IH.
  destruct (existsb (index_eqb j) idx).
  - rewrite orb_true_r. reflexivity.
  - rewrite orb_false_r. cbn [set_item item].
    destruct (index_eqb j i) eqn:E; [|reflexivity].
    apply index_eqb_eq in E. subst. reflexivity.
Qed.

(** [T[center_pix] += 1]: every centre gains one unit, once, in a pass of the
    point-source relaxation, and no other pixel is touched by the increment. *)
Lemma seed_increment {F : Type} `{Scalar F} (T : ndarray F) (centers : list index)
  (c : index) :
  item (scatter T centers (map (fun c => fadd (item T c) fone) centers)) c
  = if existsb (index_eqb c) centers then fadd (item T c) fone else item T c.
Proof. apply (item_scatter_map (fun c => fadd (item T c) fone)). Qed.

(** The filter zeroes the label [L] exactly when the error stored at
    position [L-1] of [flow_error]'s result exceeds the threshold. *)
Lemma isin_bad_labels {F : Type} `{Scalar F} (merrors : list F) (threshold : F) (L : Z) :
  isin L (bad_labels merrors threshold) = true
  <-> exists k e, nth_error merrors k = Some e /\ L = (1 + Z.of_nat k)%Z
                  /\ flt threshold e = true.
Proof.
  unfold isin, bad_labels. rewrite existsb_exists. split.
  - intros [x [Hx E]]. apply Z.eqb_eq in E. subst x.
    apply in_map_iff in Hx. destruct Hx as [[k e] [EL Hin]].
    apply filter_In in Hin. destruct Hin as [Hin Hf]. cbn [fst snd] in *.
    exists k, e. split; [|split; [lia|exact Hf]].
    assert (G : forall l s, In (k, e) (combine (seq s (length l)) l) ->
                            nth_error l (k - s) = Some e /\ s <= k).
    { induction l as [|y l IH]; intros s Hc; [destruct Hc|].
      cbn [length seq combine] in Hc. destruct Hc as [Ey|Hc].
      - inversion Ey; subst. rewrite Nat.sub_diag. split; [reflexivity|lia].
      - destruct (IH (S s) Hc) as [Hn Hle]. split; [|lia].
        replace (k - s)%nat with (S (k - S s)) by lia. exact Hn. }
    destruct (G merrors 0%nat Hin) as [Hn _].
    rewrite Nat.sub_0_r in Hn. exact Hn.
  - intros [k [e [Hn [-> Hf]]]]. exists (1 + Z.of_nat k)%Z.
    split; [|apply Z.eqb_refl].
    apply in_map_iff. exists (k, e). split; [reflexivity|].
    apply filter_In. split; [|exact Hf].
    assert (G : forall l s k, nth_error l k = Some e ->
                              In ((s + k)%nat, e) (combine (seq s (length l)) l)).
    { induction l as [|y l IH]; intros s [|k'] Hk; try discriminate.
      - inversion Hk; subst. left. rewrite Nat.add_0_r. reflexivity.
      - right. rewrite <- Nat.add_succ_comm. apply IH. exact Hk. }
    apply (G merrors 0%nat k Hn).
Qed.

Lemma flow_error_shape_mismatch_witness :
  tl (shape flows_124) <> shape demo_labels
  /\ outcome (flow_error normalize_unit unit_edt (fun x => x) demo_labels flows_124 true)
     = inr None
  /\ remove_bad_flow_masks normalize_unit unit_edt (fun x => x)
       (fun _ => demo_labels) 0%nat flows_124 (Fin (2 / 5)) true
     = (inl TypeError, [Info "ERROR: net flow is not same size as predicted masks"]).
Proof.
  assert (Hne : tl (shape flows_124) <> shape demo_labels) by (simpl; discriminate).
  split; [exact Hne|]. split.
  - exact (proj1 (flow_error_shape_mismatch normalize_unit unit_edt (fun x => x)
                    demo_labels flows_124 true Hne)).
  - exact (proj2 (proj2 (flow_error_shape_mismatch normalize_unit unit_edt (fun x => x)
                           demo_labels flows_124 true Hne))
                 (fun _ => demo_labels) 0%nat (Fin (2 / 5)) eq_refl).
Defined.

(** C8, as stated, fails: on a 2 x 2 label image and a flow field over a
    3 x 7 grid, [flow_error] returns normally; its result is [None], no
    exception is raised, and the only trace is one INFO log record. *)
Lemma flow_error_mismatch_returns_normally :
  let r := flow_error normalize_unit unit_edt (fun x => x) demo_labels flows_124 true in
  shape demo_labels = [2; 2]
  /\ tl (shape flows_124) = [3; 7]
  /\ outcome r = inr None
  /\ (forall e, outcome r <> inl e)
  /\ events r = [Info "ERROR: net flow is not same size as predicted masks"].
Proof.
  assert (Hne : tl (shape flows_124) <> shape demo_labels) by (simpl; discriminate).
  cbv zeta. rewrite (flow_error_mismatch _ _ _ _ _ _ Hne).
  repeat split. intros e. discriminate.
Qed.

(* ================================================================== *)
(** * Further properties of the module *)
(* ================================================================== *)

(** ** The stencil *)

Lemma cartesian_succ (d : nat) :
  cartesian (S d)
  = (map (cons (-1)%Z) (cartesian d) ++ map (cons 0%Z) (cartesian d)
     ++ map (cons 1%Z) (cartesian d))%list.
Proof. cbn [cartesian flat_map]. rewrite app_nil_r. reflexivity. Qed.

Lemma cartesian_length (d : nat) : length (cartesian d) = 3 ^ d.
Proof.
  induction d as [|d IH]; [reflexivity|].
  rewrite cartesian_succ. rewrite !length_app. rewrite !length_map.
  unfold index in *. rewrite IH. cbn [Nat.pow]. lia.
Qed.

Lemma cartesian_width (d : nat) : forall s, In s (cartesian d) -> length s = d.
Proof.
  induction d as [|d IH]; intros s Hs.
  - destruct Hs as [<-|[]]. reflexivity.
  - rewrite cartesian_succ in Hs.
    repeat (apply in_app_or in Hs; destruct Hs as [Hs|Hs]);
      apply in_map_iff in Hs; destruct Hs as [r [<- Hr]]; cbn [length];
      rewrite (IH r Hr); reflexivity.
Qed.

Lemma pow3_odd (d : nat) : 3 ^ d = 2 * (3 ^ d / 2) + 1.
Proof.
  induction d as [|d IH]; [reflexivity|].
  cbn [Nat.pow]. set (m := 3 ^ d) in *. set (h := m / 2) in *.
  assert (E : 3 * m = (3 * h + 1) * 2 + 1) by lia.
  rewrite E. rewrite Nat.div_add_l by lia. cbn. lia.
Qed.

Lemma pow3_half_succ (d : nat) : 3 ^ S d / 2 = 3 ^ d + 3 ^ d / 2.
Proof.
  pose proof (pow3_odd d) as Hd. pose proof (pow3_odd (S d)) as HS.
  cbn [Nat.pow] in *. lia.
Qed.

(** [idx = (3**d)//2] is the position of the zero offset: the centre pixel. *)
Lemma cartesian_center (d : nat) :
  nth (3 ^ d / 2) (cartesian d) [] = repeat 0%Z d.
Proof.
  induction d as [|d IH]; [reflexivity|].
  rewrite pow3_half_succ, cartesian_succ.
  pose proof (pow3_odd d) as Hodd.
  rewrite app_nth2 by (rewrite length_map, cartesian_length; lia).
  rewrite length_map, cartesian_length.
  replace (3 ^ d + 3 ^ d / 2 - 3 ^ d) with (3 ^ d / 2) by lia.
  rewrite app_nth1 by (rewrite length_map, cartesian_length; lia).
  rewrite (nth_indep _ [] (0%Z :: [])) by (rewrite length_map, cartesian_length; lia).
  rewrite (map_nth (cons 0%Z) (cartesian d) []).
  unfold index in *. rewrite IH. reflexivity.
Qed.

Lemma add_index_zero (c : index) : add_index c (repeat 0%Z (length c)) = c.
Proof.
  unfold add_index. induction c as [|x c IH]; [reflexivity|].
  cbn [length repeat combine map fst snd]. rewrite IH. f_equal. lia.
Qed.

Lemma ndindex_width (shp : list nat) (i : index) :
  In i (ndindex shp) -> length i = length shp.
Proof.
  intros Hi. apply ndindex_in_range in Hi.
  symmetry. eapply Forall2_length. exact Hi.
Qed.

(** [mask_pix = pt[:,idx]] lists the foreground pixels themselves, in scan
    order. *)
Lemma mask_pix_nonzero (masks : ndarray Z) : mask_pix masks = nonzero masks.
Proof.
  unfold mask_pix, stencil_pt. rewrite map_map.
  rewrite <- (map_id (nonzero masks)) at 2.
  apply map_ext_in. intros c Hc.
  apply nonzero_spec in Hc. destruct Hc as [Hc _].
  apply ndindex_width in Hc.
  unfold neighbors_of.
  rewrite (nth_indep _ [] (add_index c []))
    by (rewrite length_map, cartesian_length; pose proof (pow3_odd (ndim masks)); lia).
  rewrite (map_nth (add_index c) (cartesian (ndim masks)) []).
  rewrite cartesian_center. unfold ndim. rewrite <- Hc. apply add_index_zero.
Qed.

Lemma where_sign_positions (d : nat) (i : Z) :
  where_sign d i = positions_from 0 (fun s => (sign s =? i)%Z) (cartesian d).
Proof. reflexivity. Qed.

Lemma positions_from_succ {A} (P : A -> bool) (l : list A) : forall s,
  positions_from (S s) P l = map S (positions_from s P l).
Proof.
  unfold positions_from. induction l as [|x l IH]; intros s; [reflexivity|].
  cbn [length seq combine filter snd]. destruct (P x); cbn [map fst].
  - f_equal. apply IH.
  - apply IH.
Qed.

Lemma positions_from_cons {A} (P : A -> bool) (x : A) (l : list A) (s : nat) :
  positions_from s P (x :: l)
  = ((if P x then [s] else []) ++ positions_from (S s) P l)%list.
Proof.
  unfold positions_from. cbn [length seq combine filter snd].
  destruct (P x); reflexivity.
Qed.

Lemma positions_from_app {A} (P : A -> bool) (l1 l2 : list A) : forall s,
  positions_from s P (l1 ++ l2)
  = (positions_from s P l1 ++ positions_from (s + length l1) P l2)%list.
Proof.
  induction l1 as [|x l1 IH]; intros s.
  - cbn [app length]. rewrite Nat.add_0_r. reflexivity.
  - cbn [app length]. rewrite !positions_from_cons, IH, <- app_assoc.
    rewrite Nat.add_succ_comm. reflexivity.
Qed.

Lemma positions_from_map {A B} (f : A -> B) (P : B -> bool) (l : list A) (s : nat) :
  positions_from s P (map f l) = positions_from s (fun x => P (f x)) l.
Proof.
  revert s. induction l as [|x l IH]; intros s; [reflexivity|].
  cbn [map]. rewrite !positions_from_cons, IH. reflexivity.
Qed.

Lemma positions_from_ext {A} (P Q : A -> bool) (l : list A) (s : nat) :
  (forall x, P x = Q x) -> positions_from s P l = positions_from s Q l.
Proof.
  intros E. revert s. induction l as [|x l IH]; intros s; [reflexivity|].
  rewrite !positions_from_cons, IH, E. reflexivity.
Qed.

Lemma positions_from_range {A} (P : A -> bool) (l : list A) : forall s j,
  In j (positions_from s P l) -> s <= j < s + length l.
Proof.
  induction l as [|x l IH]; intros s j Hj; [destruct Hj|].
  rewrite positions_from_cons in Hj. apply in_app_or in Hj. cbn [length].
  destruct Hj as [Hj|Hj].
  - destruct (P x); [|destruct Hj]. destruct Hj as [<-|[]]. lia.
  - apply IH in Hj. lia.
Qed.

(** The elements found at the positions are the elements that satisfy [P]. *)
Lemma positions_from_elements {A} (P : A -> bool) (l : list A) (dflt : A) : forall s,
  map (fun j => nth (j - s) l dflt) (positions_from s P l) = filter P l.
Proof.
  induction l as [|x l IH]; intros s; [reflexivity|].
  rewrite positions_from_cons, map_app. cbn [filter].
  assert (Htl : map (fun j => nth (j - s) (x :: l) dflt) (positions_from (S s) P l)
                = filter P l).
  { rewrite <- (IH (S s)). apply map_ext_in. intros j Hj.
    apply positions_from_range in Hj.
    replace (j - s) with (S (j - S s)) by lia. reflexivity. }
  rewrite Htl. destruct (P x); cbn [map app]; [|reflexivity].
  rewrite Nat.sub_diag. reflexivity.
Qed.

(** Reversing the list mirrors the positions. *)
Lemma positions_from_rev {A} (P : A -> bool) (l : list A) :
  positions_from 0 P (rev l)
  = rev (map (fun j => length l - 1 - j) (positions_from 0 P l)).
Proof.
  induction l as [|x l IH]; [reflexivity|].
  cbn [rev length]. rewrite positions_from_app, IH, length_rev.
  rewrite (positions_from_cons P x l 0), map_app, rev_app_distr.
  rewrite positions_from_succ, map_map. cbn [Nat.add].
  rewrite (positions_from_cons P x [] (length l)).
  change (positions_from (S (length l)) P []) with (@nil nat). rewrite app_nil_r.
  f_equal.
  - f_equal. apply map_ext. intros j. lia.
  - destruct (P x); cbn [map rev app]; [|reflexivity]. f_equal. lia.
Qed.

Lemma sign_opp (s : index) : sign (map Z.opp s) = sign s.
Proof.
  induction s as [|c s IH]; [reflexivity|].
  cbn [map sign fold_right] in *. unfold sign in *. cbn [fold_right].
  rewrite IH. rewrite Z.abs_opp. reflexivity.
Qed.

(** The offsets read backwards are the negated offsets. *)
Lemma cartesian_rev (d : nat) : rev (cartesian d) = map (map Z.opp) (cartesian d).
Proof.
  induction d as [|d IH]; [reflexivity|].
  rewrite cartesian_succ. rewrite !rev_app_distr, !map_app, <- !map_rev.
  unfold index in *. rewrite IH, !map_map, <- app_assoc. reflexivity.
Qed.

Lemma cartesian_mirror (d j : nat) :
  j < 3 ^ d ->
  nth (3 ^ d - 1 - j) (cartesian d) [] = map Z.opp (nth j (cartesian d) []).
Proof.
  intros Hj. symmetry. unfold index.
  rewrite <- (map_nth (map Z.opp) (cartesian d) [] j).
  change (map Z.opp []) with (@nil Z). rewrite <- cartesian_rev.
  rewrite rev_nth by (rewrite cartesian_length; exact Hj).
  rewrite cartesian_length. f_equal. lia.
Qed.

(** Each face-order group is its own mirror image. *)
Lemma where_sign_mirror (d : nat) (i : Z) :
  where_sign d i = rev (map (fun j => 3 ^ d - 1 - j) (where_sign d i)).
Proof.
  rewrite where_sign_positions.
  rewrite <- (cartesian_length d), <- positions_from_rev, cartesian_rev.
  rewrite positions_from_map. apply positions_from_ext.
  intros s. rewrite sign_opp. reflexivity.
Qed.

(** The pairing the solver relies on ([inds[i]] against [inds[-(i+1)]]): in
    every dimension and every face-order group, the offset at position [k]
    from the end is the opposite of the offset at position [k] from the
    start, so each pair taken by [eikonal_update_torch] and by the gradient
    is a pair of antipodal neighbours. *)
Lemma where_sign_antipodal (d : nat) (i : Z) (k : nat) :
  let g := where_sign d i in
  k < length g ->
  nth (nth (length g - (k + 1)) g 0) (cartesian d) []
  = map Z.opp (nth (nth k g 0) (cartesian d) [])
  /\ sign (nth (nth k g 0) (cartesian d) []) = i
  /\ sign (nth (nth (length g - (k + 1)) g 0) (cartesian d) []) = i.
Proof.
  intros g Hk.
  assert (Hin : In (nth k g 0) g) by (apply nth_In; exact Hk).
  assert (Hrange : nth k g 0 < 3 ^ d).
  { pose proof (positions_from_range (fun s : index => (sign s =? i)%Z) (cartesian d)
                                     0 (nth k g 0) Hin) as Hr.
    rewrite cartesian_length in Hr. lia. }
  assert (Hmir : nth (length g - (k + 1)) g 0 = 3 ^ d - 1 - nth k g 0).
  { unfold g at 2. rewrite where_sign_mirror. fold g.
    rewrite rev_nth by (rewrite length_map; lia).
    rewrite length_map.
    replace (length g - S (length g - (k + 1))) with k by lia.
    rewrite (nth_indep _ 0 (3 ^ d - 1 - 0)) by (rewrite length_map; exact Hk).
    apply (map_nth (fun j => 3 ^ d - 1 - j)). }
  assert (Hsign : sign (nth (nth k g 0) (cartesian d) []) = i).
  { pose proof (positions_from_elements (fun s => (sign s =? i)%Z) (cartesian d) [] 0)
      as He.
    assert (Hf : In (nth (nth k g 0) (cartesian d) [])
                    (filter (fun s => (sign s =? i)%Z) (cartesian d))).
    { rewrite <- He. apply in_map_iff. exists (nth k g 0).
      rewrite Nat.sub_0_r. split; [reflexivity|exact Hin]. }
    apply filter_In in Hf. destruct Hf as [_ Hf]. apply Z.eqb_eq in Hf. exact Hf. }
  rewrite Hmir, cartesian_mirror by exact Hrange.
  split; [reflexivity|]. split; [exact Hsign|].
  rewrite sign_opp. exact Hsign.
Qed.

(** X2.  The pairing the solver relies on ([inds[i]] against [inds[-(i+1)]]): in
    every dimension and every face-order group, the offset at position [k]
    from the end is the opposite of the offset at position [k] from the
    start, so each pair taken by [eikonal_update_torch] and by the gradient
    is a pair of antipodal neighbours. *)
Theorem antipodal_pairs (d : nat) (i : Z) (k : nat) :
  let g := where_sign d i in
  k < length g ->
  nth (nth (length g - (k + 1)) g 0) (cartesian d) []
  = map Z.opp (nth (nth k g 0) (cartesian d) [])
  /\ sign (nth (nth k g 0) (cartesian d) []) = i
  /\ sign (nth (nth (length g - (k + 1)) g 0) (cartesian d) []) = i.
Proof. exact (where_sign_antipodal d i k). Qed.

Lemma sign_nonneg (s : index) : (0 <= sign s)%Z.
Proof.
  unfold sign. induction s as [|c s IH]; cbn [fold_right]; lia.
Qed.

Lemma filter_map_swap' {A B} (f : A -> B) (P : B -> bool) (l : list A) :
  filter P (map f l) = map f (filter (fun x => P (f x)) l).
Proof.
  induction l as [|x l IH]; [reflexivity|].
  cbn [map filter]. rewrite IH. destruct (P (f x)); reflexivity.
Qed.

Lemma filter_none {A} (P : A -> bool) (l : list A) :
  (forall x, P x = false) -> filter P l = [].
Proof.
  intros E. induction l as [|x l IH]; [reflexivity|].
  cbn [filter]. rewrite E. exact IH.
Qed.

Lemma sign_cons (c : Z) (s : index) : sign (c :: s) = (Z.abs c + sign s)%Z.
Proof. reflexivity. Qed.

(** Only the zero offset has face order 0. *)
Lemma face_order_zero (d : nat) :
  filter (fun s => (sign s =? 0)%Z) (cartesian d) = [repeat 0%Z d].
Proof.
  induction d as [|d IH]; [reflexivity|].
  rewrite cartesian_succ, !filter_app, !filter_map_swap'.
  rewrite (filter_none (fun x : index => (sign ((-1)%Z :: x) =? 0)%Z))
    by (intros x; rewrite sign_cons; pose proof (sign_nonneg x);
        apply Z.eqb_neq; cbn [Z.abs]; lia).
  rewrite (filter_none (fun x : index => (sign (1%Z :: x) =? 0)%Z))
    by (intros x; rewrite sign_cons; pose proof (sign_nonneg x);
        apply Z.eqb_neq; cbn [Z.abs]; lia).
  rewrite (filter_ext (fun x : index => (sign (0%Z :: x) =? 0)%Z)
                      (fun s => (sign s =? 0)%Z)) by (intros x; reflexivity).
  unfold index in *. rewrite IH. reflexivity.
Qed.

(** The offsets of face order 1, in scan order: the negative unit steps
    along the axes, one block down, then the positive ones back up. *)
Lemma face_order_one_succ (d : nat) :
  filter (fun s => (sign s =? 1)%Z) (cartesian (S d))
  = ([(-1)%Z :: repeat 0%Z d]
     ++ map (cons 0%Z) (filter (fun s => (sign s =? 1)%Z) (cartesian d))
     ++ [1%Z :: repeat 0%Z d])%list.
Proof.
  rewrite cartesian_succ, !filter_app, !filter_map_swap'.
  rewrite (filter_ext (fun x : index => (sign ((-1)%Z :: x) =? 1)%Z)
                      (fun s => (sign s =? 0)%Z))
    by (intros x; rewrite sign_cons; cbn [Z.abs];
        destruct (Z.eqb_spec (sign x) 0); destruct (Z.eqb_spec (Z.pos 1 + sign x) 1);
        try reflexivity; lia).
  rewrite (filter_ext (fun x : index => (sign (1%Z :: x) =? 1)%Z)
                      (fun s => (sign s =? 0)%Z))
    by (intros x; rewrite sign_cons; cbn [Z.abs];
        destruct (Z.eqb_spec (sign x) 0); destruct (Z.eqb_spec (1 + sign x) 1);
        try reflexivity; lia).
  rewrite (filter_ext (fun x : index => (sign (0%Z :: x) =? 1)%Z)
                      (fun s => (sign s =? 1)%Z)) by (intros x; reflexivity).
  unfold index in *. rewrite face_order_zero. reflexivity.
Qed.

Lemma face_order_one_length (d : nat) :
  length (filter (fun s => (sign s =? 1)%Z) (cartesian d)) = 2 * d.
Proof.
  induction d as [|d IH]; [reflexivity|].
  rewrite face_order_one_succ, !length_app, length_map.
  unfold index in *. rewrite IH. cbn [length]. lia.
Qed.

Lemma face_order_one_nth (d : nat) : forall i,
  i < d ->
  nth i (filter (fun s => (sign s =? 1)%Z) (cartesian d)) [] = axis_offset d i (-1).
Proof.
  induction d as [|d IH]; intros i Hi; [lia|].
  rewrite face_order_one_succ. destruct i as [|i].
  - cbn [app nth]. unfold axis_offset. cbn [repeat app].
    replace (S d - 1) with d by lia. reflexivity.
  - cbn [app nth].
    rewrite app_nth1 by (rewrite length_map; unfold index;
                         rewrite face_order_one_length; lia).
    rewrite (nth_indep _ [] (0%Z :: []))
      by (rewrite length_map; unfold index; rewrite face_order_one_length; lia).
    rewrite (map_nth (cons 0%Z)). unfold index in *. rewrite IH by lia.
    unfold axis_offset. cbn [repeat app]. reflexivity.
Qed.

Lemma where_sign_one_length (d : nat) : length (where_sign d 1) = 2 * d.
Proof. rewrite where_sign_length. apply face_order_one_length. Qed.

Lemma axis_offset_opp (d i : nat) (v : Z) :
  map Z.opp (axis_offset d i v) = axis_offset d i (- v).
Proof.
  unfold axis_offset. rewrite map_app. cbn [map].
  assert (Hz : forall n, map Z.opp (repeat 0%Z n) = repeat 0%Z n).
  { induction n as [|n IH]; [reflexivity|]. cbn [repeat map]. rewrite IH. reflexivity. }
  rewrite !Hz. reflexivity.
Qed.

(** The offsets the gradient pairs on axis [i]: one step back, at position
    [i] of the face-order-1 group, and one step forward, at position [i] from
    its end. *)
Lemma cardinal_offsets (d i : nat) :
  i < d ->
  let g := where_sign d 1 in
  nth (nth i g 0) (cartesian d) [] = axis_offset d i (-1)
  /\ nth (nth (length g - (i + 1)) g 0) (cartesian d) [] = axis_offset d i 1.
Proof.
  intros Hi g.
  assert (Hlen : length g = 2 * d) by apply where_sign_one_length.
  assert (Hk : i < length g) by lia.
  assert (H1 : nth (nth i g 0) (cartesian d) [] = axis_offset d i (-1)).
  { rewrite <- (face_order_one_nth d i Hi).
    rewrite <- (positions_from_elements (fun s => (sign s =? 1)%Z) (cartesian d) [] 0).
    fold (where_sign d 1). fold g.
    rewrite (nth_indep (map _ g) [] (nth (0 - 0) (cartesian d) []))
      by (rewrite length_map; exact Hk).
    etransitivity;
      [|symmetry; exact (map_nth (fun j => nth (j - 0) (cartesian d) []) g 0 i)].
    cbv beta. rewrite Nat.sub_0_r. reflexivity. }
  split; [exact H1|].
  destruct (where_sign_antipodal d 1 i Hk) as [Ha _]. fold g in Ha.
  rewrite Ha, H1, axis_offset_opp. reflexivity.
Qed.

(** ** The flow is a masked central difference *)

Section CentralDifferenceProps.
Context {F : Type} `{Scalar F}.

Lemma combine_map_map {A B C} (f : A -> B) (g : A -> C) (l : list A) :
  combine (map f l) (map g l) = map (fun x => (f x, g x)) l.
Proof.
  induction l as [|x l IH]; [reflexivity|]. cbn [map combine]. rewrite IH. reflexivity.
Qed.

Lemma nth_map_in {A B} (f : A -> B) (l : list A) (k : nat) (da : A) (db : B) :
  k < length l -> nth k (map f l) db = f (nth k l da).
Proof.
  intros Hk. rewrite (nth_indep _ db (f da)) by (rewrite length_map; exact Hk).
  apply map_nth.
Qed.

Lemma neighbors_of_nth (d : nat) (c : index) (j : nat) :
  j < 3 ^ d ->
  nth j (neighbors_of d c) [] = add_index c (nth j (cartesian d) []).
Proof.
  intros Hj. unfold neighbors_of.
  apply nth_map_in. rewrite cartesian_length. exact Hj.
Qed.

Lemma neighbors_of_center (d : nat) (c : index) :
  length c = d -> nth (3 ^ d / 2) (neighbors_of d c) [] = c.
Proof.
  intros Hc. pose proof (pow3_odd d) as Hodd.
  rewrite neighbors_of_nth by lia.
  rewrite cartesian_center, <- Hc. apply add_index_zero.
Qed.

(** The neighbour validator at position [j]: whether that neighbour carries
    the label of the centre. *)
Lemma isneighbor_of_nth (masks : ndarray Z) (d : nat) (c : index) (j : nat) :
  length c = d -> j < 3 ^ d ->
  nth j (isneighbor_of masks d c) false
  = (item masks (add_index c (nth j (cartesian d) [])) =? item masks c)%Z.
Proof.
  intros Hc Hj. unfold isneighbor_of. pose proof (pow3_odd d) as Hodd.
  assert (Hlen : length (neighbors_of d c) = 3 ^ d)
    by (unfold neighbors_of; rewrite length_map; apply cartesian_length).
  rewrite (nth_map_in _ _ j 0%Z false) by (rewrite length_map, Hlen; exact Hj).
  rewrite (nth_map_in (item masks) _ j [] 0%Z) by (rewrite Hlen; exact Hj).
  rewrite (nth_map_in (item masks) _ (3 ^ d / 2) [] 0%Z) by (rewrite Hlen; lia).
  rewrite neighbors_of_center by exact Hc.
  rewrite neighbors_of_nth by exact Hj. reflexivity.
Qed.

Lemma stencil_inds_one (d : nat) :
  1 <= d -> nth 1 (stencil_inds d) [] = where_sign d 1.
Proof. intros Hd. destruct d as [|d]; [lia|]. reflexivity. Qed.

(** The flow component along axis [i] is, at every foreground pixel, half
    the difference of the potentials one step forward and one step back along
    that axis, each counted only if that neighbour belongs to the pixel's own
    instance: the gradient never reads the potential of another instance or
    of the background. *)
Theorem flow_is_masked_central_difference (T : ndarray F) (masks : ndarray Z) (i : nat) :
  i < ndim masks ->
  mu_component T (nth 1 (stencil_inds (ndim masks)) []) i masks
  = map (central_difference T masks i) (nonzero masks).
Proof.
  intros Hi. set (d := ndim masks) in *.
  rewrite stencil_inds_one by lia.
  unfold mu_component, stencil_pt, stencil_isneigh.
  rewrite combine_map_map, map_map. apply map_ext_in. intros c Hc. cbn [fst snd].
  apply nonzero_spec in Hc. destruct Hc as [Hc _]. apply ndindex_width in Hc.
  fold (ndim masks) in Hc. fold d in Hc.
  set (g := where_sign d 1).
  assert (Hlen : length g = 2 * d) by apply where_sign_one_length.
  assert (Hentry : forall k, k < length g ->
             nth k (grads_col T g (neighbors_of d c) (isneighbor_of masks d c)) fzero
             = masked_value T masks c (add_index c (nth (nth k g 0) (cartesian d) []))).
  { intros k Hk. unfold grads_col.
    rewrite (nth_map_in _ g k 0 fzero) by exact Hk.
    assert (Hj : nth k g 0 < 3 ^ d).
    { pose proof (positions_from_range (fun s : index => (sign s =? 1)%Z) (cartesian d)
                                       0 (nth k g 0) (nth_In g 0 Hk)) as Hr.
      rewrite cartesian_length in Hr. lia. }
    rewrite neighbors_of_nth by exact Hj.
    rewrite isneighbor_of_nth by assumption. reflexivity. }
  assert (Hglen : length (grads_col T g (neighbors_of d c) (isneighbor_of masks d c))
                  = length g) by (unfold grads_col; apply length_map).
  change (ndim masks) with d. rewrite Hglen, !Hentry by lia.
  destruct (cardinal_offsets d i Hi) as [Hback Hfwd]. fold g in Hback, Hfwd.
  rewrite Hback, Hfwd. reflexivity.
Qed.

End CentralDifferenceProps.

Section CentralDifferenceSolver.
Context {F : Type} `{Scalar F} `{Elementary F}.

(** X3.  What [_extend_centers_torch] returns as flow, on a label image all
    of whose foreground pixels have their neighbours inside the array (as
    after the zero padding of [masks_to_flows_torch]) and which has two
    foreground pixels or more: one row per axis, and in row [i] the masked
    central difference, along axis [i], of the potential it returns. *)
Theorem extend_centers_flow (masks : ndarray Z) (centers : list index)
  (n_iter : nat) (omni : bool) :
  1 <= ndim masks ->
  stencil_in_range masks = true ->
  2 <= length (nonzero masks) ->
  let r := _extend_centers_torch masks centers n_iter omni in
  length (fst r) = ndim masks
  /\ fst r = map (fun i => map (central_difference (snd r) masks i) (nonzero masks))
                 (seq 0 (ndim masks)).
Proof.
  intros Hd _ _ r.
  assert (E : fst r = map (fun i => map (central_difference (snd r) masks i) (nonzero masks))
                          (seq 0 (ndim masks))).
  { subst r. unfold _extend_centers_torch. cbn [fst snd].
    rewrite stencil_inds_one at 1 by exact Hd.
    rewrite where_sign_one_length.
    replace (2 * ndim masks / 2) with (ndim masks)
      by (rewrite Nat.mul_comm, Nat.div_mul; lia).
    apply map_ext_in. intros i Hi. apply in_seq in Hi.
    apply flow_is_masked_central_difference. lia. }
  split; [|exact E].
  rewrite E, length_map, length_seq. reflexivity.
Qed.

End CentralDifferenceSolver.

Lemma extend_centers_flow_witness :
  let masks := pad 0%Z 1 pair_labels in
  let r := _extend_centers_torch (F := xreal) masks [] 3 true in
  nonzero masks = [[1; 2]; [1; 3]]%Z
  /\ stencil_in_range masks = true
  /\ length (fst r) = ndim masks
  /\ fst r = map (fun i => map (central_difference (snd r) masks i) (nonzero masks))
                 (seq 0 (ndim masks)).
Proof.
  intros masks r.
  assert (Hd : 1 <= ndim masks) by (vm_compute; lia).
  assert (Hs : stencil_in_range masks = true) by (vm_compute; reflexivity).
  assert (Hn : 2 <= length (nonzero masks)) by (vm_compute; lia).
  split; [vm_compute; reflexivity|].
  split; [exact Hs|].
  exact (extend_centers_flow masks [] 3 true Hd Hs Hn).
Defined.

Lemma antipodal_pairs_witness :
  0 < length (where_sign 2 1)
  /\ nth (nth (length (where_sign 2 1) - (0 + 1)) (where_sign 2 1) 0) (cartesian 2) []
     = map Z.opp (nth (nth 0 (where_sign 2 1) 0) (cartesian 2) []).
Proof.
  assert (Hk : 0 < length (where_sign 2 1)) by (vm_compute; lia).
  split; [exact Hk|].
  exact (proj1 (antipodal_pairs 2 1 0 Hk)).
Defined.

(** ** The update rule solves the discretised Eikonal equation *)

Section UpdateEquation.
Open Scope R_scope.

Lemma sums_from_nth (xs : list R) : forall s n,
  (n < length xs)%nat ->
  nth n (sums_from s xs) 0 = s + Rsum (firstn (S n) xs).
Proof.
  induction xs as [|x xs IH]; intros s n Hn; [simpl in Hn; lia|].
  destruct n as [|n].
  - simpl. destruct xs; simpl; lra.
  - cbn [sums_from nth]. rewrite IH by (simpl in Hn; lia).
    change (firstn (S (S n)) (x :: xs)) with (x :: firstn (S n) xs).
    unfold Rsum. cbn [fold_right]. lra.
Qed.

Lemma rads_from_nth (phi : R) (xs : list R) : forall s q k n,
  (n < length xs)%nat ->
  nth n (rads_from phi s q k xs) 0
  = (s + Rsum (firstn (S n) xs)) * (s + Rsum (firstn (S n) xs))
    - (k + INR (S n))
      * (q + Rsum (map (fun a => a * a) (firstn (S n) xs)) - phi * phi).
Proof.
  induction xs as [|x xs IH]; intros s q k n Hn; [simpl in Hn; lia|].
  destruct n as [|n].
  - cbn [rads_from nth firstn]. unfold Rsum. cbn [map fold_right INR]. f_equal; ring.
  - cbn [rads_from nth]. rewrite IH by (simpl in Hn; lia).
    change (firstn (S (S n)) (x :: xs)) with (x :: firstn (S n) xs).
    unfold Rsum. cbn [map fold_right]. rewrite (S_INR (S n)). f_equal; ring.
Qed.

Lemma count_nonneg_le (rs : list R) : (count_nonneg rs <= length rs)%nat.
Proof. unfold count_nonneg. apply filter_length_le. Qed.

Lemma rads_from_length (phi : R) (xs : list R) : forall s q k,
  length (rads_from phi s q k xs) = length xs.
Proof.
  induction xs as [|x xs IH]; intros s q k; [reflexivity|].
  cbn [rads_from length]. rewrite IH. reflexivity.
Qed.

Lemma sum_sq_diff (u : R) (l : list R) :
  Rsum (map (fun a => (u - a) * (u - a)) l)
  = INR (length l) * u * u - 2 * u * Rsum l + Rsum (map (fun a => a * a) l).
Proof.
  induction l as [|a l IH].
  - unfold Rsum. simpl. ring.
  - cbn [map length]. unfold Rsum in *. cbn [fold_right]. rewrite IH, S_INR. ring.
Qed.

(** In exact arithmetic the number [u] the update returns for a column of
    finite minima solves the discretised Eikonal equation on the pairs it
    selects: with [d] the number of non-negative radicands, the squared
    differences between [u] and the first [d] minima add up to [f*f].  (In
    binary64 the equation holds up to rounding only, and the update can give
    NaN.) *)
Lemma update_solves_eikonal (phi x : R) (xs : list R) :
  let a := x :: xs in
  let rs := (x * x - 1 * (x * x - phi * phi)) :: rads_from phi x (x * x) 1 xs in
  let d := count_nonneg rs in
  let u := update_value a phi in
  update_col (map Fin a) (Fin phi) = Fin u
  /\ (1 <= d <= length a)%nat
  /\ Rsum (map (fun m => (u - m) * (u - m)) (firstn d a)) = phi * phi.
Proof.
  intros a rs d u.
  destruct (update_col_Fin phi x xs) as [Hd1 [Hrd E]]. cbv zeta in E, Hd1, Hrd.
  fold rs in E, Hd1, Hrd. fold d in E, Hd1, Hrd.
  assert (Hu : update_col (map Fin a) (Fin phi) = Fin u).
  { unfold u, update_value. fold a in E. rewrite E. reflexivity. }
  split; [exact Hu|].
  assert (Hdle : (d <= length a)%nat).
  { unfold d. etransitivity; [apply count_nonneg_le|].
    unfold rs, a. cbn [length]. rewrite rads_from_length. lia. }
  split; [lia|].
  set (S := Rsum (firstn d a)).
  set (Q := Rsum (map (fun m => m * m) (firstn d a))).
  assert (Hrad : nth (d - 1) rs 0 = S * S - INR d * (Q - phi * phi)).
  { unfold rs, S, Q, a. destruct d as [|[|n]]; [lia| |].
    - cbn [Nat.sub nth firstn map]. unfold Rsum. cbn [fold_right INR]. ring.
    - replace (Datatypes.S (Datatypes.S n) - 1)%nat with (Datatypes.S n) by lia.
      cbn [nth]. rewrite rads_from_nth by (unfold a in Hdle; cbn [length] in Hdle; lia).
      change (firstn (Datatypes.S (Datatypes.S n)) (x :: xs))
        with (x :: firstn (Datatypes.S n) xs).
      unfold Rsum. cbn [map fold_right].
      rewrite (S_INR (Datatypes.S n)). ring. }
  assert (Hsum : nth (d - 1) (x :: sums_from x xs) 0 = S).
  { unfold S, a. destruct d as [|[|n]]; [lia| |].
    - cbn [Nat.sub nth firstn]. unfold Rsum. cbn [fold_right]. ring.
    - replace (Datatypes.S (Datatypes.S n) - 1)%nat with (Datatypes.S n) by lia.
      cbn [nth]. rewrite sums_from_nth by (unfold a in Hdle; cbn [length] in Hdle; lia).
      change (firstn (Datatypes.S (Datatypes.S n)) (x :: xs))
        with (x :: firstn (Datatypes.S n) xs).
      unfold Rsum. cbn [fold_right]. ring. }
  assert (Huval : u = 1 / INR d * (S + sqrt (nth (d - 1) rs 0))).
  { unfold u, update_value. fold a in E. rewrite E, Hsum, INR_IZR_INZ. reflexivity. }
  rewrite sum_sq_diff.
  rewrite length_firstn, (Nat.min_l d (length a)) by exact Hdle.
  fold S. fold Q.
  set (r := sqrt (nth (d - 1) rs 0)) in *.
  assert (Hr : r * r = S * S - INR d * (Q - phi * phi)).
  { unfold r. rewrite sqrt_sqrt by exact Hrd. exact Hrad. }
  assert (Hdpos : INR d <> 0) by (apply not_0_INR; lia).
  rewrite Huval.
  replace (INR d * (1 / INR d * (S + r)) * (1 / INR d * (S + r))
           - 2 * (1 / INR d * (S + r)) * S + Q)
    with ((r * r - S * S) / INR d + Q) by (field; exact Hdpos).
  rewrite Hr. field. exact Hdpos.
Qed.

End UpdateEquation.

(** ** The smooth distance field *)

Lemma in_bounds_ndindex (shp : list nat) : forall i,
  in_bounds shp i = true -> In i (ndindex shp).
Proof.
  induction shp as [|n shp IH]; intros [|k i] Hi; simpl in *;
    try discriminate; [left; reflexivity|].
  apply andb_true_iff in Hi. destruct Hi as [Hk Hi].
  apply andb_true_iff in Hk. destruct Hk as [Hk0 Hkn].
  apply Z.leb_le in Hk0. apply Z.ltb_lt in Hkn.
  apply in_flat_map. exists (Z.to_nat k). split.
  - apply in_seq. lia.
  - rewrite Z2Nat.id by lia. apply in_map. apply IH. exact Hi.
Qed.

Lemma ndindex_in_bounds (shp : list nat) : forall i,
  In i (ndindex shp) -> in_bounds shp i = true.
Proof.
  induction shp as [|n shp IH]; simpl; intros i Hi.
  - destruct Hi as [<-|[]]. reflexivity.
  - apply in_flat_map in Hi. destruct Hi as [k [Hk Hi]].
    apply in_map_iff in Hi. destruct Hi as [i' [<- Hi']].
    apply in_seq in Hk. simpl. rewrite (IH _ Hi').
    replace (0 <=? Z.of_nat k)%Z with true by (symmetry; apply Z.leb_le; lia).
    replace (Z.of_nat k <? Z.of_nat n)%Z with true by (symmetry; apply Z.ltb_lt; lia).
    reflexivity.
Qed.

Lemma any_false_item (a : ndarray Z) (i : index) :
  any a = false -> in_bounds (shape a) i = true -> item a i = 0%Z.
Proof.
  unfold any. intros Ha Hi. apply in_bounds_ndindex in Hi.
  destruct (Z.eqb_spec (item a i) 0) as [E|NE]; [exact E|].
  assert (Ht : existsb (fun i => negb (item a i =? 0)%Z) (ndindex (shape a)) = true).
  { apply existsb_exists. exists i. split; [exact Hi|].
    apply negb_true_iff. apply Z.eqb_neq. exact NE. }
  rewrite Ha in Ht. discriminate.
Qed.

(** A cell of the zero-padded image that is foreground comes from a
    foreground pixel of the image. *)
Lemma nonzero_pad (masks : ndarray Z) (i : index) :
  In (shift 1 i) (nonzero (pad 0%Z 1 masks)) ->
  in_bounds (shape masks) i = true /\ item masks i <> 0%Z.
Proof.
  intros Hin. apply nonzero_spec in Hin. destruct Hin as [_ Hnz].
  unfold pad in Hnz. cbn [item] in Hnz.
  pose proof (shift_back 1 i) as Hsb.
  cbn [Z.of_nat Pos.of_succ_nat Z.opp] in Hsb, Hnz.
  rewrite Hsb in Hnz.
  destruct (in_bounds (shape masks) i); [split; [reflexivity|exact Hnz]|].
  exfalso. apply Hnz. reflexivity.
Qed.

Lemma shape_unpad_pad {A B} (z : A) (a : ndarray A) (T : ndarray B) :
  shape T = shape (pad z 1 a) -> shape (unpad 1 T) = shape a.
Proof.
  intros E. unfold unpad. cbn [shape]. rewrite E. unfold pad. cbn [shape].
  rewrite map_map. rewrite <- (map_id (shape a)) at 2.
  apply map_ext. intros n. lia.
Qed.

Section SmoothDistanceProps.
Context {F : Type} `{Scalar F} `{Elementary F}.
Variable edt : ndarray Z -> ndarray F.
Variable normalize_field : list (list F) -> list (list F).

Lemma shape_eikonal_iter (masks : ndarray Z) (n : nat) :
  shape (Nat.iter n (eikonal_step masks) (full (shape masks) fzero)) = shape masks.
Proof.
  induction n as [|n IH]; [reflexivity|].
  cbn [Nat.iter nat_rect]. unfold eikonal_step at 1. rewrite shape_scatter. exact IH.
Qed.

(** The relaxation writes on the foreground only. *)
Lemma eikonal_iter_background (masks : ndarray Z) (j : index) (n : nat) :
  ~ In j (nonzero masks) ->
  item (Nat.iter n (eikonal_step masks) (full (shape masks) fzero)) j = fzero.
Proof.
  intros Hj. induction n as [|n IH]; [reflexivity|].
  cbn [Nat.iter nat_rect]. unfold eikonal_step at 1.
  rewrite item_scatter_out by (rewrite mask_pix_nonzero; exact Hj).
  exact IH.
Qed.

(** [smooth_distance] returns an array of the shape of the label image, and
    it is zero at every background pixel (and at any index outside the
    image): the relaxation never writes there. *)
Lemma smooth_distance_frame (masks : ndarray Z) (dists : option (ndarray F)) :
  shape (smooth_distance edt masks dists) = shape masks
  /\ forall i, in_bounds (shape masks) i = false \/ item masks i = 0%Z ->
               item (smooth_distance edt masks dists) i = fzero.
Proof.
  unfold smooth_distance. cbv zeta. split.
  - apply (shape_unpad_pad 0%Z). apply shape_eikonal_iter.
  - intros i Hi. unfold unpad at 1. cbn [item].
    apply eikonal_iter_background. intros Hin.
    apply nonzero_pad in Hin. destruct Hin as [Hb Hnz].
    destruct Hi as [Hi|Hi]; [congruence|contradiction].
Qed.

(** X5.  [smooth_distance] returns an array of the shape of the label image, and
    it is zero at every background pixel (and at any index outside the
    image): the relaxation never writes there. *)
Theorem smooth_distance_support (masks : ndarray Z) (dists : option (ndarray F)) :
  shape (smooth_distance edt masks dists) = shape masks
  /\ forall i, in_bounds (shape masks) i = false \/ item masks i = 0%Z ->
               item (smooth_distance edt masks dists) i = fzero.
Proof. exact (smooth_distance_frame masks dists). Qed.

End SmoothDistanceProps.

Lemma smooth_distance_support_witness :
  (in_bounds (shape demo_labels) [0; 0]%Z = false \/ item demo_labels [0; 0]%Z = 0%Z)
  /\ item (smooth_distance (F := xreal) (fun m => full (shape m) (Fin 1))
                           demo_labels None) [0; 0]%Z = fzero.
Proof.
  assert (Hb : in_bounds (shape demo_labels) [0; 0]%Z = false
               \/ item demo_labels [0; 0]%Z = 0%Z) by (right; reflexivity).
  split; [exact Hb|].
  exact (proj2 (smooth_distance_support (fun m => full (shape m) (Fin 1))
                  demo_labels None) [0; 0]%Z Hb).
Defined.

(** In exact arithmetic (the extended reals) every entry of the array
    [smooth_distance] returns is a finite, non-negative number.  (Not so in
    binary64, where the update can give NaN.) *)
Lemma smooth_distance_finite_nonneg (edt : ndarray Z -> ndarray xreal)
  (masks : ndarray Z) (dists : option (ndarray xreal)) (i : index) :
  finite_nonneg (item (smooth_distance edt masks dists) i).
Proof.
  unfold smooth_distance. cbv zeta. unfold unpad. cbn [item].
  apply eikonal_field_finite_nonneg.
Qed.

(** ** The mask reconstructor labels the seed pixels only *)

Lemma outcome_bind_inr {A B} (m : Run A) (f : A -> Run B) (y : B) :
  outcome (bind m f) = inr y ->
  exists x, outcome m = inr x /\ outcome (f x) = inr y.
Proof.
  unfold outcome, bind. destruct m as [[e|x] l]; cbn [fst]; [discriminate|].
  destruct (f x) as [r l'] eqn:E. cbn [fst]. intros ->.
  exists x. split; [reflexivity|]. rewrite E. reflexivity.
Qed.

Section ReconstructorFrame.
Context {F : Type} `{Scalar F} `{Elementary F}.
Variable SKLEARN_ENABLED : bool.
Variable SKIMAGE_ENABLED : bool.
Variable edt : ndarray Z -> ndarray F.
Variable DBSCAN_fit : F -> nat -> points F -> list Z.
Variable kneighbors : nat -> points F -> points F -> exn + list (list nat).
Variable border_dilation : list nat -> nat -> ndarray bool.
Variable binary_opening : ndarray bool -> nat -> ndarray bool.
Variable measure_label : ndarray bool -> nat -> ndarray Z.
Variable scipy_label : ndarray bool -> ndarray Z.

(** X11.  Whatever the branch (clustering or connected components), whatever the
    external stages answer, a label image that [get_masks] returns has the
    shape of [p] without its leading axis, and it is 0 at every pixel that
    is not one of the seed pixels [inds]. *)
Theorem get_masks_labels_seeds_only (p : ndarray F) (bd : option (ndarray F))
  (dist : ndarray F) (mask : ndarray bool) (inds : list index) (nclasses : Z)
  (cluster : bool) (diam_threshold : F) (verbose : bool) (m : ndarray Z) :
  outcome (get_masks SKLEARN_ENABLED SKIMAGE_ENABLED edt DBSCAN_fit kneighbors
             border_dilation binary_opening measure_label scipy_label
             p bd dist mask inds nclasses cluster diam_threshold verbose) = inr m ->
  shape m = tl (shape p)
  /\ forall i, ~ In i inds -> item m i = 0%Z.
Proof.
  unfold get_masks.
  destruct (if (4 <=? nclasses)%Z then _ else _) as [d eps].
  intros Hm.
  apply outcome_bind_inr in Hm. destruct Hm as [[] [_ Hm]].
  apply outcome_bind_inr in Hm. destruct Hm as [[] [_ Hm]].
  destruct ((fle d diam_threshold || cluster) && SKLEARN_ENABLED).
  - apply outcome_bind_inr in Hm. destruct Hm as [[] [_ Hm]].
    apply outcome_bind_inr in Hm. destruct Hm as [labels [_ Hm]].
    cbn in Hm. injection Hm as <-.
    split; [apply shape_scatter|].
    intros i Hi. rewrite item_scatter_out by exact Hi. reflexivity.
  - apply outcome_bind_inr in Hm. destruct Hm as [bpx [_ Hm]].
    cbn in Hm. injection Hm as <-.
    split; [apply shape_scatter|].
    intros i Hi. rewrite item_scatter_out by exact Hi. reflexivity.
Qed.

End ReconstructorFrame.

Lemma get_masks_demo_returns :
  exists m,
    outcome (get_masks (F := xreal) false false (fun a => full (shape a) fzero)
               (fun _ _ pts => map (fun _ => 0%Z) pts) (fun _ _ _ => inr [])
               (fun shp _ => full shp false) (fun a _ => a)
               (fun a _ => bool_to_int a) bool_to_int
               (full [2; 2; 2] fzero) (Some (full [2; 2] fzero)) (full [2; 2] fzero)
               (full [2; 2] true) [[0; 1]%Z] 4 false fzero false) = inr m.
Proof.
  unfold get_masks. cbn [Z.leb Z.compare Pos.compare Pos.compare_cont].
  cbv iota beta. rewrite !andb_false_r. cbv iota.
  unfold when, outcome. rewrite !bind_ret_l. cbn [Z.eqb Pos.eqb].
  cbv iota. rewrite !bind_ret_l. eexists. reflexivity.
Qed.

Lemma get_masks_labels_seeds_only_witness :
  exists m,
    outcome (get_masks (F := xreal) false false (fun a => full (shape a) fzero)
               (fun _ _ pts => map (fun _ => 0%Z) pts) (fun _ _ _ => inr [])
               (fun shp _ => full shp false) (fun a _ => a)
               (fun a _ => bool_to_int a) bool_to_int
               (full [2; 2; 2] fzero) (Some (full [2; 2] fzero)) (full [2; 2] fzero)
               (full [2; 2] true) [[0; 1]%Z] 4 false fzero false) = inr m
    /\ shape m = [2; 2]
    /\ item m [0; 0]%Z = 0%Z.
Proof.
  destruct get_masks_demo_returns as [m Hm]. exists m. split; [exact Hm|].
  pose proof (get_masks_labels_seeds_only _ _ _ _ _ _ _ _ _ _ _ _ _ _ _ _ _ _ _ Hm)
    as [Hs Hz].
  split; [exact Hs|]. apply Hz. intros [E|[]]. discriminate E.
Defined.

(** ** Snapping two or more noise points *)

Lemma positions_from_complete {A} (P : A -> bool) (dflt : A) (l : list A) : forall s j,
  j < length l -> P (nth j l dflt) = true -> In (s + j) (positions_from s P l).
Proof.
  induction l as [|x l IH]; intros s j Hj HP; [simpl in Hj; lia|].
  rewrite positions_from_cons. apply in_or_app. destruct j as [|j].
  - left. cbn [nth] in HP. rewrite HP. left. lia.
  - right. replace (s + S j) with (S s + j) by lia.
    apply IH; [simpl in Hj; lia|exact HP].
Qed.

Lemma length_assign_at (o_inds : list nat) : forall (l labels : list Z),
  Forall (fun i => i < length labels) o_inds ->
  length (assign_at labels o_inds l) = length labels.
Proof.
  induction o_inds as [|i o IH]; intros [|v l] labels Ho; cbn [assign_at];
    try reflexivity.
  inversion Ho as [|? ? Hi Ho']; subst.
  assert (Hlen : length (firstn i labels ++ v :: skipn (S i) labels) = length labels).
  { rewrite length_app, length_firstn. cbn [length]. rewrite length_skipn. lia. }
  rewrite IH; [exact Hlen|]. rewrite Hlen. exact Ho'.
Qed.

Lemma nth_assign_one (labels : list Z) (i j : nat) (v : Z) :
  i < length labels ->
  nth j (firstn i labels ++ v :: skipn (S i) labels) 0%Z
  = if Nat.eqb j i then v else nth j labels 0%Z.
Proof.
  intros Hi. destruct (Nat.eqb_spec j i) as [->|Hne].
  - rewrite app_nth2 by (rewrite length_firstn; lia).
    rewrite length_firstn, Nat.min_l by lia. rewrite Nat.sub_diag. reflexivity.
  - destruct (Nat.lt_ge_cases j i) as [Hlt|Hge].
    + rewrite app_nth1 by (rewrite length_firstn; lia).
      rewrite <- (firstn_skipn i labels) at 2.
      rewrite app_nth1 by (rewrite length_firstn; lia). reflexivity.
    + rewrite app_nth2 by (rewrite length_firstn; lia).
      rewrite length_firstn, Nat.min_l by lia.
      replace (j - i) with (S (j - S i)) by lia. cbn [nth].
      rewrite <- (firstn_skipn (S i) labels) at 2.
      rewrite app_nth2 by (rewrite length_firstn; lia).
      rewrite length_firstn, Nat.min_l by lia. reflexivity.
Qed.

Lemma assign_at_other (o_inds : list nat) : forall (l labels : list Z) (j : nat),
  Forall (fun i => i < length labels) o_inds ->
  ~ In j o_inds ->
  nth j (assign_at labels o_inds l) 0%Z = nth j labels 0%Z.
Proof.
  induction o_inds as [|i o IH]; intros [|v l] labels j Ho Hj; cbn [assign_at];
    try reflexivity.
  inversion Ho as [|? ? Hi Ho']; subst.
  assert (Hlen : length (firstn i labels ++ v :: skipn (S i) labels) = length labels).
  { rewrite length_app, length_firstn. cbn [length]. rewrite length_skipn. lia. }
  rewrite IH.
  - rewrite nth_assign_one by exact Hi.
    destruct (Nat.eqb_spec j i) as [->|_]; [|reflexivity].
    exfalso. apply Hj. left. reflexivity.
  - rewrite Hlen. exact Ho'.
  - intros Hin. apply Hj. right. exact Hin.
Qed.

Lemma assign_at_all (Pv : Z -> Prop) (o_inds : list nat) :
  forall (l labels : list Z) (j : nat),
  length l = length o_inds ->
  Forall Pv l ->
  Forall (fun i => i < length labels) o_inds ->
  In j o_inds \/ Pv (nth j labels 0%Z) ->
  Pv (nth j (assign_at labels o_inds l) 0%Z).
Proof.
  induction o_inds as [|i o IH]; intros [|v l] labels j Hl Hv Ho Hj;
    cbn [assign_at]; try discriminate Hl.
  - destruct Hj as [[]|Hj]. exact Hj.
  - inversion Ho as [|? ? Hi Ho']; subst.
    inversion Hv as [|? ? Hv1 Hv']; subst.
    assert (Hlen : length (firstn i labels ++ v :: skipn (S i) labels) = length labels).
    { rewrite length_app, length_firstn. cbn [length]. rewrite length_skipn. lia. }
    apply IH.
    + simpl in Hl. lia.
    + exact Hv'.
    + rewrite Hlen. exact Ho'.
    + rewrite nth_assign_one by exact Hi.
      destruct (Nat.eqb_spec j i) as [->|Hne]; [right; exact Hv1|].
      destruct Hj as [[E|Hin]|Hp]; [congruence|left; exact Hin|right; exact Hp].
Qed.

Lemma sequence_exn_inr {A} (l : list (exn + A)) : forall r,
  sequence_exn l = inr r -> l = map inr r.
Proof.
  induction l as [|[e|x] l IH]; intros r Hr; cbn [sequence_exn] in Hr.
  - injection Hr as <-. reflexivity.
  - discriminate.
  - destruct (sequence_exn l) as [e|r'] eqn:E; [discriminate|].
    injection Hr as <-. cbn [map]. f_equal. apply IH. reflexivity.
Qed.

Lemma first_labelled_inr (n : list Z) (l : Z) :
  first_labelled n = inr l -> l <> (-1)%Z.
Proof.
  unfold first_labelled.
  destruct (filter (fun l => negb (l =? -1)%Z) n) as [|x r] eqn:E; [discriminate|].
  intros Hl. injection Hl as <-.
  assert (Hin : In x (filter (fun l => negb (l =? -1)%Z) n)) by (rewrite E; left; reflexivity).
  apply filter_In in Hin. destruct Hin as [_ Hx].
  apply negb_true_iff in Hx. apply Z.eqb_neq in Hx. exact Hx.
Qed.

Lemma where_noise_spec (labels : list Z) (j : nat) :
  In j (where_noise labels) <-> j < length labels /\ nth j labels 0%Z = (-1)%Z.
Proof.
  change (where_noise labels)
    with (positions_from 0 (fun x => (x =? -1)%Z) labels).
  split.
  - intros Hj. pose proof (positions_from_range _ _ _ _ Hj) as Hr.
    split; [lia|].
    pose proof (positions_from_elements (fun x => (x =? -1)%Z) labels 0%Z 0) as He.
    assert (Hin : In (nth (j - 0) labels 0%Z) (filter (fun x => (x =? -1)%Z) labels)).
    { rewrite <- He. apply (in_map (fun j => nth (j - 0) labels 0%Z)). exact Hj. }
    rewrite Nat.sub_0_r in Hin. apply filter_In in Hin.
    apply Z.eqb_eq. apply Hin.
  - intros [Hlt Hn].
    apply (positions_from_complete (fun x => (x =? -1)%Z) 0%Z labels 0 j Hlt).
    apply Z.eqb_eq. exact Hn.
Qed.

Section SnapOutliers.
Context {F : Type}.
Variable kneighbors : nat -> points F -> points F -> exn + list (list nat).

(** X12.  With two or more noise points the snapping runs.  When the neighbour
    search answers one row per query (as [kneighbors] does) and the snapping
    returns, no label [-1] is left, the labels that were not [-1] are the
    ones DBSCAN gave, and the number of labels is unchanged. *)
Theorem snap_outliers_leaves_no_noise (newinds : points F) (labels labels' : list Z) :
  (forall k X Q idx, kneighbors k X Q = inr idx -> length idx = length Q) ->
  1 < length (where_noise labels) ->
  snap_outliers kneighbors newinds labels = inr labels' ->
  length labels' = length labels
  /\ (forall j, j < length labels -> nth j labels' 0%Z <> (-1)%Z)
  /\ (forall j, nth j labels 0%Z <> (-1)%Z -> nth j labels' 0%Z = nth j labels 0%Z).
Proof.
  intros Hk Hn. unfold snap_outliers.
  destruct (1 <? length (where_noise labels)) eqn:E;
    [|apply Nat.ltb_ge in E; lia].
  destruct (kneighbors 50 newinds _) as [e|indices] eqn:Ek; [discriminate|].
  destruct (sequence_exn _) as [e|l] eqn:Es; [discriminate|].
  intros Hr. injection Hr as <-.
  apply Hk in Ek. rewrite length_map in Ek.
  apply sequence_exn_inr in Es.
  assert (Hlen : length l = length (where_noise labels)).
  { rewrite <- Ek. apply (f_equal (@length _)) in Es.
    rewrite !length_map in Es. symmetry. exact Es. }
  assert (Hl : Forall (fun v => v <> (-1)%Z) l).
  { apply Forall_forall. intros v Hv.
    assert (Hin : In (inr v) (map first_labelled
                     (map (map (fun j => nth j labels 0%Z)) indices))).
    { rewrite Es. apply in_map. exact Hv. }
    apply in_map_iff in Hin. destruct Hin as [n [Hfl _]].
    eapply first_labelled_inr. exact Hfl. }
  assert (Ho : Forall (fun i => i < length labels) (where_noise labels)).
  { apply Forall_forall. intros i Hi. apply where_noise_spec in Hi. tauto. }
  split; [apply length_assign_at; exact Ho|]. split.
  - intros j Hj. apply (assign_at_all (fun v => v <> (-1)%Z)); try assumption.
    destruct (Z.eq_dec (nth j labels 0%Z) (-1)) as [Eq|Ne]; [left|right; exact Ne].
    apply where_noise_spec. split; assumption.
  - intros j Hj. apply assign_at_other; [exact Ho|].
    intros Hin. apply where_noise_spec in Hin. tauto.
Qed.

End SnapOutliers.

Lemma snap_outliers_leaves_no_noise_witness :
  let labels := dbscan (4 # 3) 3 two_rows in
  let labels' := (repeat 0 25 ++ repeat 1 25 ++ [0; 1])%Z%list in
  labels = (repeat 0 25 ++ repeat 1 25 ++ [-1; -1])%Z%list
  /\ (forall k X Y idx, nearest_neighbors k X Y = inr idx -> length idx = length Y)
  /\ 1 < length (where_noise labels)
  /\ snap_outliers nearest_neighbors two_rows labels = inr labels'
  /\ length labels' = length labels
  /\ (forall j, j < length labels -> nth j labels' 0%Z <> (-1)%Z).
Proof.
  intros labels labels'.
  assert (Hd : labels = (repeat 0 25 ++ repeat 1 25 ++ [-1; -1])%Z%list)
    by (vm_compute; reflexivity).
  assert (Hk : forall k X Y idx,
             nearest_neighbors k X Y = inr idx -> length idx = length Y).
  { intros k X Y idx E. unfold nearest_neighbors in E.
    destruct (length X <? k); [discriminate|]. injection E as <-.
    apply length_map. }
  assert (Hn : 1 < length (where_noise labels)) by (rewrite Hd; vm_compute; lia).
  assert (Hr : snap_outliers nearest_neighbors two_rows labels = inr labels')
    by (vm_compute; reflexivity).
  split; [exact Hd|]. split; [exact Hk|]. split; [exact Hn|]. split; [exact Hr|].
  pose proof (snap_outliers_leaves_no_noise nearest_neighbors two_rows labels labels'
                Hk Hn Hr) as K.
  split; [exact (proj1 K)|exact (proj1 (proj2 K))].
Defined.

(** ** The 3D stepping kernel *)

Section Steps3DProps.
Context {F : Type} `{Scalar F}.

Lemma shape_steps3D_pixel (dP p : ndarray F) (i : index) :
  shape (Kernels.steps3D_pixel dP p i) = shape p.
Proof. reflexivity. Qed.

Lemma steps3D_pixel_other (dP p : ndarray F) (i j : index) (c : Z) :
  j <> i -> item (Kernels.steps3D_pixel dP p i) (c :: j) = item p (c :: j).
Proof.
  intros Hne. unfold Kernels.steps3D_pixel.
  cbn [seq fold_left set_item item index_eqb].
  rewrite (index_eqb_neq j i Hne), !andb_false_r. reflexivity.
Qed.

Lemma steps3D_pixel_at (dP p : ndarray F) (i : index) (k : nat) :
  k < 3 ->
  item (Kernels.steps3D_pixel dP p i) (Z.of_nat k :: i)
  = fmin (fsub (f_of_Z (Z.of_nat (nth k (tl (shape p)) 0))) fone)
         (fmax fzero
               (fadd (item p (Z.of_nat k :: i))
                     (item dP (Z.of_nat k
                               :: map (fun k => ftrunc (item p (Z.of_nat k :: i)))
                                      (seq 0 3))))).
Proof.
  intros Hk. unfold Kernels.steps3D_pixel.
  destruct k as [|[|[|k]]]; [| | |lia];
    cbn [seq fold_left set_item item index_eqb shape Z.of_nat Pos.of_succ_nat
         Pos.succ Z.eqb Pos.eqb];
    rewrite ?index_eqb_refl; cbn [andb]; reflexivity.
Qed.

Lemma shape_steps3D_sweep (dP : ndarray F) (inds : list index) : forall p,
  shape (fold_left (Kernels.steps3D_pixel dP) inds p) = shape p.
Proof.
  induction inds as [|i inds IH]; intros p; [reflexivity|].
  cbn [fold_left]. rewrite IH. apply shape_steps3D_pixel.
Qed.

Lemma shape_steps3D (p dP : ndarray F) (inds : list index) (niter : nat) :
  shape (fst (Kernels.steps3D p dP inds niter)) = shape p.
Proof.
  unfold Kernels.steps3D. cbn [fst].
  induction niter as [|n IH]; [reflexivity|].
  cbn [Nat.iter nat_rect]. rewrite shape_steps3D_sweep. exact IH.
Qed.

Lemma steps3D_sweep_other (dP : ndarray F) (j : index) (c : Z) (inds : list index) :
  ~ In j inds ->
  forall p, item (fold_left (Kernels.steps3D_pixel dP) inds p) (c :: j) = item p (c :: j).
Proof.
  induction inds as [|i inds IH]; intros Hj p; [reflexivity|].
  cbn [fold_left]. rewrite IH by (intros Hin; apply Hj; right; exact Hin).
  apply steps3D_pixel_other. intros ->. apply Hj. left. reflexivity.
Qed.

(** A property of the coordinate [k] of pixel [i] that every visit of [i]
    establishes holds after a sweep over any list of pixels containing [i]. *)
Lemma steps3D_sweep_establishes (dP : ndarray F) (i : index) (k : nat)
  (P : ndarray F -> Prop) :
  (forall p j, j <> i -> P p -> P (Kernels.steps3D_pixel dP p j)) ->
  (forall p, P (Kernels.steps3D_pixel dP p i)) ->
  forall inds, In i inds ->
  forall p, P (fold_left (Kernels.steps3D_pixel dP) inds p).
Proof.
  intros Hpres Hest.
  assert (Hkeep : forall inds p, P p -> P (fold_left (Kernels.steps3D_pixel dP) inds p)).
  { induction inds as [|j inds IH]; intros p Hp; [exact Hp|].
    cbn [fold_left]. apply IH.
    destruct (list_eq_dec Z.eq_dec j i) as [->|Hne]; [apply Hest|].
    apply Hpres; assumption. }
  induction inds as [|j inds IH]; intros Hin p; [destruct Hin|].
  cbn [fold_left]. destruct (list_eq_dec Z.eq_dec j i) as [->|Hne].
  - apply Hkeep. apply Hest.
  - destruct Hin as [E|Hin]; [congruence|]. apply IH. exact Hin.
Qed.

(** X16.  [steps3D] keeps the shape of [p] and moves the seed pixels only: the
    entries of [p] at a pixel that is not in [inds] are the ones it was
    given, whatever the flow and the number of iterations. *)
Theorem steps3D_moves_seeds_only (p dP : ndarray F) (inds : list index) (niter : nat) :
  shape (fst (Kernels.steps3D p dP inds niter)) = shape p
  /\ forall (c : Z) (j : index), ~ In j inds ->
       item (fst (Kernels.steps3D p dP inds niter)) (c :: j) = item p (c :: j).
Proof.
  split; [apply shape_steps3D|].
  intros c j Hj. unfold Kernels.steps3D. cbn [fst].
  induction niter as [|n IH]; [reflexivity|].
  cbn [Nat.iter nat_rect]. rewrite steps3D_sweep_other by exact Hj. exact IH.
Qed.

End Steps3DProps.

Lemma steps3D_moves_seeds_only_witness :
  ~ In [0; 0; 1]%Z [[0; 0; 0]%Z]
  /\ item (fst (Kernels.steps3D (F := Q) (full [3; 1; 1; 2] (1 # 2)%Q)
                                (full [3; 1; 1; 2] (1 # 4)%Q) [[0; 0; 0]%Z] 2))
          [2; 0; 0; 1]%Z
     = (1 # 2)%Q.
Proof.
  assert (Hn : ~ In [0; 0; 1]%Z [[0; 0; 0]%Z]) by (intros [E|[]]; discriminate E).
  split; [exact Hn|].
  exact (proj2 (steps3D_moves_seeds_only (full [3; 1; 1; 2] (1 # 2)%Q)
                  (full [3; 1; 1; 2] (1 # 4)%Q) [[0; 0; 0]%Z] 2)
               2%Z [0; 0; 1]%Z Hn).
Defined.

(** ** Clamping keeps the points inside the image (exact rationals) *)

Lemma Qclamp_bounds (lo hi x : Q) :
  (lo <= hi)%Q ->
  (lo <= fmin hi (fmax lo x))%Q /\ (fmin hi (fmax lo x) <= hi)%Q.
Proof.
  intros Hlh. cbn [fmin fmax Scalar_Q].
  destruct (Qlt_le_dec lo x) as [Hlx|Hxl].
  - destruct (Qlt_le_dec x hi) as [Hxh|Hhx].
    + split; [apply Qlt_le_weak; exact Hlx|apply Qlt_le_weak; exact Hxh].
    + split; [exact Hlh|apply Qle_refl].
  - destruct (Qlt_le_dec lo hi) as [Hl|Hh].
    + split; [apply Qle_refl|exact Hlh].
    + split; [exact Hlh|apply Qle_refl].
Qed.

Lemma extent_nonneg (n : nat) :
  1 <= n -> (fzero <= fsub (f_of_Z (Z.of_nat n)) fone)%Q.
Proof.
  intros Hn. cbn [fsub f_of_Z Scalar_Q]. unfold fzero, fone. cbn [f_of_Z Scalar_Q].
  unfold Qminus. rewrite <- inject_Z_opp, <- inject_Z_plus, <- Zle_Qle. lia.
Qed.

(** X17.  After at least one iteration of [steps3D], every coordinate of a seed
    pixel lies in the volume: between 0 and the extent of its axis minus
    one (for an axis of extent at least 1). *)
Theorem steps3D_within_volume (p dP : ndarray Q) (inds : list index) (niter k : nat)
  (i : index) :
  1 <= niter -> In i inds -> k < 3 -> 1 <= nth k (tl (shape p)) 0 ->
  let x := item (fst (Kernels.steps3D p dP inds niter)) (Z.of_nat k :: i) in
  (0 <= x)%Q /\ (x <= inject_Z (Z.of_nat (nth k (tl (shape p)) 0%nat)) - 1)%Q.
Proof.
  intros Hn Hi Hk Hext x. subst x.
  destruct niter as [|n]; [lia|].
  unfold Kernels.steps3D. cbn [fst Nat.iter nat_rect].
  set (p' := nat_rect _ _ _ n).
  assert (Hs : shape p' = shape p) by apply (shape_steps3D p dP inds n).
  set (P := fun a : ndarray Q =>
              shape a = shape p
              /\ (0 <= item a (Z.of_nat k :: i))%Q
              /\ (item a (Z.of_nat k :: i)
                  <= inject_Z (Z.of_nat (nth k (tl (shape p)) 0%nat)) - 1)%Q).
  assert (HP : forall q, shape q = shape p ->
                         P (fold_left (Kernels.steps3D_pixel dP) inds q)).
  { intros q Hq.
    assert (HP' : (fun a => shape a = shape p -> P a)
                    (fold_left (Kernels.steps3D_pixel dP) inds q)).
    { apply (steps3D_sweep_establishes dP i k
               (fun a => shape a = shape p -> P a)); [| |exact Hi].
      - intros a j Hne Ha Hsa. rewrite shape_steps3D_pixel in Hsa.
        destruct (Ha Hsa) as [_ [H0 H1]]. unfold P.
        rewrite steps3D_pixel_other by (intros E; apply Hne; symmetry; exact E).
        rewrite shape_steps3D_pixel. auto.
      - intros a Hsa. rewrite shape_steps3D_pixel in Hsa. unfold P.
        rewrite shape_steps3D_pixel, steps3D_pixel_at by exact Hk.
        rewrite Hsa. split; [reflexivity|].
        exact (Qclamp_bounds fzero _ _ (extent_nonneg _ Hext)). }
    apply HP'. rewrite shape_steps3D_sweep. exact Hq. }
  destruct (HP p' Hs) as [_ [H0 H1]]. split; assumption.
Qed.

Lemma steps3D_within_volume_witness :
  1 <= 2 /\ In [0; 0; 0]%Z [[0; 0; 0]%Z] /\ 2 < 3
  /\ Qle (item (fst (Kernels.steps3D (full [3; 1; 1; 2] (1 # 2)%Q)
                                    (full [3; 1; 1; 2] (3 # 1)%Q) [[0; 0; 0]%Z] 2))
              [2; 0; 0; 0]%Z) 1%Q.
Proof.
  assert (Hn : 1 <= 2) by lia.
  assert (Hi : In [0; 0; 0]%Z [[0; 0; 0]%Z]) by (left; reflexivity).
  assert (Hk : 2 < 3) by lia.
  split; [exact Hn|]. split; [exact Hi|]. split; [exact Hk|].
  assert (He : 1 <= nth 2 (tl (shape (full [3; 1; 1; 2] (1 # 2)%Q))) 0)
    by (cbn; lia).
  exact (proj2 (steps3D_within_volume (full [3; 1; 1; 2] (1 # 2)%Q)
                  (full [3; 1; 1; 2] (3 # 1)%Q) [[0; 0; 0]%Z] 2 2 [0; 0; 0]%Z
                  Hn Hi Hk He)).
Defined.

Lemma nth_combine_lt {A B} (da : A) (db : B) (a : list A) : forall (b : list B) k,
  k < length (combine a b) ->
  nth k (combine a b) (da, db) = (nth k a da, nth k b db).
Proof.
  induction a as [|x a IH]; intros [|y b] [|k] Hk; simpl in Hk; try lia;
    [reflexivity|].
  cbn [combine nth]. apply IH. lia.
Qed.

Section CpuStepping.
Variable grid_sample : ndarray Q -> points Q -> list (list Q).
Variable TORCH_ENABLED : bool.

Lemma cpu_step_within_image (dP : ndarray Q) (omni : bool) (t : nat) (p : points Q)
  (q : list Q) (k : nat) :
  In q (cpu_step dP omni t p) -> k < length q ->
  1 <= nth k (tl (shape dP)) 0 ->
  Qle 0 (nth k q 0%Q)
  /\ Qle (nth k q 0%Q) (inject_Z (Z.of_nat (nth k (tl (shape dP)) 0%nat)) - 1)%Q.
Proof.
  unfold cpu_step. intros Hq Hk Hext.
  apply in_map_iff in Hq. destruct Hq as [q0 [<- _]].
  set (dPt := if omni && OMNI_INSTALLED then _ else _) in *.
  rewrite length_map in Hk.
  set (f := fun xs : Q * (Q * nat) => _).
  rewrite (nth_indep _ 0%Q (f (0%Q, (0%Q, 0)))) by (rewrite length_map; exact Hk).
  rewrite (map_nth f).
  rewrite (nth_combine_lt 0%Q (0%Q, 0)) by exact Hk.
  assert (Hk' : k < length (combine dPt (tl (shape dP)))).
  { rewrite length_combine in Hk. lia. }
  rewrite (nth_combine_lt 0%Q 0) by exact Hk'.
  unfold f.
  exact (Qclamp_bounds fzero _ _ (extent_nonneg _ Hext)).
Qed.

(** X14.  On the CPU path of [steps_interp], after at least one iteration every
    coordinate of every point lies in the image: between 0 and the extent of
    its axis minus one (for an axis of extent at least 1).  The number of
    points is the one given. *)
Theorem steps_interp_cpu_within_image (p : points Q) (dP : ndarray Q) (niter : nat)
  (use_gpu omni calc_trace : bool) (q : list Q) (k : nat) :
  use_gpu && TORCH_ENABLED = false ->
  1 <= niter ->
  In q (fst (steps_interp grid_sample TORCH_ENABLED p dP niter use_gpu omni calc_trace)) ->
  k < length q ->
  1 <= nth k (tl (shape dP)) 0 ->
  length (fst (steps_interp grid_sample TORCH_ENABLED p dP niter use_gpu omni calc_trace))
  = length p
  /\ Qle 0 (nth k q 0%Q)
  /\ Qle (nth k q 0%Q) (inject_Z (Z.of_nat (nth k (tl (shape dP)) 0%nat)) - 1)%Q.
Proof.
  intros Hcpu Hn. unfold steps_interp. rewrite Hcpu. cbn [fst].
  intros Hq Hk Hext. split.
  - clear Hq Hn. induction niter as [|n IH]; [reflexivity|].
    cbn [cpu_run]. unfold cpu_step at 1. rewrite length_map. exact IH.
  - destruct niter as [|n]; [lia|]. cbn [cpu_run] in Hq.
    eapply cpu_step_within_image; eassumption.
Qed.

End CpuStepping.

Lemma steps_interp_cpu_within_image_witness :
  false && true = false
  /\ 1 <= 1
  /\ In [0%Q; 1%Q]
        (fst (steps_interp (fun _ _ => []) true [[0%Q; 0%Q]]
                           (full [2; 1; 2] (5 # 2)%Q) 1 false false false))
  /\ 1 < length [0%Q; 1%Q]
  /\ Qle (nth 1 [0%Q; 1%Q] 0%Q) (inject_Z (Z.of_nat 2) - 1)%Q.
Proof.
  assert (Hc : false && true = false) by reflexivity.
  assert (Hn : 1 <= 1) by lia.
  assert (Hq : In [0%Q; 1%Q]
                  (fst (steps_interp (fun _ _ => []) true [[0%Q; 0%Q]]
                                     (full [2; 1; 2] (5 # 2)%Q) 1 false false false)))
    by (left; reflexivity).
  assert (Hk : 1 < length [0%Q; 1%Q]) by (simpl; lia).
  assert (He : 1 <= nth 1 (tl (shape (full [2; 1; 2] (5 # 2)%Q))) 0) by (simpl; lia).
  split; [exact Hc|]. split; [exact Hn|]. split; [exact Hq|]. split; [exact Hk|].
  exact (proj2 (proj2 (steps_interp_cpu_within_image (fun _ _ => []) true
                         [[0%Q; 0%Q]] (full [2; 1; 2] (5 # 2)%Q) 1 false false false
                         [0%Q; 1%Q] 1 Hc Hn Hq Hk He))).
Defined.

(** ** Bilinear interpolation on the grid *)

Lemma Forall2_map_pointwise {A B} (R : B -> B -> Prop) (f g : A -> B) (l : list A) :
  (forall x, R (f x) (g x)) -> Forall2 R (map f l) (map g l).
Proof.
  intros Hfg. induction l as [|x l IH]; cbn [map]; constructor; auto.
Qed.

Lemma ftrunc_inject_Z (a : Z) : (0 <= a)%Z -> ftrunc (inject_Z a) = a.
Proof.
  intros Ha. cbn [ftrunc Scalar_Q].
  destruct (Qlt_le_dec (inject_Z a) 0) as [Hlt|_].
  - exfalso. change 0%Q with (inject_Z 0) in Hlt. rewrite <- Zlt_Qlt in Hlt. lia.
  - apply Qfloor_Z.
Qed.

(** X13.  At a point with integer coordinates inside the image, the bilinear
    interpolation of [map_coordinates] gives, for every channel, the value of
    the image at that pixel (as rational numbers). *)
Theorem map_coordinates_on_grid (I : ndarray Q) (a b : Z) :
  (0 <= a < Z.of_nat (nth 1 (shape I) 0%nat))%Z ->
  (0 <= b < Z.of_nat (nth 2 (shape I) 0%nat))%Z ->
  Forall2 Qeq (map_coordinates I (inject_Z a) (inject_Z b))
              (map (fun c => item I [Z.of_nat c; a; b]) (seq 0 (nth 0 (shape I) 0))).
Proof.
  intros Ha Hb. unfold map_coordinates. cbv zeta.
  rewrite !ftrunc_inject_Z by lia.
  rewrite !(Z.max_r 0) by lia.
  rewrite (Z.min_r _ a), (Z.min_r _ b) by lia.
  apply Forall2_map_pointwise. intros c.
  cbn [fadd fsub fmul Scalar_Q]. unfold fone. cbn [f_of_Z Scalar_Q].
  set (y := (inject_Z a - inject_Z a)%Q).
  set (x := (inject_Z b - inject_Z b)%Q).
  assert (Hy : (y == 0)%Q) by (unfold y; ring).
  assert (Hx : (x == 0)%Q) by (unfold x; ring).
  rewrite Hy, Hx. change (inject_Z 1) with 1%Q. ring.
Qed.

Lemma map_coordinates_on_grid_witness :
  (0 <= 1 < Z.of_nat (nth 1 (shape grid_image) 0%nat))%Z
  /\ (0 <= 2 < Z.of_nat (nth 2 (shape grid_image) 0%nat))%Z
  /\ Forall2 Qeq (map_coordinates grid_image (inject_Z 1) (inject_Z 2))
                 (map (fun c => item grid_image [Z.of_nat c; 1; 2]%Z)
                      (seq 0 (nth 0 (shape grid_image) 0))).
Proof.
  assert (Ha : (0 <= 1 < Z.of_nat (nth 1 (shape grid_image) 0%nat))%Z)
    by (simpl; lia).
  assert (Hb : (0 <= 2 < Z.of_nat (nth 2 (shape grid_image) 0%nat))%Z)
    by (simpl; lia).
  split; [exact Ha|]. split; [exact Hb|].
  exact (map_coordinates_on_grid grid_image 1 2 Ha Hb).
Defined.

(** ** Renumbering labels by rank *)

Lemma insert_sorted_In (x y : Z) (l : list Z) :
  In y (insert_sorted x l) <-> y = x \/ In y l.
Proof.
  induction l as [|z l IH]; cbn [insert_sorted].
  - simpl. intuition.
  - destruct (x <=? z)%Z; simpl in *; intuition.
Qed.

Lemma insert_sorted_sorted (x : Z) (l : list Z) :
  StronglySorted Z.le l -> StronglySorted Z.le (insert_sorted x l).
Proof.
  induction l as [|z l IH]; intros Hs; cbn [insert_sorted].
  - constructor; constructor.
  - inversion Hs as [|? ? Hs' Hz]; subst.
    destruct (Z.leb_spec x z) as [Hle|Hgt].
    + constructor; [exact Hs|]. constructor; [exact Hle|].
      eapply Forall_impl; [|exact Hz]. intros w Hw. cbv beta in Hw. lia.
    + constructor; [apply IH; exact Hs'|].
      apply Forall_forall. intros w Hw. apply insert_sorted_In in Hw.
      destruct Hw as [->|Hw]; [lia|].
      rewrite Forall_forall in Hz. apply Hz. exact Hw.
Qed.

Lemma sort_Z_In (y : Z) (l : list Z) : In y (sort_Z l) <-> In y l.
Proof.
  induction l as [|x l IH]; cbn [sort_Z fold_right]; [tauto|].
  fold (sort_Z l). rewrite insert_sorted_In, IH. simpl. intuition.
Qed.

Lemma sort_Z_sorted (l : list Z) : StronglySorted Z.le (sort_Z l).
Proof.
  induction l as [|x l IH]; cbn [sort_Z fold_right]; [constructor|].
  apply insert_sorted_sorted. exact IH.
Qed.

Lemma dedup_sorted_In (y : Z) (l : list Z) : In y (dedup_sorted l) <-> In y l.
Proof.
  induction l as [|x [|z r] IH]; [tauto|tauto|].
  change (dedup_sorted (x :: z :: r))
    with (if (x =? z)%Z then dedup_sorted (z :: r) else x :: dedup_sorted (z :: r)).
  destruct (Z.eqb_spec x z) as [->|Hne].
  - rewrite IH. simpl. intuition.
  - cbn [In]. rewrite IH. simpl. intuition.
Qed.

Lemma dedup_sorted_strict (l : list Z) :
  StronglySorted Z.le l -> StronglySorted Z.lt (dedup_sorted l).
Proof.
  induction l as [|x [|z r] IH]; intros Hs.
  - constructor.
  - constructor; constructor.
  - change (dedup_sorted (x :: z :: r))
      with (if (x =? z)%Z then dedup_sorted (z :: r) else x :: dedup_sorted (z :: r)).
    inversion Hs as [|? ? Hs' Hx]; subst.
    destruct (Z.eqb_spec x z) as [->|Hne]; [apply IH; exact Hs'|].
    constructor; [apply IH; exact Hs'|].
    apply Forall_forall. intros w Hw. apply (proj1 (dedup_sorted_In _ _)) in Hw.
    inversion Hx as [|? ? Hxz Hxr]; subst.
    inversion Hs' as [|? ? _ Hzr]; subst.
    destruct Hw as [<-|Hw]; [lia|].
    rewrite Forall_forall in Hzr. specialize (Hzr w Hw). cbv beta in Hzr. lia.
Qed.

Lemma unique_In (y : Z) (l : list Z) : In y (unique l) <-> In y l.
Proof. unfold unique. rewrite dedup_sorted_In. apply sort_Z_In. Qed.

Lemma unique_strict (l : list Z) : StronglySorted Z.lt (unique l).
Proof. apply dedup_sorted_strict. apply sort_Z_sorted. Qed.

Lemma index_of_range (v : Z) (u : list Z) :
  In v u -> (0 <= index_of v u < Z.of_nat (length u))%Z.
Proof.
  induction u as [|x u IH]; intros Hv; [destruct Hv|].
  cbn [index_of length]. destruct (Z.eqb_spec x v) as [_|Hne]; [lia|].
  destruct Hv as [E|Hv]; [congruence|]. specialize (IH Hv). lia.
Qed.

Lemma index_of_nonneg (v : Z) (u : list Z) : (0 <= index_of v u)%Z.
Proof.
  induction u as [|x u IH]; cbn [index_of]; [lia|].
  destruct (x =? v)%Z; lia.
Qed.

(** In a strictly increasing list the position of a member grows with it. *)
Lemma index_of_monotone (u : list Z) :
  StronglySorted Z.lt u ->
  forall v w, In v u -> In w u ->
  ((index_of v u < index_of w u)%Z <-> (v < w)%Z).
Proof.
  induction u as [|x u IH]; intros Hs v w Hv Hw; [destruct Hv|].
  inversion Hs as [|? ? Hs' Hx]; subst. rewrite Forall_forall in Hx.
  cbn [index_of].
  destruct (Z.eqb_spec x v) as [Ev|Nv]; destruct (Z.eqb_spec x w) as [Ew|Nw].
  - subst. lia.
  - subst v. destruct Hw as [E|Hw]; [congruence|].
    specialize (Hx w Hw). pose proof (index_of_nonneg w u). lia.
  - subst w. destruct Hv as [E|Hv]; [congruence|].
    specialize (Hx v Hv). pose proof (index_of_nonneg v u). lia.
  - destruct Hv as [E|Hv]; [congruence|]. destruct Hw as [E|Hw]; [congruence|].
    specialize (IH Hs' v w Hv Hw). lia.
Qed.

Lemma item_in_ravel {A} (a : ndarray A) (i : index) :
  In i (ndindex (shape a)) -> In (item a i) (ravel a).
Proof. intros Hi. unfold ravel. apply in_map. exact Hi. Qed.

(** X20.  The renumbering [np.unique(a, return_inverse=True)[1]] replaces every
    label by its rank among the distinct values of the array: the ranks are
    the numbers from 0 below the number of distinct values, and two pixels
    compare by rank as they compare by label (so equal ranks mean equal
    labels, and rank 0 is the smallest label, whether or not it is 0). *)
Theorem unique_inverse_ranks (a : ndarray Z) (i j : index) :
  In i (ndindex (shape a)) -> In j (ndindex (shape a)) ->
  (0 <= item (unique_inverse a) i < Z.of_nat (length (unique (ravel a))))%Z
  /\ ((item (unique_inverse a) i < item (unique_inverse a) j)%Z
      <-> (item a i < item a j)%Z)
  /\ (item (unique_inverse a) i = item (unique_inverse a) j <-> item a i = item a j).
Proof.
  intros Hi Hj. unfold unique_inverse. cbn [item].
  assert (Hiu : In (item a i) (unique (ravel a)))
    by (apply unique_In, item_in_ravel; exact Hi).
  assert (Hju : In (item a j) (unique (ravel a)))
    by (apply unique_In, item_in_ravel; exact Hj).
  pose proof (index_of_monotone _ (unique_strict (ravel a)) _ _ Hiu Hju) as Hij.
  pose proof (index_of_monotone _ (unique_strict (ravel a)) _ _ Hju Hiu) as Hji.
  split; [apply index_of_range; exact Hiu|]. split; [exact Hij|].
  split; [lia|]. intros ->. reflexivity.
Qed.

Lemma unique_inverse_ranks_witness :
  In [1; 3]%Z (ndindex (shape labels_24))
  /\ In [1; 5]%Z (ndindex (shape labels_24))
  /\ ((item (unique_inverse labels_24) [1; 3]%Z
       < item (unique_inverse labels_24) [1; 5]%Z)%Z
      <-> (item labels_24 [1; 3]%Z < item labels_24 [1; 5]%Z)%Z).
Proof.
  assert (Hi : In [1; 3]%Z (ndindex (shape labels_24))) by (vm_compute; tauto).
  assert (Hj : In [1; 5]%Z (ndindex (shape labels_24))) by (vm_compute; tauto).
  split; [exact Hi|]. split; [exact Hj|].
  exact (proj1 (proj2 (unique_inverse_ranks labels_24 [1; 3]%Z [1; 5]%Z Hi Hj))).
Defined.

(** ** What the consistency filter can change *)

Section FilterFrame.
Context {F : Type} `{Scalar F} `{Elementary F}.
Variable normalize_field : list (list F) -> list (list F).
Variable edt : ndarray Z -> ndarray F.
Variable format_labels : ndarray Z -> ndarray Z.

(** X22.  When [remove_bad_flow_masks] returns, it returns the array it was given
    (the same reference, changed in place); no other array of the store is
    touched; the array keeps its shape; every pixel keeps its label or
    becomes 0; so the instances left are among the instances given, and
    there are no more of them. *)
Theorem remove_bad_flow_masks_only_zeroes (h h' : heap) (a a' : addr)
  (flows : ndarray F) (threshold : F) (omni : bool) :
  outcome (remove_bad_flow_masks normalize_field edt format_labels
             h a flows threshold omni) = inr (a', h') ->
  a' = a
  /\ (forall b, b <> a -> h' b = h b)
  /\ shape (h' a) = shape (h a)
  /\ (forall i, item (h' a) i = item (h a) i \/ item (h' a) i = 0%Z)
  /\ incl (instance_labels (h' a)) (instance_labels (h a))
  /\ n_instances (h' a) <= n_instances (h a).
Proof.
  unfold outcome.
  destruct (remove_bad_flow_masks normalize_field edt format_labels
              h a flows threshold omni) as [r l] eqn:E.
  cbn [fst]. intros ->.
  apply remove_bad_flow_masks_inv in E.
  destruct E as [merrors [dPm [_ [-> ->]]]].
  assert (Ha : heap_set h a (zero_bad (h a) (bad_labels merrors threshold)) a
               = zero_bad (h a) (bad_labels merrors threshold)).
  { unfold heap_set. rewrite Nat.eqb_refl. reflexivity. }
  split; [reflexivity|]. split.
  - intros b Hb. unfold heap_set.
    destruct (Nat.eqb_spec b a) as [Eb|_]; [contradiction|reflexivity].
  - rewrite Ha. split; [reflexivity|].
    split; [intros i; apply zero_bad_keep_or_zero|].
    apply zero_bad_instances.
Qed.

End FilterFrame.

Lemma remove_bad_flow_masks_only_zeroes_witness :
  outcome (remove_bad_flow_masks normalize_unit unit_edt (fun x => x)
             (fun _ => labels_124) 0%nat flows_124 (Fin (2 / 5)) true)
  = inr (0%nat, heap_set (fun _ => labels_124) 0%nat (zero_bad labels_124 [1; 3]%Z))
  /\ n_instances (heap_set (fun _ => labels_124) 0%nat
                           (zero_bad labels_124 [1; 3]%Z) 0%nat)
     <= n_instances labels_124.
Proof.
  assert (Ho : outcome (remove_bad_flow_masks normalize_unit unit_edt (fun x => x)
                          (fun _ => labels_124) 0%nat flows_124 (Fin (2 / 5)) true)
               = inr (0%nat, heap_set (fun _ => labels_124) 0%nat
                                      (zero_bad labels_124 [1; 3]%Z)))
    by (rewrite filter_labels_124; reflexivity).
  split; [exact Ho|].
  exact (proj2 (proj2 (proj2 (proj2 (proj2
           (remove_bad_flow_masks_only_zeroes normalize_unit unit_edt (fun x => x)
              (fun _ => labels_124) _ 0%nat 0%nat flows_124 (Fin (2 / 5)) true Ho)))))).
Defined.

(** ** The length of the error vector *)





Section ErrorVector.
Context {F : Type} `{Scalar F} `{Elementary F}.
Variable normalize_field : list (list F) -> list (list F).
Variable edt : ndarray Z -> ndarray F.
Variable format_labels : ndarray Z -> ndarray Z.



End ErrorVector.


(** ** Following the flow: the two remaining paths *)

Section FollowFlowsPaths.
Context {F : Type} `{Scalar F}.
Variable grid_sample : ndarray F -> points F -> list (list F).
Variable TORCH_ENABLED : bool.
Variable steps2D : ndarray F -> ndarray F -> list index -> nat -> bool -> bool
                   -> ndarray F * option (list (points F)).
Variable steps3D : ndarray F -> ndarray F -> list index -> nat
                   -> ndarray F * option (list (points F)).

Lemma item_scatter_points_out (inds : list index) (vals : points F) (x : index)
  (cs : list nat) :
  (forall c i, x = c :: i -> ~ In i inds) ->
  forall p : ndarray F,
  item (fold_left (fun acc c => scatter acc (map (cons (Z.of_nat c)) inds)
                                        (map (fun q => nth c q fzero) vals)) cs p) x
  = item p x.
Proof.
  intros Hx. induction cs as [|c cs IH]; intros p; [reflexivity|].
  cbn [fold_left]. rewrite IH. apply item_scatter_out.
  intros Hin. apply in_map_iff in Hin. destruct Hin as [i [E Hi]].
  exact (Hx _ _ (eq_sym E) Hi).
Qed.

Lemma shape_scatter_points (d : nat) (inds : list index) (vals : points F)
  (p : ndarray F) :
  shape (scatter_points d p inds vals) = shape p.
Proof.
  unfold scatter_points. generalize (seq 0 d). intros cs. revert p.
  induction cs as [|c cs IH]; intros p; [reflexivity|].
  cbn [fold_left]. rewrite IH. apply shape_scatter.
Qed.

(** X18.  With [interp] off, five seed pixels or more and a flow that has neither
    2 nor 3 components, [follow_flows] logs its two warnings and then fails
    on the unbound [tr] of its [return]: it raises [UnboundLocalError], and
    no stepper has been called. *)
Theorem follow_flows_no_kernel (dP : ndarray F) (mask : option (ndarray bool))
  (inds : option (list index)) (niter : Z) (use_gpu omni calc_trace : bool) :
  5 <= length (seed_inds dP mask inds omni) ->
  nth 0 (shape dP) 0 <> 2 -> nth 0 (shape dP) 0 <> 3 ->
  let r := follow_flows grid_sample TORCH_ENABLED steps2D steps3D
                        dP mask inds niter false use_gpu omni calc_trace in
  outcome r = inl UnboundLocalError
  /\ events r = [Warning "WARNING: not interp";
                 Warning "No non-interp code available for non-2D or -3D inputs."]
  /\ invokes (events r) = [].
Proof.
  intros Hl H2 H3 r. subst r. unfold follow_flows.
  apply Nat.ltb_ge in Hl. rewrite Hl.
  apply Nat.eqb_neq in H2. apply Nat.eqb_neq in H3. rewrite H2, H3.
  cbn [negb]. repeat split.
Qed.

(** X19.  On the interpolated path, for a flow over a 2D image (two
    components, [2 x Ly x Lx]) and five seed pixels or more, all of them
    pixels of the image, [follow_flows] calls [steps_interp] and no other
    stepper, and returns the seed pixels it used and a point array of the
    shape of the flow in which every pixel that is not a seed still holds its
    own integer coordinates. *)
Theorem follow_flows_interp_moves_seeds_only (dP : ndarray F)
  (mask : option (ndarray bool)) (inds : option (list index)) (niter : Z)
  (use_gpu omni calc_trace : bool) :
  5 <= length (seed_inds dP mask inds omni) ->
  length (shape dP) = 3 -> nth 0 (shape dP) 0 = 2 ->
  forallb (in_bounds (tl (shape dP))) (seed_inds dP mask inds omni) = true ->
  let r := follow_flows grid_sample TORCH_ENABLED steps2D steps3D
                        dP mask inds niter true use_gpu omni calc_trace in
  invokes (events r) = [St_steps_interp]
  /\ exists p tr,
       outcome r = inr (p, seed_inds dP mask inds omni, tr)
       /\ shape p = 2 :: tl (shape dP)
       /\ forall (c : nat) (i : index),
            ~ In i (seed_inds dP mask inds omni) ->
            item p (Z.of_nat c :: i) = f_of_Z (nth c i 0%Z).
Proof.
  intros Hl _ Hd _ r. subst r. unfold follow_flows.
  apply Nat.ltb_ge in Hl. rewrite Hl. cbn [negb].
  unfold call, bind, emit, ret, outcome, events. cbn [fst snd app].
  split; [reflexivity|].
  eexists. eexists. split; [reflexivity|]. split.
  - rewrite shape_scatter_points. cbn [shape meshgrid]. rewrite Hd. reflexivity.
  - intros c i Hi. unfold scatter_points.
    rewrite item_scatter_points_out.
    + apply meshgrid_item.
    + intros c' i' E. injection E as _ <-. exact Hi.
Qed.

End FollowFlowsPaths.

Lemma follow_flows_no_kernel_witness :
  5 <= length (seed_inds (full [1; 6] 0%Q) None (Some line_seeds) true)
  /\ nth 0 (shape (full [1; 6] 0%Q)) 0 <> 2
  /\ nth 0 (shape (full [1; 6] 0%Q)) 0 <> 3
  /\ outcome (follow_flows (fun _ pt => pt) true
                           (fun p _ _ _ _ _ => (p, None)) (fun p _ _ _ => (p, None))
                           (full [1; 6] 0%Q) None (Some line_seeds) 10
                           false false true false)
     = inl UnboundLocalError.
Proof.
  assert (Hl : 5 <= length (seed_inds (full [1; 6] 0%Q) None (Some line_seeds) true))
    by (simpl; lia).
  assert (H2 : nth 0 (shape (full [1; 6] 0%Q)) 0 <> 2) by (simpl; lia).
  assert (H3 : nth 0 (shape (full [1; 6] 0%Q)) 0 <> 3) by (simpl; lia).
  split; [exact Hl|]. split; [exact H2|]. split; [exact H3|].
  exact (proj1 (follow_flows_no_kernel (fun _ pt => pt) true
                  (fun p _ _ _ _ _ => (p, None)) (fun p _ _ _ => (p, None))
                  (full [1; 6] 0%Q) None (Some line_seeds) 10 false true false
                  Hl H2 H3)).
Defined.

Lemma follow_flows_interp_moves_seeds_only_witness :
  let r := follow_flows (fun _ pt => pt) false
                        (fun p _ _ _ _ _ => (p, None)) (fun p _ _ _ => (p, None))
                        ramp_flow None (Some five_seeds) 10 true false true false in
  5 <= length (seed_inds ramp_flow None (Some five_seeds) true)
  /\ shape ramp_flow = [2; 3; 4]
  /\ forallb (in_bounds (tl (shape ramp_flow)))
             (seed_inds ramp_flow None (Some five_seeds) true) = true
  /\ invokes (events r) = [St_steps_interp]
  /\ exists p tr,
       outcome r = inr (p, seed_inds ramp_flow None (Some five_seeds) true, tr)
       /\ shape p = 2 :: tl (shape ramp_flow)
       /\ forall (c : nat) (i : index),
            ~ In i (seed_inds ramp_flow None (Some five_seeds) true) ->
            item p (Z.of_nat c :: i) = inject_Z (nth c i 0%Z).
Proof.
  intros r.
  assert (Hl : 5 <= length (seed_inds ramp_flow None (Some five_seeds) true))
    by (simpl; lia).
  assert (Hb : forallb (in_bounds (tl (shape ramp_flow)))
                       (seed_inds ramp_flow None (Some five_seeds) true) = true)
    by (vm_compute; reflexivity).
  split; [exact Hl|]. split; [reflexivity|]. split; [exact Hb|].
  exact (follow_flows_interp_moves_seeds_only (fun _ pt => pt) false
           (fun p _ _ _ _ _ => (p, None)) (fun p _ _ _ => (p, None))
           ramp_flow None (Some five_seeds) 10 false true false
           Hl eq_refl eq_refl Hb).
Defined.

Section TorchStepping.
Variable grid_sample : ndarray Q -> points Q -> list (list Q).

(** X15.  In the torch loop of [steps_interp] the points live in normalised
    coordinates, and every pass clamps them: after at least one pass every
    coordinate of every point lies between -1 and 1, whatever the sampler
    returns. *)
Theorem interp_run_within_unit_box (im : ndarray Q) (omni : bool)
  (s0 : interp_state) (t : nat) (q : list Q) (x : Q) :
  1 <= t ->
  In q (st_pt (interp_run grid_sample im omni s0 t)) -> In x q ->
  Qle (-1) x /\ Qle x 1.
Proof.
  intros Ht Hq Hx. destruct t as [|t]; [lia|].
  cbn [interp_run] in Hq. unfold interp_step in Hq.
  destruct (interp_dPt grid_sample im omni t (interp_run grid_sample im omni s0 t))
    as [dPt dPt0].
  cbn [st_pt] in Hq. apply in_map_iff in Hq. destruct Hq as [[q0 v] [<- _]].
  cbn [fst snd] in Hx. unfold vmap2 in Hx. apply in_map_iff in Hx.
  destruct Hx as [[x0 v0] [<- _]]. cbn [fst snd]. unfold clamp.
  assert (Hle : Qle (f_of_Z (-1)) (f_of_Z 1)).
  { cbn [f_of_Z Scalar_Q]. rewrite <- Zle_Qle. lia. }
  exact (Qclamp_bounds (f_of_Z (-1)) (f_of_Z 1) (fadd x0 v0) Hle).
Qed.

End TorchStepping.

Lemma interp_run_within_unit_box_witness :
  1 <= 1
  /\ In [1%Q] (st_pt (interp_run (fun _ pt => pt) (full [1; 2] 0%Q) false
                                 (IState [[(3 # 4)%Q]] []) 1))
  /\ In 1%Q [1%Q]
  /\ Qle 1 1.
Proof.
  assert (Ht : 1 <= 1) by lia.
  assert (Hq : In [1%Q] (st_pt (interp_run (fun _ pt => pt) (full [1; 2] 0%Q) false
                                           (IState [[(3 # 4)%Q]] []) 1)))
    by (left; reflexivity).
  assert (Hx : In 1%Q [1%Q]) by (left; reflexivity).
  split; [exact Ht|]. split; [exact Hq|]. split; [exact Hx|].
  exact (proj2 (interp_run_within_unit_box (fun _ pt => pt) (full [1; 2] 0%Q) false
                  (IState [[(3 # 4)%Q]] []) 1 [1%Q] 1%Q Ht Hq Hx)).
Defined.

(** ** Stages the orchestrator does not call *)

Lemma quiet_ret {A} (s : stage) (x : A) : quiet s (ret x).
Proof. intros []. Qed.

Lemma quiet_raise {A} (s : stage) (e : exn) : quiet s (raise (A := A) e).
Proof. intros []. Qed.

Lemma quiet_emit (s : stage) (e : event) : e <> Invoke s -> quiet s (emit e).
Proof.
  intros He Hin. unfold quiet, emit, events, invokes in Hin. cbn in Hin.
  destruct e as [m|m|m|s']; cbn in Hin; try contradiction.
  destruct Hin as [E|[]]. apply He. rewrite E. reflexivity.
Qed.

Lemma quiet_bind {A B} (s : stage) (m : Run A) (f : A -> Run B) :
  quiet s m -> (forall x, quiet s (f x)) -> quiet s (bind m f).
Proof.
  unfold quiet, events, bind. intros Hm Hf.
  destruct m as [[e|x] l]; cbn [snd] in *; [exact Hm|].
  specialize (Hf x). destruct (f x) as [r l']. cbn [snd] in *.
  rewrite invokes_app. intros Hin. apply in_app_or in Hin. tauto.
Qed.

Lemma quiet_when (s : stage) (b : bool) (m : Run unit) :
  quiet s m -> quiet s (when b m).
Proof. intros Hm. destruct b; [exact Hm|apply quiet_ret]. Qed.

Lemma quiet_call {A} (s s' : stage) (x : A) : s' <> s -> quiet s (call s' x).
Proof.
  intros Hs. unfold call. apply quiet_bind; [|intros; apply quiet_ret].
  apply quiet_emit. intros E. apply Hs. injection E as ->. reflexivity.
Qed.

Lemma quiet_lift_exn {A} (s : stage) (r : exn + A) : quiet s (lift_exn r).
Proof. destruct r; [apply quiet_raise|apply quiet_ret]. Qed.

Ltac quiet_step :=
  first
    [ apply quiet_ret
    | apply quiet_raise
    | apply quiet_lift_exn
    | apply quiet_emit; discriminate
    | apply quiet_call; discriminate
    | apply quiet_when
    | apply quiet_bind; [|intros]
    | match goal with
      | |- quiet _ (if ?b then _ else _) => destruct b
      | |- quiet _ (match ?x with _ => _ end) => destruct x
      end ].

Section QuietStages.
Context {F : Type} `{Scalar F} `{Elementary F}.
Variable SKIMAGE_ENABLED SKLEARN_ENABLED TORCH_ENABLED : bool.
Variable apply_hysteresis_threshold : ndarray F -> F -> F -> ndarray bool.
Variable grid_sample : ndarray F -> points F -> list (list F).
Variable normalize_field : list (list F) -> list (list F).
Variable edt : ndarray Z -> ndarray F.
Variable format_labels : ndarray Z -> ndarray Z.
Variable DBSCAN_fit : F -> nat -> points F -> list Z.
Variable kneighbors : nat -> points F -> points F -> exn + list (list nat).
Variable border_dilation : list nat -> nat -> ndarray bool.
Variable binary_opening : ndarray bool -> nat -> ndarray bool.
Variable measure_label : ndarray bool -> nat -> ndarray Z.
Variable scipy_label : ndarray bool -> ndarray Z.
Variable zoom : ndarray Z -> list nat -> ndarray Z.
Variable renumber : ndarray Z -> ndarray Z.
Variable div_rescale : ndarray F -> ndarray bool -> ndarray F.
Variable get_masks_cp : ndarray F -> ndarray bool -> ndarray F -> bool -> ndarray Z.
Variable fill_holes_and_remove_small_masks : ndarray Z -> Z -> nat -> ndarray Z.
Variable steps2D : ndarray F -> ndarray F -> list index -> nat -> bool -> bool
                   -> ndarray F * option (list (points F)).
Variable steps3D : ndarray F -> ndarray F -> list index -> nat
                   -> ndarray F * option (list (points F)).

Lemma quiet_follow_flows (s : stage) (dP : ndarray F) (mask : option (ndarray bool))
  (inds : option (list index)) (niter : Z) (interp use_gpu omni calc_trace : bool) :
  s <> St_steps2D -> s <> St_steps3D -> s <> St_steps_interp ->
  quiet s (follow_flows grid_sample TORCH_ENABLED steps2D steps3D
                        dP mask inds niter interp use_gpu omni calc_trace).
Proof.
  intros H2 H3 Hi. unfold follow_flows.
  repeat first [ apply quiet_call; congruence | quiet_step ].
Qed.

Lemma quiet_get_masks (s : stage) (p : ndarray F) (bd : option (ndarray F))
  (dist : ndarray F) (mask : ndarray bool) (inds : list index) (nclasses : Z)
  (cluster : bool) (diam_threshold : F) (verbose : bool) :
  quiet s (get_masks SKLEARN_ENABLED SKIMAGE_ENABLED edt DBSCAN_fit kneighbors
             border_dilation binary_opening measure_label scipy_label
             p bd dist mask inds nclasses cluster diam_threshold verbose).
Proof.
  unfold get_masks.
  destruct (if (4 <=? nclasses)%Z then _ else _) as [d eps].
  repeat quiet_step.
Qed.

Lemma quiet_threshold_mask (s : stage) (dist : ndarray F) (inds : option (list index))
  (mask_threshold : F) (omni verbose : bool) :
  s <> St_hysteresis ->
  quiet s (threshold_mask SKIMAGE_ENABLED apply_hysteresis_threshold
             dist inds mask_threshold omni verbose).
Proof.
  intros Hs. unfold threshold_mask.
  repeat first [ apply quiet_call; congruence | quiet_step ].
Qed.

End QuietStages.

Section OrchestratorStages.
Context {F : Type} `{Scalar F} `{Elementary F}.
Variable SKIMAGE_ENABLED SKLEARN_ENABLED TORCH_ENABLED : bool.
Variable apply_hysteresis_threshold : ndarray F -> F -> F -> ndarray bool.
Variable grid_sample : ndarray F -> points F -> list (list F).
Variable normalize_field : list (list F) -> list (list F).
Variable edt : ndarray Z -> ndarray F.
Variable format_labels : ndarray Z -> ndarray Z.
Variable DBSCAN_fit : F -> nat -> points F -> list Z.
Variable kneighbors : nat -> points F -> points F -> exn + list (list nat).
Variable border_dilation : list nat -> nat -> ndarray bool.
Variable binary_opening : ndarray bool -> nat -> ndarray bool.
Variable measure_label : ndarray bool -> nat -> ndarray Z.
Variable scipy_label : ndarray bool -> ndarray Z.
Variable zoom : ndarray Z -> list nat -> ndarray Z.
Variable renumber : ndarray Z -> ndarray Z.
Variable div_rescale : ndarray F -> ndarray bool -> ndarray F.
Variable get_masks_cp : ndarray F -> ndarray bool -> ndarray F -> bool -> ndarray Z.
Variable fill_holes_and_remove_small_masks : ndarray Z -> Z -> nat -> ndarray Z.
Variable steps2D : ndarray F -> ndarray F -> list index -> nat -> bool -> bool
                   -> ndarray F * option (list (points F)).
Variable steps3D : ndarray F -> ndarray F -> list index -> nat
                   -> ndarray F * option (list (points F)).

(** X23.  [compute_masks] never calls the consistency filter
    [remove_bad_flow_masks] (whatever else happens in the run) when [do_3D]
    is set, when [flow_threshold] is [None], or when [flow_threshold] is not
    positive. *)
Theorem compute_masks_skips_filter (dP dist : ndarray F) (bd p : option (ndarray F))
  (inds : option (list index)) (niter : Z) (mask_threshold diam_threshold : F)
  (flow_threshold : option F) (interp cluster do_3D : bool) (min_size : Z)
  (resize : option (list nat)) (omni calc_trace verbose use_gpu : bool)
  (nclasses : Z) (dim : nat) :
  do_3D = true \/ flow_threshold = None
  \/ (exists thr, flow_threshold = Some thr /\ flt fzero thr = false) ->
  ~ In St_remove_bad_flow_masks
       (invokes (events
          (compute_masks SKIMAGE_ENABLED SKLEARN_ENABLED TORCH_ENABLED
             apply_hysteresis_threshold grid_sample normalize_field edt format_labels
             DBSCAN_fit kneighbors border_dilation binary_opening measure_label
             scipy_label zoom renumber div_rescale get_masks_cp
             fill_holes_and_remove_small_masks steps2D steps3D
             dP dist bd p inds niter mask_threshold diam_threshold flow_threshold
             interp cluster do_3D min_size resize omni calc_trace verbose use_gpu
             nclasses dim))).
Proof.
  intros Hyp.
  match goal with |- ~ In ?s (invokes (events ?m)) => change (quiet s m) end.
  unfold compute_masks.
  repeat first
    [ match goal with
      | |- quiet _ (if negb do_3D then _ else _) =>
          destruct Hyp as [->|[->|[thr [-> Hf]]]];
          [ cbn [negb]; apply quiet_ret
          | destruct (negb do_3D); apply quiet_ret
          | rewrite Hf, andb_false_r; destruct (negb do_3D); apply quiet_ret ]
      end
    | apply quiet_follow_flows; discriminate
    | apply quiet_get_masks
    | apply quiet_threshold_mask; discriminate
    | quiet_step ].
Qed.

End OrchestratorStages.

(** A run with foreground that reaches the filter decision with a threshold
    of 0: the stages it calls. *)
Lemma compute_masks_zero_threshold_stages :
  invokes (events
     (compute_masks true true true plain_threshold
           (fun _ pt => pt) (fun mu => mu) (fun m => full (shape m) (Fin 1))
           (fun m => m) (fun _ _ X => map (fun _ => 0%Z) X)
           (fun _ _ Y => inr (map (fun _ => []) Y))
           (fun shp _ => full shp false) (fun a _ => a)
           (fun a _ => bool_to_int a) bool_to_int
           (fun m _ => m) (fun m => m) (fun dP _ => dP)
           (fun _ m _ _ => bool_to_int m) (fun m _ _ => m)
           (fun p _ _ _ _ _ => (p, None)) (fun p _ _ _ => (p, None))
           (full [2; 1; 1] (Fin 0)) (full [1; 1] (Fin 1)) None
           (Some (full [2; 1; 1] (Fin 0))) None 200
           (Fin 0) (Fin 12) (Some (Fin 0)) true false false 15 None false false false
           false 3 2))
  = [St_get_masks_cp; St_fill_holes; St_renumber].
Proof.
  unfold compute_masks, threshold_mask.
  cbn [orb andb when]. rewrite !bind_ret_l.
  assert (Hany : any_b (Array (shape (full [1; 1] (Fin 1)))
                              (fun i => flt (Fin 0) (item (full [1; 1] (Fin 1)) i)))
                 = true).
  { unfold any_b. cbn.
    destruct (Rlt_dec 0 1) as [_|Hn]; [reflexivity|exfalso; apply Hn; lra]. }
  rewrite Hany.
  assert (Hf : flt (F := xreal) fzero (Fin 0) = false).
  { cbn. destruct (Rlt_dec 0 0) as [Hlt|_]; [exfalso; lra|reflexivity]. }
  unfold call, bind, emit, ret, events. cbn [fst snd negb app].
  rewrite Hf, andb_false_r. reflexivity.
Qed.

Lemma compute_masks_skips_filter_witness :
  let r := compute_masks true true true plain_threshold
           (fun _ pt => pt) (fun mu => mu) (fun m => full (shape m) (Fin 1))
           (fun m => m) (fun _ _ X => map (fun _ => 0%Z) X)
           (fun _ _ Y => inr (map (fun _ => []) Y))
           (fun shp _ => full shp false) (fun a _ => a)
           (fun a _ => bool_to_int a) bool_to_int
           (fun m _ => m) (fun m => m) (fun dP _ => dP)
           (fun _ m _ _ => bool_to_int m) (fun m _ _ => m)
           (fun p _ _ _ _ _ => (p, None)) (fun p _ _ _ => (p, None))
           (full [2; 1; 1] (Fin 0)) (full [1; 1] (Fin 1)) None
           (Some (full [2; 1; 1] (Fin 0))) None 200
           (Fin 0) (Fin 12) (Some (Fin 0)) true false false 15 None false false false
           false 3 2 in
  (false = true \/ Some (Fin 0) = None
   \/ (exists thr, Some (Fin 0) = Some thr /\ flt fzero thr = false))
  /\ invokes (events r) = [St_get_masks_cp; St_fill_holes; St_renumber]
  /\ ~ In St_remove_bad_flow_masks (invokes (events r)).
Proof.
  intros r.
  assert (Hyp : false = true \/ Some (Fin 0) = None
                \/ (exists thr, Some (Fin 0) = Some thr /\ flt fzero thr = false)).
  { right. right. exists (Fin 0). split; [reflexivity|].
    cbn. destruct (Rlt_dec 0 0) as [Hlt|_]; [exfalso; lra|reflexivity]. }
  split; [exact Hyp|]. split; [exact compute_masks_zero_threshold_stages|].
  exact (compute_masks_skips_filter true true true plain_threshold
           (fun _ pt => pt) (fun mu => mu) (fun m => full (shape m) (Fin 1))
           (fun m => m) (fun _ _ X => map (fun _ => 0%Z) X)
           (fun _ _ Y => inr (map (fun _ => []) Y))
           (fun shp _ => full shp false) (fun a _ => a)
           (fun a _ => bool_to_int a) bool_to_int
           (fun m _ => m) (fun m => m) (fun dP _ => dP)
           (fun _ m _ _ => bool_to_int m) (fun m _ _ => m)
           (fun p _ _ _ _ _ => (p, None)) (fun p _ _ _ => (p, None))
           (full [2; 1; 1] (Fin 0)) (full [1; 1] (Fin 1)) None
           (Some (full [2; 1; 1] (Fin 0))) None 200
           (Fin 0) (Fin 12) (Some (Fin 0)) true false false 15 None false false false
           false 3 2 Hyp).
Defined.

(** ** Ground-truth flows of an image without foreground *)

Lemma filter_none_in {A} (P : A -> bool) (l : list A) :
  (forall x, In x l -> P x = false) -> filter P l = [].
Proof.
  induction l as [|x l IH]; intros E; [reflexivity|].
  cbn [filter]. rewrite (E x) by (left; reflexivity).
  apply IH. intros y Hy. apply E. right. exact Hy.
Qed.

Section EmptyGroundTruth.
Context {F : Type} `{Scalar F} `{Elementary F}.
Variable normalize_field : list (list F) -> list (list F).
Variable edt : ndarray Z -> ndarray F.
Variable format_labels : ndarray Z -> ndarray Z.

(** X9.  In [omni] mode (and outside the stack-of-planes branch) [masks_to_flows]
    fails on a label image whose distance transform has no positive entry,
    as for an image without foreground: the mean diameter is the mean of an
    empty selection, and its conversion to [int] raises [ValueError].  The
    solver [masks_to_flows_torch] itself returns zero arrays for an image
    without foreground. *)
Theorem masks_to_flows_no_foreground_raises (masks : ndarray Z)
  (dists : option (ndarray F)) (dim : nat) :
  let m := match dists with None => format_labels masks | Some _ => masks end in
  (ndim m =? 3) && (dim =? 2) = false ->
  (forall x, In x (ravel (edt m)) -> flt fzero x = false) ->
  masks_to_flows normalize_field edt format_labels masks dists true dim
  = inl ValueError
  /\ forall d omni, any m = false ->
       masks_to_flows_torch normalize_field m d omni
       = Some (full (ndim m :: shape m) fzero, full (shape m) fzero).
Proof.
  intros m Hb Hz. split.
  - unfold masks_to_flows.
    assert (Hint : int_diameters edt m = inl ValueError).
    { unfold int_diameters.
      replace (filter (fun x => flt fzero x) (ravel (edt m))) with (@nil F);
        [reflexivity|].
      symmetry. apply filter_none_in. exact Hz. }
    destruct dists as [d|]; cbv zeta iota beta; fold m;
      rewrite Hb; cbn [andb OMNI_INSTALLED]; rewrite Hint; reflexivity.
  - intros d omni Ha. unfold masks_to_flows_torch. rewrite Ha. reflexivity.
Qed.

End EmptyGroundTruth.

Lemma masks_to_flows_no_foreground_raises_witness :
  (ndim (full [2; 2] 0%Z) =? 3) && (2 =? 2) = false
  /\ (forall x, In x (ravel (full (shape (full [2; 2] 0%Z)) (Fin 0))) ->
                flt fzero x = false)
  /\ masks_to_flows (fun mu : list (list xreal) => mu)
                    (fun m => full (shape m) (Fin 0)) (fun m => m)
                    (full [2; 2] 0%Z) None true 2
     = inl ValueError.
Proof.
  assert (Hb : (ndim (full [2; 2] 0%Z) =? 3) && (2 =? 2) = false) by reflexivity.
  assert (Hz : forall x, In x (ravel (full (shape (full [2; 2] 0%Z)) (Fin 0))) ->
                         flt fzero x = false).
  { intros x Hx. cbn in Hx.
    assert (E : x = Fin 0) by (destruct Hx as [E|[E|[E|[E|[]]]]]; symmetry; exact E).
    rewrite E. simpl. destruct (Rlt_dec 0 0) as [Hlt|_]; [|reflexivity].
    exfalso. exact (Rlt_irrefl 0 Hlt). }
  split; [exact Hb|]. split; [exact Hz|].
  exact (proj1 (masks_to_flows_no_foreground_raises (fun mu : list (list xreal) => mu)
                  (fun m => full (shape m) (Fin 0)) (fun m => m)
                  (full [2; 2] 0%Z) None 2 Hb Hz)).
Defined.

(** ** The seeds of the point-source mode *)

Lemma argmin_from_bound (l : list Q) : forall best besti cur,
  besti < cur -> argmin_from best besti cur l < cur + length l.
Proof.
  induction l as [|x l IH]; intros best besti cur Hb; cbn [argmin_from length].
  - lia.
  - destruct (Qlt_le_dec x best).
    + specialize (IH x cur (S cur)). lia.
    + specialize (IH best besti (S cur)). lia.
Qed.

Lemma argmin_bound (l : list Q) : l <> [] -> argmin l < length l.
Proof.
  destruct l as [|x l]; [congruence|]. intros _. cbn [argmin length].
  pose proof (argmin_from_bound l x 0 1). lia.
Qed.

Lemma seek_center_inside (masks : ndarray Z) (l : Z) :
  label_coords masks l <> [] -> item masks (seek_center masks l) = l.
Proof.
  intros Hne. unfold seek_center.
  set (coords := label_coords masks l) in *.
  match goal with
  | |- context [argmin ?c] => set (cost := c)
  end.
  assert (Hlen : length cost = length coords).
  { unfold cost. rewrite length_map, length_combine, length_map.
    apply Nat.min_id. }
  assert (Hc : cost <> []).
  { intros E. rewrite E in Hlen. destruct coords; [congruence|discriminate]. }
  assert (Hin : In (nth (argmin cost) coords []) coords).
  { apply nth_In. rewrite <- Hlen. apply argmin_bound. exact Hc. }
  assert (Hf : forall c, In c coords -> item masks c = l).
  { intros c Hc'. unfold coords, label_coords in Hc'. apply filter_In in Hc'.
    apply Z.eqb_eq. apply Hc'. }
  apply Hf. exact Hin.
Qed.

Lemma center_of_inside (masks : ndarray Z) (l : Z) (c : index) :
  center_of masks l = Some c -> item masks c = l.
Proof.
  unfold center_of.
  destruct (center_of_mass_int masks l) as [cm|] eqn:Ecm; [|discriminate].
  assert (Hne : label_coords masks l <> []).
  { unfold center_of_mass_int in Ecm.
    destruct (label_coords masks l); [discriminate Ecm|discriminate]. }
  destruct (Z.eqb_spec (item masks cm) l) as [Heq|_]; intros Hc; injection Hc as <-.
  - exact Heq.
  - apply seek_center_inside. exact Hne.
Qed.

Lemma sequence_Some {A} (l : list (option A)) : forall r,
  sequence l = Some r -> l = map Some r.
Proof.
  induction l as [|[x|] l IH]; intros r Hr; cbn [sequence] in Hr.
  - injection Hr as <-. reflexivity.
  - destruct (sequence l) as [r'|] eqn:E; [|discriminate].
    injection Hr as <-. cbn [map]. f_equal. apply IH. reflexivity.
  - discriminate.
Qed.

(** X8.  The seeds of the point-source mode: when [centers] can be computed
    (every label from 1 to the largest occurs), there is one seed per label,
    and the seed of label [k+1] is a pixel of the instance labelled [k+1],
    whether it is the truncated centre of mass or the replacement chosen for
    a centre that falls outside its instance. *)
Theorem centers_inside_instances (masks : ndarray Z) (cs : list index) :
  centers_of masks = Some cs ->
  length cs = Z.to_nat (amax masks)
  /\ forall k, k < length cs -> item masks (nth k cs []) = Z.of_nat (S k).
Proof.
  unfold centers_of. intros Hs. apply sequence_Some in Hs.
  assert (Hlen : length cs = Z.to_nat (amax masks)).
  { apply (f_equal (@length _)) in Hs. rewrite !length_map in Hs.
    unfold label_range in Hs. rewrite length_map, length_seq in Hs. lia. }
  split; [exact Hlen|].
  intros k Hk. apply center_of_inside.
  assert (E : nth k (map (center_of masks) (label_range masks)) None
              = nth k (map Some cs) None) by (rewrite Hs; reflexivity).
  rewrite (nth_indep _ None (center_of masks 0%Z)) in E
    by (rewrite length_map; unfold label_range; rewrite length_map, length_seq; lia).
  rewrite (map_nth (center_of masks)) in E.
  rewrite (nth_indep (map Some cs) None (Some ([] : index))) in E
    by (rewrite length_map; exact Hk).
  rewrite (map_nth Some cs) in E.
  unfold label_range in E.
  rewrite (nth_indep _ 0%Z (Z.of_nat (S 0))) in E
    by (rewrite length_map, length_seq; lia).
  rewrite (map_nth (fun k => Z.of_nat (S k))), seq_nth in E by lia.
  exact E.
Qed.

Lemma centers_inside_instances_witness :
  centers_of ring = Some [[0; 0]%Z]
  /\ item ring (nth 0 [[0; 0]%Z] []) = Z.of_nat 1.
Proof.
  assert (Hc : centers_of ring = Some [[0; 0]%Z]) by (vm_compute; reflexivity).
  split; [exact Hc|].
  apply (proj2 (centers_inside_instances ring [[0; 0]%Z] Hc) 0). simpl. lia.
Defined.

(** ** The stencil and the padding *)

(** X1.  The stencil of the solver in any dimension [d]: there are [3^d] offsets,
    the one at position [idx = 3^d // 2] is the zero offset, and so the
    centre column of the neighbour array lists the foreground pixels
    themselves, in the order of [np.nonzero]: these are the cells the
    relaxation writes. *)
Theorem stencil_center (d : nat) :
  length (cartesian d) = 3 ^ d
  /\ nth (3 ^ d / 2) (cartesian d) [] = repeat 0%Z d
  /\ forall masks : ndarray Z, mask_pix masks = nonzero masks.
Proof.
  split; [apply cartesian_length|]. split; [apply cartesian_center|].
  apply mask_pix_nonzero.
Qed.

(** X10.  Reflect padding by [p >= 1] followed by the slice [p:-p] on every axis
    gives back the array: the same shape and, at every index of the array,
    the same element.  With [p = 0] the slice [0:-0] is empty: every axis of
    the result has length 0. *)
Theorem reflect_pad_round_trip {A} (p : nat) (a : ndarray A) :
  (1 <= p ->
   shape (unpad p (pad_reflect p a)) = shape a
   /\ forall i, In i (ndindex (shape a)) ->
                item (unpad p (pad_reflect p a)) i = item a i)
  /\ shape (unpad 0 (pad_reflect 0 a)) = map (fun _ => 0) (shape a).
Proof.
  split.
  - intros Hp. split.
    + unfold unpad, pad_reflect. cbn [shape]. rewrite map_map.
      rewrite <- (map_id (shape a)) at 2. apply map_ext. intros n.
      destruct p as [|p]; lia.
    + intros i Hi. unfold unpad at 1. cbn [item].
      apply pad_reflect_center. exact Hi.
  - unfold unpad, pad_reflect. cbn [shape]. rewrite map_map. reflexivity.
Qed.

Lemma reflect_pad_round_trip_witness :
  1 <= 6
  /\ shape (unpad 6 (pad_reflect 6 labels_24)) = shape labels_24
  /\ item (unpad 6 (pad_reflect 6 labels_24)) [1; 5]%Z = item labels_24 [1; 5]%Z.
Proof.
  assert (Hp : 1 <= 6) by lia.
  split; [exact Hp|].
  destruct (proj1 (reflect_pad_round_trip 6 labels_24) Hp) as [Hs Hi].
  split; [exact Hs|]. apply Hi. vm_compute. tauto.
Defined.

(** ** The point-source mode writes on the foreground only *)

Lemma item_pad_shift (masks : ndarray Z) (i : index) :
  item (pad 0%Z 1 masks) (shift 1 i)
  = if in_bounds (shape masks) i then item masks i else 0%Z.
Proof.
  unfold pad. cbn [item].
  pose proof (shift_back 1 i) as Hsb.
  cbn [Z.of_nat Pos.of_succ_nat Z.opp] in Hsb |- *.
  rewrite Hsb. reflexivity.
Qed.

Lemma centers_of_labelled (masks : ndarray Z) (cs : list index) (c : index) :
  centers_of masks = Some cs -> In c cs -> item masks c <> 0%Z.
Proof.
  unfold centers_of. intros Hs Hc. apply sequence_Some in Hs.
  assert (Hin : In (Some c) (map (center_of masks) (label_range masks))).
  { rewrite Hs. apply in_map. exact Hc. }
  apply in_map_iff in Hin. destruct Hin as [l [Hl Hin]].
  apply center_of_inside in Hl. rewrite Hl.
  unfold label_range in Hin. apply in_map_iff in Hin.
  destruct Hin as [k [<- _]]. lia.
Qed.

Section HeatField.
Context {F : Type} `{Scalar F} `{Elementary F}.

Lemma heat_iter_background (mp : ndarray Z) (centers : list index) (j : index)
  (n : nat) :
  item mp j = 0%Z ->
  (forall c, In c centers -> item mp c <> 0%Z) ->
  item (Nat.iter n (heat_step mp centers) (full (shape mp) fzero)) j = fzero.
Proof.
  intros Hj Hc. induction n as [|n IH]; [reflexivity|].
  cbn [Nat.iter nat_rect]. unfold heat_step at 1. cbv zeta.
  rewrite item_scatter_out
    by (rewrite mask_pix_nonzero; apply background_not_nonzero; exact Hj).
  rewrite item_scatter_out by (intros Hin; exact (Hc j Hin Hj)).
  exact IH.
Qed.

End HeatField.

(** X24.  In the point-source (not omni) mode too, the potential returned by
    [masks_to_flows_torch] is 0 at every background pixel (and at any index
    outside the image), over the extended reals: the sources lie on the
    foreground, the box mean is written on the foreground only, and the
    final [log(1+T)] maps 0 to 0. *)
Theorem heat_potential_zero_outside_foreground
  (normalize_field : list (list xreal) -> list (list xreal))
  (masks : ndarray Z) (dists : ndarray xreal) (r : ndarray xreal * ndarray xreal) :
  masks_to_flows_torch normalize_field masks dists false = Some r ->
  forall i, in_bounds (shape masks) i = false \/ item masks i = 0%Z ->
            item (snd r) i = Fin 0.
Proof.
  unfold masks_to_flows_torch. destruct (any masks).
  - destruct (single_point masks); [discriminate|].
    cbv beta iota zeta.
    destruct (centers_of (pad 0%Z 1 masks)) as [cs|] eqn:Ec; [|discriminate].
    destruct (heat_niter masks) as [n|]; [|discriminate].
    unfold _extend_centers_torch. cbv beta iota zeta.
    intros E. injection E as <-. intros i Hi.
    match goal with
    | |- ?lhs = _ =>
        change lhs
          with (flog (fadd fone
                  (item (Nat.iter (Z.to_nat n) (heat_step (pad 0%Z 1 masks) cs)
                                  (full (shape (pad 0%Z 1 masks)) fzero))
                        (shift 1 i))))
    end.
    rewrite heat_iter_background.
    + cbn. destruct (Rlt_dec 0 (1 + 0)) as [_|Hn]; [|exfalso; apply Hn; lra].
      f_equal. rewrite Rplus_0_r. apply ln_1.
    + rewrite item_pad_shift.
      destruct (in_bounds (shape masks) i); [|reflexivity].
      destruct Hi as [Hi|Hi]; [discriminate|exact Hi].
    + intros c Hc. eapply centers_of_labelled; eassumption.
  - intros E. injection E as <-. intros i _. reflexivity.
Qed.

Lemma heat_demo_returns :
  exists r,
    masks_to_flows_torch (normalize_unit (F := xreal)) pair_labels
                         (unit_edt pair_labels) false = Some r.
Proof.
  unfold masks_to_flows_torch.
  assert (Ha : any pair_labels = true) by reflexivity.
  assert (Hsp : single_point pair_labels = false) by reflexivity.
  rewrite Ha, Hsp. cbv beta iota zeta.
  destruct (centers_of (pad 0%Z 1 pair_labels)) as [cs|] eqn:Ec;
    [|vm_compute in Ec; discriminate Ec].
  destruct (heat_niter pair_labels) as [n|] eqn:En;
    [|vm_compute in En; discriminate En].
  destruct (_extend_centers_torch (pad 0%Z 1 pair_labels) cs (Z.to_nat n) false)
    as [mu T].
  eexists. reflexivity.
Qed.

Lemma heat_potential_zero_outside_foreground_witness :
  exists r,
    masks_to_flows_torch (normalize_unit (F := xreal)) pair_labels
                         (unit_edt pair_labels) false = Some r
    /\ (in_bounds (shape pair_labels) [1; 2]%Z = false
        \/ item pair_labels [1; 2]%Z = 0%Z)
    /\ item (snd r) [1; 2]%Z = Fin 0.
Proof.
  destruct heat_demo_returns as [r Hr]. exists r.
  assert (Hi : in_bounds (shape pair_labels) [1; 2]%Z = false
               \/ item pair_labels [1; 2]%Z = 0%Z) by (right; reflexivity).
  split; [exact Hr|]. split; [exact Hi|].
  exact (heat_potential_zero_outside_foreground normalize_unit pair_labels
           (unit_edt pair_labels) r Hr [1; 2]%Z Hi).
Defined.

(** ** The last stages of the orchestrator *)

Lemma bind_inr_events {A B} (m : Run A) (f : A -> Run B) (y : B) :
  outcome (bind m f) = inr y ->
  exists x, outcome m = inr x /\ outcome (f x) = inr y
            /\ events (bind m f) = (events m ++ events (f x))%list.
Proof.
  unfold outcome, events, bind. destruct m as [[e|x] l]; cbn [fst snd]; [discriminate|].
  destruct (f x) as [r l'] eqn:E. cbn [fst snd]. intros ->.
  exists x. rewrite E. cbn [fst snd]. auto.
Qed.

Lemma ends_with_cleanup_bind {A B} (m : Run A) (f : A -> Run B) :
  (forall x, ends_with_cleanup (f x)) -> ends_with_cleanup (bind m f).
Proof.
  intros Hf res Ho. apply bind_inr_events in Ho.
  destruct Ho as [x [_ [Hfx Ev]]]. rewrite Ev.
  destruct (Hf x res Hfx) as [Hin|[l Hl]].
  - left. apply in_or_app. right. exact Hin.
  - right. exists (invokes (events m) ++ l)%list.
    rewrite invokes_app, Hl, app_assoc. reflexivity.
Qed.

Section OrchestratorCleanup.
Context {F : Type} `{Scalar F} `{Elementary F}.
Variable SKIMAGE_ENABLED SKLEARN_ENABLED TORCH_ENABLED : bool.
Variable apply_hysteresis_threshold : ndarray F -> F -> F -> ndarray bool.
Variable grid_sample : ndarray F -> points F -> list (list F).
Variable normalize_field : list (list F) -> list (list F).
Variable edt : ndarray Z -> ndarray F.
Variable format_labels : ndarray Z -> ndarray Z.
Variable DBSCAN_fit : F -> nat -> points F -> list Z.
Variable kneighbors : nat -> points F -> points F -> exn + list (list nat).
Variable border_dilation : list nat -> nat -> ndarray bool.
Variable binary_opening : ndarray bool -> nat -> ndarray bool.
Variable measure_label : ndarray bool -> nat -> ndarray Z.
Variable scipy_label : ndarray bool -> ndarray Z.
Variable zoom : ndarray Z -> list nat -> ndarray Z.
Variable renumber : ndarray Z -> ndarray Z.
Variable div_rescale : ndarray F -> ndarray bool -> ndarray F.
Variable get_masks_cp : ndarray F -> ndarray bool -> ndarray F -> bool -> ndarray Z.
Variable fill_holes_and_remove_small_masks : ndarray Z -> Z -> nat -> ndarray Z.
Variable steps2D : ndarray F -> ndarray F -> list index -> nat -> bool -> bool
                   -> ndarray F * option (list (points F)).
Variable steps3D : ndarray F -> ndarray F -> list index -> nat
                   -> ndarray F * option (list (points F)).

(** X25.  Whenever [compute_masks] returns, either it logged "No cell pixels
    found." (the threshold left no foreground), or the last two stages it
    called are [fill_holes_and_remove_small_masks] and then
    [fastremap.renumber], in that order: the labels it returns have always
    been through the clean-up and the renumbering. *)
Theorem compute_masks_finishes_with_cleanup (dP dist : ndarray F)
  (bd p : option (ndarray F)) (inds : option (list index)) (niter : Z)
  (mask_threshold diam_threshold : F) (flow_threshold : option F)
  (interp cluster do_3D : bool) (min_size : Z) (resize : option (list nat))
  (omni calc_trace verbose use_gpu : bool) (nclasses : Z) (dim : nat)
  (res : ndarray Z * ndarray F * option (list (points F))) :
  let r := compute_masks SKIMAGE_ENABLED SKLEARN_ENABLED TORCH_ENABLED
             apply_hysteresis_threshold grid_sample normalize_field edt format_labels
             DBSCAN_fit kneighbors border_dilation binary_opening measure_label
             scipy_label zoom renumber div_rescale get_masks_cp
             fill_holes_and_remove_small_masks steps2D steps3D
             dP dist bd p inds niter mask_threshold diam_threshold flow_threshold
             interp cluster do_3D min_size resize omni calc_trace verbose use_gpu
             nclasses dim in
  outcome r = inr res ->
  In (Info "No cell pixels found.") (events r)
  \/ exists l, invokes (events r) = (l ++ [St_fill_holes; St_renumber])%list.
Proof.
  intros r. subst r. revert res.
  match goal with |- forall res, outcome ?m = _ -> _ => change (ends_with_cleanup m) end.
  unfold compute_masks.
  apply ends_with_cleanup_bind. intros _.
  apply ends_with_cleanup_bind. intros mask.
  destruct (any_b mask).
  - apply ends_with_cleanup_bind. intros dP_.
    apply ends_with_cleanup_bind. intros [[p' inds'] tr].
    apply ends_with_cleanup_bind. intros mask1.
    apply ends_with_cleanup_bind. intros mask2.
    apply ends_with_cleanup_bind. intros mask3.
    intros res _. right. exists []. reflexivity.
  - intros res _. left. left. reflexivity.
Qed.

End OrchestratorCleanup.

Lemma compute_masks_demo_returns :
  exists res,
    outcome (compute_masks true true true plain_threshold
               (fun _ pt => pt) (fun mu => mu) (fun m => full (shape m) (Fin 1))
               (fun m => m) (fun _ _ X => map (fun _ => 0%Z) X)
               (fun _ _ Y => inr (map (fun _ => []) Y))
               (fun shp _ => full shp false) (fun a _ => a)
               (fun a _ => bool_to_int a) bool_to_int
               (fun m _ => m) (fun m => m) (fun dP _ => dP)
               (fun _ m _ _ => bool_to_int m) (fun m _ _ => m)
               (fun p _ _ _ _ _ => (p, None)) (fun p _ _ _ => (p, None))
               (full [2; 1; 1] (Fin 0)) (full [1; 1] (Fin 1)) None
               (Some (full [2; 1; 1] (Fin 0))) None 200
               (Fin 0) (Fin 12) None true false true 15 None false false false false
               3 2) = inr res.
Proof.
  unfold compute_masks, threshold_mask.
  cbn [orb andb when]. rewrite !bind_ret_l.
  assert (Hany : any_b (Array (shape (full [1; 1] (Fin 1)))
                              (fun i => flt (Fin 0) (item (full [1; 1] (Fin 1)) i)))
                 = true).
  { unfold any_b. cbn.
    destruct (Rlt_dec 0 1) as [_|Hn]; [reflexivity|exfalso; apply Hn; lra]. }
  rewrite Hany. eexists. reflexivity.
Qed.

Lemma compute_masks_finishes_with_cleanup_witness :
  exists res,
    outcome (compute_masks true true true plain_threshold
               (fun _ pt => pt) (fun mu => mu) (fun m => full (shape m) (Fin 1))
               (fun m => m) (fun _ _ X => map (fun _ => 0%Z) X)
               (fun _ _ Y => inr (map (fun _ => []) Y))
               (fun shp _ => full shp false) (fun a _ => a)
               (fun a _ => bool_to_int a) bool_to_int
               (fun m _ => m) (fun m => m) (fun dP _ => dP)
               (fun _ m _ _ => bool_to_int m) (fun m _ _ => m)
               (fun p _ _ _ _ _ => (p, None)) (fun p _ _ _ => (p, None))
               (full [2; 1; 1] (Fin 0)) (full [1; 1] (Fin 1)) None
               (Some (full [2; 1; 1] (Fin 0))) None 200
               (Fin 0) (Fin 12) None true false true 15 None false false false false
               3 2) = inr res
    /\ (In (Info "No cell pixels found.")
           (events (compute_masks true true true plain_threshold
               (fun _ pt => pt) (fun mu => mu) (fun m => full (shape m) (Fin 1))
               (fun m => m) (fun _ _ X => map (fun _ => 0%Z) X)
               (fun _ _ Y => inr (map (fun _ => []) Y))
               (fun shp _ => full shp false) (fun a _ => a)
               (fun a _ => bool_to_int a) bool_to_int
               (fun m _ => m) (fun m => m) (fun dP _ => dP)
               (fun _ m _ _ => bool_to_int m) (fun m _ _ => m)
               (fun p _ _ _ _ _ => (p, None)) (fun p _ _ _ => (p, None))
               (full [2; 1; 1] (Fin 0)) (full [1; 1] (Fin 1)) None
               (Some (full [2; 1; 1] (Fin 0))) None 200
               (Fin 0) (Fin 12) None true false true 15 None false false false false
               3 2))
        \/ exists l,
             invokes (events (compute_masks true true true plain_threshold
               (fun _ pt => pt) (fun mu => mu) (fun m => full (shape m) (Fin 1))
               (fun m => m) (fun _ _ X => map (fun _ => 0%Z) X)
               (fun _ _ Y => inr (map (fun _ => []) Y))
               (fun shp _ => full shp false) (fun a _ => a)
               (fun a _ => bool_to_int a) bool_to_int
               (fun m _ => m) (fun m => m) (fun dP _ => dP)
               (fun _ m _ _ => bool_to_int m) (fun m _ _ => m)
               (fun p _ _ _ _ _ => (p, None)) (fun p _ _ _ => (p, None))
               (full [2; 1; 1] (Fin 0)) (full [1; 1] (Fin 1)) None
               (Some (full [2; 1; 1] (Fin 0))) None 200
               (Fin 0) (Fin 12) None true false true 15 None false false false false
               3 2))
             = (l ++ [St_fill_holes; St_renumber])%list).
Proof.
  destruct compute_masks_demo_returns as [res Hres]. exists res.
  split; [exact Hres|].
  exact (compute_masks_finishes_with_cleanup _ _ _ _ _ _ _ _ _ _ _ _ _ _ _ _ _ _ _ _ _
           _ _ _ _ _ _ _ _ _ _ _ _ _ _ _ _ _ _ _ _ res Hres).
Defined.
